(** * configparser: the INI parser of [src/configparser.js]

    A shallow embedding of the line parser ([parseLines] and [read]), the
    serializer ([getSectionsAsString]) and the accessor shell of
    [ConfigParser], with the properties of its specification.  File access,
    the asynchronous variants and [getFloat] are left out.  The repository
    also holds an earlier copy of the parser with narrower patterns; the
    properties are about [src/configparser.js].

    Modelling conventions.
    - A JavaScript string is the list of its UTF-16 code units.  The regular
      expressions of the source carry no [u] flag, so every character class
      and [.] consume exactly one code unit.
    - A regular expression is the list of its atoms, run by a backtracking
      matcher; each pattern is then shown equal to a direct function on the
      text.
    - An object used as a dictionary ([_sections], and each section) is an
      association list of its own properties in creation order; assigning
      to an existing property keeps its position.  What the language does
      on top of that is written out: [Object.keys] and [for-in] list the
      array-index names first, in numeric order ([enumerate]); reading a
      property goes on to the prototype ([get_key], [get_section]);
      assigning to [__proto__] reaches the setter of Object.prototype,
      which sets the prototype of [_sections] and leaves a section as it
      is ([put]; the prototype of [_sections] is the entry of that name);
      and [x.hasOwnProperty(k)] calls what the property [hasOwnProperty]
      of [x] holds, which throws TypeError when that is a section or a
      string.  The accessors return a [result]: a value or the error
      thrown.
    - The values that [set] stores are strings, as the parser's are.
    - A Number is an integer [VNumber] up to 2^53 in magnitude; beyond,
      [parseInt] returns the double nearest to the digits read, for which
      [VInexact] keeps those digits.
    - The file that [read] takes is a path, a file descriptor or a Buffer
      ([file_ref]); [file || ''] is [or_empty].
    - [curSec] always aliases the object most recently stored in [_sections]
      under the transformed header name, so it is tracked by that name and
      writes through it go to the store.
    - The [onInvalidLine] callback is an observer: its invocations are
      recorded, in order, in a log.
    - [toUpperCase] and [toLowerCase] are parameters of the parser. *)

From Stdlib Require Import List NArith ZArith Bool Lia String Ascii DecimalString
  Permutation Sorted.
Import ListNotations.

(** ** Strings *)

Definition code := N.
Definition jsstring := list code.

Definition lit (s : string) : jsstring :=
  List.map N_of_ascii (list_ascii_of_string s).

Definition ch (a : ascii) : code := N_of_ascii a.
Arguments ch : simpl never.

Definition code_eqb (a b : code) : bool := N.eqb a b.

Fixpoint jseqb (a b : jsstring) : bool :=
  match a, b with
  | [], [] => true
  | x :: a', y :: b' => code_eqb x y && jseqb a' b'
  | _, _ => false
  end.

Fixpoint mem_code (c : code) (cs : list code) : bool :=
  match cs with
  | [] => false
  | d :: cs' => code_eqb c d || mem_code c cs'
  end.

Fixpoint take_while (p : code -> bool) (s : jsstring) : jsstring :=
  match s with
  | c :: s' => if p c then c :: take_while p s' else []
  | [] => []
  end.

Fixpoint drop_while (p : code -> bool) (s : jsstring) : jsstring :=
  match s with
  | c :: s' => if p c then drop_while p s' else s
  | [] => []
  end.

(** [\s]: WhiteSpace and LineTerminator code units of ECMAScript. *)
Definition is_space (c : code) : bool :=
  mem_code c [9; 10; 11; 12; 13; 32; 160; 5760; 8232; 8233; 8239; 8287; 12288; 65279]%N
  || (N.leb 8192 c && N.leb c 8202).

(** LineTerminator: the code units that [.] refuses. *)
Definition is_line_terminator (c : code) : bool :=
  mem_code c [10; 13; 8232; 8233]%N.

(** The single code units of LINE_BOUNDARY: LF, CR, NEL, LS, PS. *)
Definition is_line_boundary (c : code) : bool :=
  mem_code c [10; 13; 133; 8232; 8233]%N.

(** The text without its leading white space. *)
Definition trim_start (s : jsstring) : jsstring := drop_while is_space s.

(** The text without its trailing white space. *)
Fixpoint trim_end (s : jsstring) : jsstring :=
  match s with
  | [] => []
  | c :: s' => if forallb is_space s then [] else c :: trim_end s'
  end.

Definition is_delimiter (c : code) : bool := mem_code c [ch "="; ch ":"].
Definition not_close (c : code) : bool := negb (mem_code c [ch "]"]).
Definition is_dot (c : code) : bool := negb (is_line_terminator c).

Definition no_delimiter (s : jsstring) : bool :=
  forallb (fun c => negb (is_delimiter c)) s.

(** ** Regular expressions

    Every pattern of the source is a sequence of quantified character
    classes, some of them capturing.  [run] is a backtracking matcher with
    the priorities of ECMAScript: a greedy quantifier tries the longest
    repetition first, a lazy one the shortest. *)

Inductive cclass : Type :=
| CSpace                       (* \s *)
| CDot                         (* . *)
| COneOf (cs : list code)      (* [abc] *)
| CNoneOf (cs : list code).    (* [^abc] *)

Definition cmatch (k : cclass) (c : code) : bool :=
  match k with
  | CSpace => is_space c
  | CDot => negb (is_line_terminator c)
  | COneOf cs => mem_code c cs
  | CNoneOf cs => negb (mem_code c cs)
  end.

Inductive quant : Type := Once | Star | Plus | StarLazy.

Record atom : Type := Atom { a_class : cclass; a_quant : quant; a_group : bool }.

Definition regex := list atom.

Section Matcher.
Variable R : Type.

(** Greedy repetition of [p], then the continuation [k] on the text
    consumed and the text left; on failure one repetition is given back. *)
Fixpoint star_greedy (p : code -> bool) (k : jsstring -> jsstring -> option R)
         (s : jsstring) : option R :=
  match s with
  | c :: s' =>
      if p c then
        match star_greedy p (fun t r => k (c :: t) r) s' with
        | Some x => Some x
        | None => k [] s
        end
      else k [] s
  | [] => k [] s
  end.

(** Lazy repetition: the continuation first, one more repetition on
    failure. *)
Fixpoint star_lazy (p : code -> bool) (k : jsstring -> jsstring -> option R)
         (s : jsstring) : option R :=
  match k [] s with
  | Some x => Some x
  | None =>
      match s with
      | c :: s' => if p c then star_lazy p (fun t r => k (c :: t) r) s' else None
      | [] => None
      end
  end.

Definition once (p : code -> bool) (k : jsstring -> jsstring -> option R)
           (s : jsstring) : option R :=
  match s with
  | c :: s' => if p c then k [c] s' else None
  | [] => None
  end.

Definition run_atom (a : atom) (k : jsstring -> jsstring -> option R)
           (s : jsstring) : option R :=
  let p := cmatch (a_class a) in
  match a_quant a with
  | Once => once p k s
  | Star => star_greedy p k s
  | Plus => once p (fun t r => star_greedy p (fun t' r' => k (t ++ t') r') r) s
  | StarLazy => star_lazy p k s
  end.
End Matcher.

Arguments star_greedy {R} p k s.
Arguments star_lazy {R} p k s.
Arguments once {R} p k s.
Arguments run_atom {R} a k s.

(** The captures of a match at the start of [s], and the text after it. *)
Fixpoint run (re : regex) : jsstring -> option (list jsstring * jsstring) :=
  match re with
  | [] => fun s => Some ([], s)
  | a :: re' =>
      fun s =>
        run_atom a
          (fun t r =>
             match run re' r with
             | Some (caps, rest) => Some (if a_group a then t :: caps else caps, rest)
             | None => None
             end) s
  end.

(** [RegExp.prototype.exec] of a pattern without [^]: the first start
    position with a match. *)
Fixpoint exec (re : regex) (s : jsstring) : option (list jsstring) :=
  match run re s with
  | Some (caps, _) => Some caps
  | None =>
      match s with
      | [] => None
      | _ :: s' => exec re s'
      end
  end.

(** A pattern that begins with [^] is tried at the start only. *)
Definition exec_anchored (re : regex) (s : jsstring) : option (list jsstring) :=
  match run re s with
  | Some (caps, _) => Some caps
  | None => None
  end.

(** SECTION: the pattern  \s* \[ ( [^\]]+ ) ]  with one capture group. *)
Definition SECTION : regex :=
  [ Atom CSpace Star false;
    Atom (COneOf [ch "["]) Once false;
    Atom (CNoneOf [ch "]"]) Plus true;
    Atom (COneOf [ch "]"]) Once false ].

(** KEY: the pattern  \s* ( .*? ) \s* [=:] \s* ( .* )  with two capture groups. *)
Definition KEY : regex :=
  [ Atom CSpace Star false;
    Atom CDot StarLazy true;
    Atom CSpace Star false;
    Atom (COneOf [ch "="; ch ":"]) Once false;
    Atom CSpace Star false;
    Atom CDot Star true ].

(** COMMENT: the pattern  ^ \s* [;#] ; the atoms after its anchor. *)
Definition COMMENT : regex :=
  [ Atom CSpace Star false;
    Atom (COneOf [ch ";"; ch "#"]) Once false ].

(** The pattern  ^ \s+  of the leading-space replacement, after its anchor. *)
Definition LEADING_SPACE : regex := [ Atom CSpace Plus false ].

(** [v.replace] of that pattern by the empty string. *)
Definition strip_leading (v : jsstring) : jsstring :=
  match run LEADING_SPACE v with
  | Some (_, rest) => rest
  | None => v
  end.

(** [SECTION.exec(line)], reduced to [res[1]]. *)
Definition SECTION_exec (line : jsstring) : option jsstring :=
  match exec SECTION line with
  | Some (h :: _) => Some h
  | _ => None
  end.

(** [KEY.exec(line)], reduced to [(res[1], res[2])]. *)
Definition KEY_exec (line : jsstring) : option (jsstring * jsstring) :=
  match exec KEY line with
  | Some (k :: v :: _) => Some (k, v)
  | _ => None
  end.

(** [line.match(COMMENT)], reduced to its truth value. *)
Definition COMMENT_match (line : jsstring) : bool :=
  match exec_anchored COMMENT line with
  | Some _ => true
  | None => false
  end.

(** [string.split(LINE_BOUNDARY)]: CR LF counts as one boundary, before the
    single code units LF, CR, NEL, LS and PS. *)
Fixpoint split_lines (s : jsstring) : list jsstring :=
  match s with
  | [] => [[]]
  | c :: s' =>
      if code_eqb c 13%N then
        match s' with
        | d :: s'' => if code_eqb d 10%N then [] :: split_lines s'' else [] :: split_lines s'
        | [] => [] :: split_lines s'
        end
      else if is_line_boundary c then [] :: split_lines s'
      else
        match split_lines s' with
        | l :: ls => (c :: l) :: ls
        | [] => [[c]]
        end
  end.

(** ** Objects

    An object of the source is held as the list of its own properties, in
    the order in which they were created; what the language adds to that
    (the prototype chain, the accessor [__proto__], the order in which
    property names are listed, a method looked up on the object itself) is
    written out where the source relies on it. *)

Section Dict.
Variable V : Type.

Definition dict := list (jsstring * V).

(** The value of the entry named [k]. *)
Fixpoint lookup (o : dict) (k : jsstring) : option V :=
  match o with
  | [] => None
  | (k', v) :: o' => if jseqb k' k then Some v else lookup o' k
  end.

(** Whether an entry is named [k]. *)
Definition has_own (o : dict) (k : jsstring) : bool :=
  match lookup o k with
  | Some _ => true
  | None => false
  end.

(** The list with the entry named [k] set to [v]: an existing entry keeps
    its place, a new one goes last. *)
Fixpoint assign (o : dict) (k : jsstring) (v : V) : dict :=
  match o with
  | [] => [(k, v)]
  | (k', v') :: o' =>
      if jseqb k' k then (k', v) :: o' else (k', v') :: assign o' k v
  end.

(** The list without the entry named [k]. *)
Fixpoint delete (o : dict) (k : jsstring) : dict :=
  match o with
  | [] => []
  | (k', v') :: o' => if jseqb k' k then o' else (k', v') :: delete o' k
  end.

(** The names of the entries, in the order of the list. *)
Definition ownKeys (o : dict) : list jsstring := List.map fst o.
End Dict.

Arguments lookup {V} o k.
Arguments has_own {V} o k.
Arguments assign {V} o k v.
Arguments delete {V} o k.
Arguments ownKeys {V} o.

(** *** The order of property names

    [Object.keys] and [for-in] list the names that are array indices
    first, in ascending numeric order, and the other names after them in
    the order of their creation. *)

Definition is_digit (c : code) : bool := (N.leb 48 c && N.leb c 57)%N.

Definition decimal_value (s : jsstring) : N :=
  fold_left (fun a c => (a * 10 + (c - 48))%N) s 0%N.

(** An array index: the canonical decimal form of an integer below
    2^32 - 1. *)
Definition array_index (k : jsstring) : option N :=
  match k with
  | [] => None
  | c :: r =>
      if forallb is_digit k
         && (negb (code_eqb c 48%N) || match r with [] => true | _ :: _ => false end)
      then if (decimal_value k <=? 4294967294)%N then Some (decimal_value k) else None
      else None
  end.

Section Order.
Variable V : Type.

Definition is_index_entry (e : jsstring * V) : bool :=
  match array_index (fst e) with Some _ => true | None => false end.

Definition index_of_entry (e : jsstring * V) : N :=
  match array_index (fst e) with Some n => n | None => 0%N end.

Fixpoint insert_entry (e : jsstring * V) (l : dict V) : dict V :=
  match l with
  | [] => [e]
  | e' :: l' =>
      if (index_of_entry e <=? index_of_entry e')%N then e :: l
      else e' :: insert_entry e l'
  end.

Definition sort_entries (l : dict V) : dict V := fold_right insert_entry [] l.

(** The own properties in the order in which the language lists them. *)
Definition enumerate (o : dict V) : dict V :=
  sort_entries (List.filter is_index_entry o)
  ++ List.filter (fun e => negb (is_index_entry e)) o.

(** [Object.keys(o)], and the names [for (k in o)] visits, for an object
    that inherits nothing enumerable. *)
Definition Object_keys (o : dict V) : list jsstring := ownKeys (enumerate o).
End Order.

Arguments is_index_entry {V} e.
Arguments index_of_entry {V} e.
Arguments insert_entry {V} e l.
Arguments sort_entries {V} l.
Arguments enumerate {V} o.
Arguments Object_keys {V} o.

(** The same order, on the names alone. *)

Definition is_index (k : jsstring) : bool :=
  match array_index k with Some _ => true | None => false end.

Definition index_of (k : jsstring) : N :=
  match array_index k with Some n => n | None => 0%N end.

Fixpoint insert_key (k : jsstring) (l : list jsstring) : list jsstring :=
  match l with
  | [] => [k]
  | k' :: l' =>
      if (index_of k <=? index_of k')%N then k :: l else k' :: insert_key k l'
  end.

Definition sort_keys (l : list jsstring) : list jsstring := fold_right insert_key [] l.

Definition index_le (a b : jsstring) : Prop := (index_of a <= index_of b)%N.

Definition key_order (ks : list jsstring) : list jsstring :=
  sort_keys (List.filter is_index ks) ++ List.filter (fun k => negb (is_index k)) ks.

(** *** What Object.prototype holds *)

Definition proto_name : jsstring := lit "__proto__".
Definition hasOwnProperty_name : jsstring := lit "hasOwnProperty".

(** The methods of Object.prototype. *)
Definition Object_prototype_methods : list jsstring :=
  [lit "constructor"; lit "__defineGetter__"; lit "__defineSetter__";
   lit "hasOwnProperty"; lit "__lookupGetter__"; lit "__lookupSetter__";
   lit "isPrototypeOf"; lit "propertyIsEnumerable"; lit "toString";
   lit "valueOf"; lit "toLocaleString"].

(** What reading a property of a section object gives: one of its strings,
    or what it inherits from Object.prototype. *)
Inductive member : Type :=
| MUndefined
| MString (s : jsstring)
| MFunction (name : jsstring)      (* the method of Object.prototype of that name *)
| MObjectPrototype.                (* Object.prototype itself, through [__proto__] *)

(** [Object.prototype[k]], read from an object whose prototype it is. *)
Definition Object_prototype_get (k : jsstring) : member :=
  if jseqb k proto_name then MObjectPrototype
  else if existsb (jseqb k) Object_prototype_methods then MFunction k
  else MUndefined.

(** *** Section objects

    A section is created as [{}] and holds strings; its prototype is
    Object.prototype throughout, because the setter [__proto__] ignores a
    value that is not an object. *)

Definition section := dict jsstring.

(** [o[k]] *)
Definition get_key (o : section) (k : jsstring) : member :=
  match lookup o k with
  | Some v => MString v
  | None => Object_prototype_get k
  end.

(** [o[k] = v] for a string [v]: the name [__proto__] reaches the setter
    of Object.prototype, which ignores a string, unless the object has a
    property of its own of that name. *)
Definition put (o : section) (k v : jsstring) : section :=
  if jseqb k proto_name && negb (has_own o k) then o else assign o k v.

(** *** The object [this._sections]

    The list holds its own properties, which are section objects, and,
    under the name [__proto__], its prototype when the source has assigned
    a section object to [this._sections['__proto__']] (lines 103 and 306):
    that assignment reaches the setter of Object.prototype, which makes the
    object the prototype of [this._sections] and creates no property.
    Without such an entry the prototype is Object.prototype. *)

Definition store := dict section.

(** The section object that is the prototype, if one was set. *)
Definition prototype_of (s : store) : option section := lookup s proto_name.

(** The own properties. *)
Definition own_properties (s : store) : store :=
  List.filter (fun e => negb (jseqb (fst e) proto_name)) s.

(** The own property named [name]. *)
Definition own_section (s : store) (name : jsstring) : option section :=
  if jseqb name proto_name then None else lookup s name.

(** ** The parser object *)

Inductive transform : Type := TNone | TLower | TUpper.

Record options : Type := Options {
  opt_transform : option transform;      (* options.transform *)
  opt_onInvalidLine : bool               (* options.onInvalidLine is a function *)
}.

(** What [read] accepts as [file]: a file name, a file descriptor, or a
    name held in a Buffer. *)
Inductive file_ref : Type :=
| Path (name : jsstring)
| Descriptor (fd : Z)
| PathBuffer (bytes : list N).

Record ConfigParser : Type := Parser {
  _file : option file_ref;               (* null until [read] sets it *)
  _transform : transform;
  _onInvalidLine : bool;
  _sections : store
}.

(** function ConfigParser(options) *)
Definition new_ConfigParser (o : options) : ConfigParser :=
  {| _file := None;
     _transform := match opt_transform o with Some t => t | None => TNone end;
     _onInvalidLine := opt_onInvalidLine o;
     _sections := [] |}.

(** The argument [{file, lineNumber, line}] of the callback. *)
Record line_info : Type := LineInfo {
  li_file : option file_ref;
  li_lineNumber : nat;
  li_line : jsstring
}.

Inductive error : Type :=
| DuplicateSectionError (section : jsstring)
| NoSectionError (section : jsstring)
| MissingSectionHeaderError (file : option file_ref) (lineNumber : nat) (line : jsstring)
| ParseError (file : option file_ref) (lineNumber : nat) (line : jsstring)
| InterpolationError
| TypeError.       (* thrown by the language: a call of what is not a function *)

Inductive result (A : Type) : Type :=
| Return (a : A)
| Throw (e : error).
Arguments Return {A} a.
Arguments Throw {A} e.

Definition bind {A B : Type} (r : result A) (f : A -> result B) : result B :=
  match r with
  | Return a => f a
  | Throw e => Throw e
  end.

Notation "x <- r ;; f" := (bind r (fun x => f))
  (at level 61, r at next level, right associativity).

(** [file || '']: [null], the empty string and the descriptor 0 are
    falsy; a Buffer is an object and never is. *)
Definition or_empty (file : option file_ref) : option file_ref :=
  match file with
  | None => Some (Path [])
  | Some (Path []) => Some (Path [])
  | Some (Descriptor 0) => Some (Path [])
  | Some f => Some f
  end.

(** What the accessors return. *)
Inductive value : Type :=
| VUndefined
| VString (s : jsstring)
| VNumber (z : Z)          (* an integer no larger than 2^53, which a Number holds exactly *)
| VInexact (z : Z)         (* the Number the host rounds a larger integer [z] to *)
| VNegativeZero
| VNaN
| VSection (o : section)   (* a section object *)
| VFunction (name : jsstring)
| VObjectPrototype.

Definition of_member (m : member) : value :=
  match m with
  | MUndefined => VUndefined
  | MString s => VString s
  | MFunction k => VFunction k
  | MObjectPrototype => VObjectPrototype
  end.

(** [this._sections[name]]: an own property, else what the prototype chain
    holds; the name [__proto__] reaches the getter of Object.prototype,
    which returns the prototype. *)
Definition get_section (s : store) (name : jsstring) : value :=
  if jseqb name proto_name then
    match prototype_of s with
    | Some p => VSection p
    | None => VObjectPrototype
    end
  else
    match lookup s name with
    | Some o => VSection o
    | None =>
        match prototype_of s with
        | Some p => of_member (get_key p name)
        | None => of_member (Object_prototype_get name)
        end
    end.

(** [this._sections.hasOwnProperty(name)]: the method is looked up on the
    object, so a section, or a key of a prototype section, that is named
    [hasOwnProperty] is found in its place, and calling it throws. *)
Definition hasOwnProperty (s : store) (name : jsstring) : result bool :=
  match get_section s hasOwnProperty_name with
  | VFunction _ =>
      Return (match own_section s name with Some _ => true | None => false end)
  | _ => Throw TypeError
  end.

(** [o.hasOwnProperty(key)] for a section object [o]. *)
Definition key_hasOwnProperty (o : section) (key : jsstring) : result bool :=
  match get_key o hasOwnProperty_name with
  | MFunction _ => Return (has_own o key)
  | _ => Throw TypeError
  end.

(** The mutable state of one run of [parseLines]: [this._sections], the
    local [curSec] (by the name it was assigned under) and the calls made
    to the callback so far. *)
Record pstate : Type := PState {
  p_sections : store;
  p_curSec : option jsstring;
  p_calls : list line_info
}.

(** The test of a regular line: [res = KEY.exec(line)], then
    [res && res[1] !== '' && line[0] !== '=']; the captures when it holds. *)
Definition key_value (line : jsstring) : option (jsstring * jsstring) :=
  match KEY_exec line with
  | Some (key, value) =>
      if negb (jseqb key []) && negb (jseqb (firstn 1 line) (lit "="))
      then Some (key, value) else None
  | None => None
  end.

Section Parse.
(** [String.prototype.toUpperCase] and [toLowerCase] of the host. *)
Variables toUpperCase toLowerCase : jsstring -> jsstring.

(** let transformKey = function(key){...}; [key] is always a capture. *)
Definition transformKey (t : transform) (key : jsstring) : jsstring :=
  match t with
  | TUpper => toUpperCase key
  | TLower => toLowerCase key
  | TNone => key
  end.

(** [curSec[k] = v], where [curSec] is the object that was assigned to
    [this._sections] under the name [sec]. *)
Definition assign_in (s : store) (sec k v : jsstring) : store :=
  match lookup s sec with
  | Some o => assign s sec (put o k v)
  | None => s
  end.

(** The body of the [lines.forEach] callback: the new state, or the
    error thrown. *)
Definition parse_line (file : option file_ref) (onInvalidLine : bool)
           (t : transform) (lineNumber : nat) (line : jsstring)
           (st : pstate) : pstate + error :=
  match line with
  | [] => inl st
  | _ :: _ =>
      if COMMENT_match line then inl st
      else
        match SECTION_exec line with
        | Some header =>
            inl {| p_sections := assign (p_sections st) (transformKey t header) [];
                   p_curSec := Some (transformKey t header);
                   p_calls := p_calls st |}
        | None =>
            match p_curSec st with
            | None => inr (MissingSectionHeaderError file lineNumber line)
            | Some cur =>
                match key_value line with
                | Some (key, value) =>
                    inl {| p_sections :=
                             assign_in (p_sections st) cur (transformKey t key) value;
                           p_curSec := Some cur;
                           p_calls := p_calls st |}
                | None =>
                    if onInvalidLine then
                      inl {| p_sections := p_sections st;
                             p_curSec := Some cur;
                             p_calls := p_calls st ++ [LineInfo file lineNumber line] |}
                    else inr (ParseError (or_empty file) lineNumber line)
                end
            end
        end
  end.

(** [lines.forEach((line, lineNumber) => ...)]; a throw ends the loop. *)
Fixpoint forEach (file : option file_ref) (onInvalidLine : bool) (t : transform)
         (lines : list jsstring) (lineNumber : nat) (st : pstate)
  : pstate * option error :=
  match lines with
  | [] => (st, None)
  | line :: rest =>
      match parse_line file onInvalidLine t lineNumber line st with
      | inl st' => forEach file onInvalidLine t rest (S lineNumber) st'
      | inr e => (st, Some e)
      end
  end.

(** function parseLines(lines), called on [this] = [cp]. *)
Definition parseLines (cp : ConfigParser) (lines : list jsstring)
  : pstate * option error :=
  forEach (_file cp) (_onInvalidLine cp) (_transform cp)
          (List.map strip_leading lines) 0
          {| p_sections := _sections cp; p_curSec := None; p_calls := [] |}.

(** [ConfigParser.prototype.read], given the decoded text of the file:
    the parser afterwards, the callback log and the error thrown. *)
Definition read (cp : ConfigParser) (file : file_ref) (text : jsstring)
  : ConfigParser * list line_info * option error :=
  let cp1 := {| _file := Some file; _transform := _transform cp;
                _onInvalidLine := _onInvalidLine cp; _sections := _sections cp |} in
  let '(st, e) := parseLines cp1 (split_lines text) in
  ({| _file := Some file; _transform := _transform cp;
      _onInvalidLine := _onInvalidLine cp; _sections := p_sections st |},
   p_calls st, e).

End Parse.

(** function getSectionsAsString().  The names [for (section in
    this._sections)] visits: the own ones, then those the prototype gives,
    which the test of line 326 passes over. *)
Definition for_in_names (s : store) : list jsstring :=
  Object_keys (own_properties s)
  ++ match prototype_of s with
     | Some p => List.filter (fun k => negb (has_own (own_properties s) k)) (Object_keys p)
     | None => []
     end.

(** The inner loop, over the keys of one section. *)
Definition entries_text (o : section) (out : jsstring) : result jsstring :=
  fold_left
    (fun acc key =>
       out <- acc ;;
       b <- key_hasOwnProperty o key ;;
       if b then
         match lookup o key with
         | Some value => Return (out ++ (key ++ lit "=" ++ value ++ [10%N]))
         | None => Return out
         end
       else Return out)
    (Object_keys o) (Return out).

Definition getSectionsAsString (cp : ConfigParser) : result jsstring :=
  fold_left
    (fun acc name =>
       out <- acc ;;
       b <- hasOwnProperty (_sections cp) name ;;
       if b then
         match own_section (_sections cp) name with
         | Some keys =>
             out2 <- entries_text keys (out ++ (lit "[" ++ name ++ lit "]" ++ [10%N])) ;;
             Return (out2 ++ [10%N])
         | None => Return out
         end
       else Return out)
    (for_in_names (_sections cp)) (Return []).

(** ** The accessor shell *)

(** ConfigParser.prototype.sections *)
Definition sections (cp : ConfigParser) : list jsstring :=
  Object_keys (own_properties (_sections cp)).

(** ConfigParser.prototype.hasSection *)
Definition hasSection (cp : ConfigParser) (sec : jsstring) : result bool :=
  hasOwnProperty (_sections cp) sec.

Definition with_sections (cp : ConfigParser) (s : store) : ConfigParser :=
  {| _file := _file cp; _transform := _transform cp;
     _onInvalidLine := _onInvalidLine cp; _sections := s |}.

(** ConfigParser.prototype.addSection.  For the name [__proto__] the
    assignment of line 103 sets the prototype. *)
Definition addSection (cp : ConfigParser) (sec : jsstring) : result ConfigParser :=
  b <- hasOwnProperty (_sections cp) sec ;;
  if b then Throw (DuplicateSectionError sec)
  else Return (with_sections cp (assign (_sections cp) sec [])).

(** The names of the characters of a string, [0] to its length less one. *)
Definition decimal (n : nat) : jsstring :=
  lit (NilEmpty.string_of_uint (Nat.to_uint n)).

(** [Object.keys(v)]: a TypeError for [undefined], the indices of a
    string, and nothing for a function or for Object.prototype, whose
    properties are not enumerable. *)
Definition Object_keys_of (v : value) : result (list jsstring) :=
  match v with
  | VUndefined => Throw TypeError
  | VSection o => Return (Object_keys o)
  | VString t => Return (List.map decimal (seq 0 (List.length t)))
  | _ => Return []
  end.

(** ConfigParser.prototype.keys: whatever [Object.keys] throws is replaced
    by NoSectionError. *)
Definition keys (cp : ConfigParser) (sec : jsstring) : result (list jsstring) :=
  match Object_keys_of (get_section (_sections cp) sec) with
  | Return ks => Return ks
  | Throw _ => Throw (NoSectionError sec)
  end.

(** ConfigParser.prototype.hasKey *)
Definition hasKey (cp : ConfigParser) (sec key : jsstring) : result bool :=
  b <- hasOwnProperty (_sections cp) sec ;;
  if b then
    match own_section (_sections cp) sec with
    | Some o => key_hasOwnProperty o key
    | None => Return false
    end
  else Return false.

(** ConfigParser.prototype.set, for a string value: the parser
    afterwards. *)
Definition set (cp : ConfigParser) (sec key val : jsstring) : result ConfigParser :=
  b <- hasOwnProperty (_sections cp) sec ;;
  if b then Return (with_sections cp (assign_in (_sections cp) sec key val))
  else Return cp.

(** ConfigParser.prototype.removeKey: the parser afterwards and the value
    returned. *)
Definition removeKey (cp : ConfigParser) (sec key : jsstring)
  : result (ConfigParser * bool) :=
  b <- hasKey cp sec key ;;
  if b then
    match own_section (_sections cp) sec with
    | Some o => Return (with_sections cp (assign (_sections cp) sec (delete o key)), true)
    | None => Return (cp, false)
    end
  else Return (cp, false).

(** ConfigParser.prototype.removeSection *)
Definition removeSection (cp : ConfigParser) (sec : jsstring)
  : result (ConfigParser * bool) :=
  b <- hasOwnProperty (_sections cp) sec ;;
  if b then Return (with_sections cp (delete (_sections cp) sec), true)
  else Return (cp, false).

(** *** parseInt *)

Definition digit_value (c : code) : option Z :=
  if (N.leb 48 c && N.leb c 57)%N then Some (Z.of_N c - 48)%Z
  else if (N.leb 97 c && N.leb c 122)%N then Some (Z.of_N c - 87)%Z
  else if (N.leb 65 c && N.leb c 90)%N then Some (Z.of_N c - 55)%Z
  else None.

(** The value of the longest prefix of radix-[R] digits; [acc] is [None]
    while no digit has been read. *)
Fixpoint digits (R : Z) (s : jsstring) (acc : option Z) : option Z :=
  match s with
  | c :: s' =>
      match digit_value c with
      | Some d =>
          if (d <? R)%Z
          then digits R s' (Some (match acc with Some a => a * R + d | None => d end)%Z)
          else acc
      | None => acc
      end
  | [] => acc
  end.

Definition ToInt32 (z : Z) : Z := ((z + 2 ^ 31) mod 2 ^ 32 - 2 ^ 31)%Z.

Definition strip_sign (s : jsstring) : jsstring :=
  match s with
  | c :: s' => if code_eqb c (ch "+") || code_eqb c (ch "-") then s' else s
  | [] => []
  end.

Definition strip_hex_prefix (s : jsstring) : option jsstring :=
  match s with
  | z :: x :: s' =>
      if code_eqb z (ch "0") && (code_eqb x (ch "x") || code_eqb x (ch "X"))
      then Some s' else None
  | _ => None
  end.

(** The name under which a method of Object.prototype prints. *)
Definition function_name (k : jsstring) : jsstring :=
  if jseqb k (lit "constructor") then lit "Object" else k.

(** ToString of what a section object gives; a built-in function prints as
    Node prints it. *)
Definition member_text (m : member) : jsstring :=
  match m with
  | MUndefined => lit "undefined"
  | MString s => s
  | MFunction k => lit "function " ++ function_name k ++ lit "() { [native code] }"
  | MObjectPrototype => lit "[object Object]"
  end.

(** The Number for an integer: the integer itself up to 2^53; beyond, a
    Number near it (the nearest one for the radices 2, 4, 8, 10, 16 and
    32, an approximation that the host chooses for the others). *)
Definition Number_of (n : Z) : value :=
  if (Z.abs n <=? 2 ^ 53)%Z then VNumber n else VInexact n.

(** [parseInt(string, radix)] of ECMAScript, for an integer radix. *)
Definition parseInt (string : member) (radix : Z) : value :=
  let inputString := member_text string in
  let S0 := trim_start inputString in
  let negative := match S0 with c :: _ => code_eqb c (ch "-") | [] => false end in
  let S1 := strip_sign S0 in
  let R := ToInt32 radix in
  if negb (R =? 0)%Z && ((R <? 2)%Z || (36 <? R)%Z) then VNaN
  else
    let stripPrefix := (R =? 0)%Z || (R =? 16)%Z in
    let R1 := if (R =? 0)%Z then 10%Z else R in
    let '(R2, S2) :=
      match (if stripPrefix then strip_hex_prefix S1 else None) with
      | Some s' => (16%Z, s')
      | None => (R1, S1)
      end in
    match digits R2 S2 None with
    | Some n =>
        if negative then (if (n =? 0)%Z then VNegativeZero else Number_of (- n))
        else Number_of n
    | None => VNaN
    end.

(** ConfigParser.prototype.getInt; [radix] is [None] when not passed. *)
Definition getInt (cp : ConfigParser) (sec key : jsstring) (radix : option Z)
  : result value :=
  b <- hasOwnProperty (_sections cp) sec ;;
  if b then
    match own_section (_sections cp) sec with
    | Some o =>
        let radix' :=
          match radix with
          | Some r => if (r =? 0)%Z then 10%Z else r
          | None => 10%Z
          end in
        Return (parseInt (get_key o key) radix')
    | None => Return VUndefined
    end
  else Return VUndefined.

(** ** Interpolation

    The module [./interpolation] is not among the sources; what follows is
    written from section 4.2 of the specification. *)

(** Modelled from the spec: a raw value is a sequence of literal code
    units and placeholder tokens (the module [./interpolation] is
    missing). *)
Inductive segment : Type :=
| Lit (c : code)
| Ref (name : jsstring).

(** Modelled from the spec: the text up to the next closing parenthesis,
    and the text after it (the placeholder syntax of the missing module
    [./interpolation]). *)
Fixpoint name_upto_paren (s : jsstring) : option (jsstring * jsstring) :=
  match s with
  | [] => None
  | c :: s' =>
      if code_eqb c (ch ")") then Some ([], s')
      else
        match name_upto_paren s' with
        | Some (n, r) => Some (c :: n, r)
        | None => None
        end
  end.

(** Modelled from the spec: the name and the length of a placeholder
    [%(name)s] at the start of [s]: [%(], one or more code units other than
    [)], then [)s] (the module [./interpolation] is missing). *)
Definition placeholder_at (s : jsstring) : option (jsstring * nat) :=
  match s with
  | p :: o :: s' =>
      if code_eqb p (ch "%") && code_eqb o (ch "(") then
        match name_upto_paren s' with
        | Some (c :: n, e :: _) =>
            if code_eqb e (ch "s") then Some (c :: n, 4 + List.length (c :: n)) else None
        | _ => None
        end
      else None
  | _ => None
  end.

(** Modelled from the spec: the scan of a raw value for placeholder tokens
    (the module [./interpolation] is not among the sources).  [skip] code
    units of a token already recognised are passed over. *)
Fixpoint scan (skip : nat) (s : jsstring) : list segment :=
  match s with
  | [] => []
  | c :: s' =>
      match skip with
      | S n => scan n s'
      | O =>
          match placeholder_at s with
          | Some (name, len) => Ref name :: scan (len - 1) s'
          | None => Lit c :: scan 0 s'
          end
      end
  end.

(** Modelled from the spec: the conventional name of the fallback section
    (the module [./interpolation] is missing). *)
Definition DEFAULT : jsstring := lit "DEFAULT".

(** Modelled from the spec: a key is looked up in the originating section
    first and in the fallback section after (the module [./interpolation]
    is not among the sources). *)
Definition find_value (s : store) (sec key : jsstring) : option jsstring :=
  match lookup s sec with
  | Some o =>
      match lookup o key with
      | Some v => Some v
      | None =>
          match lookup s DEFAULT with
          | Some d => lookup d key
          | None => None
          end
      end
  | None =>
      match lookup s DEFAULT with
      | Some d => lookup d key
      | None => None
      end
  end.

(** Modelled from the spec: membership in the chain of keys being
    expanded (the module [./interpolation] is missing). *)
Fixpoint mem_string (k : jsstring) (ks : list jsstring) : bool :=
  match ks with
  | [] => false
  | k' :: ks' => jseqb k' k || mem_string k ks'
  end.

(** Modelled from the spec: substitution of the resolved text for each
    token, left to right; the first failure fails the whole value (the
    module [./interpolation] is missing). *)
Fixpoint expand (rec : jsstring -> option jsstring) (segs : list segment)
  : option jsstring :=
  match segs with
  | [] => Some []
  | Lit c :: segs' =>
      match expand rec segs' with
      | Some r => Some (c :: r)
      | None => None
      end
  | Ref name :: segs' =>
      match rec name with
      | Some v =>
          match expand rec segs' with
          | Some r => Some (v ++ r)
          | None => None
          end
      | None => None
      end
  end.

(** Modelled from the spec: the resolver of the module [./interpolation],
    which is not among the sources.  [chain] holds the keys being expanded;
    [None] is the interpolation error, raised when a key is on the chain,
    when it exists in neither scope, or when the depth cap is reached. *)
Fixpoint resolve (s : store) (sec : jsstring) (depth : nat)
         (chain : list jsstring) (key : jsstring) : option jsstring :=
  match depth with
  | O => None
  | S d =>
      if mem_string key chain then None
      else
        match find_value s sec key with
        | None => None
        | Some raw => expand (resolve s sec d (key :: chain)) (scan 0 raw)
        end
  end.

(** Modelled from the spec: the keys a reference can resolve to, those of
    the section and those of the fallback section (the module
    [./interpolation] is missing). *)
Definition section_keys (s : store) (sec : jsstring) : list jsstring :=
  match lookup s sec with Some o => ownKeys o | None => [] end.

Definition scope_keys (s : store) (sec : jsstring) : list jsstring :=
  section_keys s sec ++ section_keys s DEFAULT.

(** Modelled from the spec: [interpolation.interpolate(parser, section,
    key)] (the module is not among the sources).  A key found in neither
    scope yields [undefined], as the raw read does; the depth cap exceeds
    the number of keys in scope. *)
Definition interpolate (cp : ConfigParser) (sec key : jsstring) : result value :=
  match find_value (_sections cp) sec key with
  | None => Return VUndefined
  | Some _ =>
      match resolve (_sections cp) sec
                    (S (List.length (scope_keys (_sections cp) sec))) [] key with
      | Some v => Return (VString v)
      | None => Throw InterpolationError
      end
  end.

(** ConfigParser.prototype.get *)
Definition get (cp : ConfigParser) (sec key : jsstring) (raw : bool) : result value :=
  b <- hasOwnProperty (_sections cp) sec ;;
  if b then
    if raw then
      match own_section (_sections cp) sec with
      | Some o => Return (of_member (get_key o key))
      | None => Return VUndefined
      end
    else interpolate cp sec key
  else Return VUndefined.

(** ConfigParser.prototype.items *)
Definition items (cp : ConfigParser) (sec : jsstring) : value :=
  get_section (_sections cp) sec.

(** * Notions for the statements *)

(** ** Line classes of [parseLines] *)

(** [!line || line.match(COMMENT)] *)
Definition is_skipped (line : jsstring) : bool :=
  match line with
  | [] => true
  | _ :: _ => COMMENT_match line
  end.

(** The line reaches [SECTION.exec] and matches. *)
Definition is_header (line : jsstring) : bool :=
  negb (is_skipped line) &&
  match SECTION_exec line with Some _ => true | None => false end.

(** The line reaches the last branch of the loop body: neither skipped,
    nor a header, nor a key and value. *)
Definition is_invalid (line : jsstring) : bool :=
  negb (is_skipped line) &&
  match SECTION_exec line with Some _ => false | None => true end &&
  match key_value line with Some _ => false | None => true end.

(** A line that may follow a header without ending the section or the
    run: not a header, and invalid only under a callback. *)
Definition body_line (cb : bool) (line : jsstring) : bool :=
  negb (is_header line) && (cb || negb (is_invalid line)).

Definition with_call (st : pstate) (c : line_info) : pstate :=
  {| p_sections := p_sections st; p_curSec := p_curSec st;
     p_calls := p_calls st ++ [c] |}.

Definition initial_state (cp : ConfigParser) : pstate :=
  {| p_sections := _sections cp; p_curSec := None; p_calls := [] |}.

(** ** The patterns, read directly

    What each pattern computes, as a function on the text; the properties
    below show that the matcher agrees. *)

Definition starts_comment (line : jsstring) : bool :=
  match line with
  | c :: _ => mem_code c [ch ";"; ch "#"]
  | [] => false
  end.

(** The name when a text, just after an opening bracket, is one or more
    code units other than the closing bracket, and then that bracket. *)
Definition bracket_name (s : jsstring) : option jsstring :=
  match take_while not_close s, drop_while not_close s with
  | c :: n, _ :: _ => Some (c :: n)
  | _, _ => None
  end.

Definition header_at (s : jsstring) : option jsstring :=
  match s with
  | c :: s' => if code_eqb c (ch "[") then bracket_name s' else None
  | [] => None
  end.

(** The first bracketed name of a text, wherever it starts. *)
Fixpoint find_header (s : jsstring) : option jsstring :=
  match header_at s with
  | Some n => Some n
  | None =>
      match s with
      | [] => None
      | _ :: s' => find_header s'
      end
  end.

(** The value when a text is white space, a delimiter, white space and
    then the rest of the line. *)
Definition value_at (s : jsstring) : option jsstring :=
  match trim_start s with
  | d :: r => if is_delimiter d then Some (take_while is_dot (trim_start r)) else None
  | [] => None
  end.

(** The shortest key: the text before the first place where a value
    starts. *)
Fixpoint key_at (s : jsstring) : option (jsstring * jsstring) :=
  match value_at s with
  | Some v => Some ([], v)
  | None =>
      match s with
      | c :: s' =>
          if is_dot c then
            match key_at s' with
            | Some (k, v) => Some (c :: k, v)
            | None => None
            end
          else None
      | [] => None
      end
  end.

(** The pattern KEY after its lazy group. *)
Definition KEY_TAIL : regex :=
  [ Atom CSpace Star false;
    Atom (COneOf [ch "="; ch ":"]) Once false;
    Atom CSpace Star false;
    Atom CDot Star true ].

(** ** Reference chains *)



(** ** The serialized text, line by line *)

Definition line_clean (s : jsstring) : bool :=
  forallb (fun c => negb (is_line_boundary c)) s.

Definition header_line (name : jsstring) : jsstring := ch "[" :: name ++ [ch "]"].

Definition entry_line (kv : jsstring * jsstring) : jsstring :=
  fst kv ++ ch "=" :: snd kv.

Definition section_lines (sk : jsstring * section) : list jsstring :=
  header_line (fst sk) :: List.map entry_line (snd sk) ++ [[]].

Definition store_lines (s : store) : list jsstring :=
  List.concat (List.map section_lines s).

(** Each line followed by a line feed. *)
Definition unlines (ls : list jsstring) : jsstring :=
  List.concat (List.map (fun l => l ++ [10%N]) ls).

(** ** Lexical structure

    The code units the parser tells apart: white space, line boundaries,
    brackets, delimiters and comment marks.  The skeleton of a text keeps
    these and one mark for each run of other code units. *)

Definition special (c : code) : bool :=
  is_space c || is_line_boundary c
  || mem_code c [ch "["; ch "]"; ch "="; ch ":"; ch ";"; ch "#"].

Fixpoint skeleton (s : jsstring) : list (option code) :=
  match s with
  | [] => []
  | c :: s' =>
      if special c then Some c :: skeleton s'
      else
        match s' with
        | d :: _ => if special d then None :: skeleton s' else skeleton s'
        | [] => [None]
        end
  end.

(** A fold over a skeleton: a mark stands for any other code unit. *)
Definition fold_skel {A : Type} (F : A -> code -> A) (sk : list (option code)) (a : A) : A :=
  fold_left (fun a cl => match cl with Some c => F a c | None => F a (ch "x") end) sk a.

(** A case mapping is lexically inert when applying it twice is applying
    it once and it changes a text within its runs of other code units
    only, as the case mappings of ECMAScript do. *)
Definition lexically_inert (T : jsstring -> jsstring) : Prop :=
  (forall s, T (T s) = T s) /\ (forall s, skeleton (T s) = skeleton s).

(** The scan for a bracketed name as an automaton: outside, just after an
    opening bracket, after an opening bracket and some text, found. *)
Inductive tstate : Type := Idle | Open0 | OpenN | Found.

Definition tok_step (q : tstate) (c : code) : tstate :=
  match q with
  | Found => Found
  | Idle => if code_eqb c (ch "[") then Open0 else Idle
  | Open0 => if code_eqb c (ch "]") then Idle else OpenN
  | OpenN => if code_eqb c (ch "]") then Found else OpenN
  end.

Definition tok_run (q : tstate) (s : jsstring) : tstate := fold_left tok_step s q.

Definition last_space (s : jsstring) : bool :=
  fold_left (fun _ c => is_space c) s false.

Definition first_ok (k : jsstring) : bool :=
  match k with
  | c :: _ => negb (is_space c) && negb (mem_code c [ch ";"; ch "#"])
  | [] => false
  end.

(** What a stored key looks like: it starts with neither white space nor
    a comment mark, holds no delimiter and no line boundary, and does not
    end in white space. *)
Definition key_ok (k : jsstring) : bool :=
  first_ok k && no_delimiter k && negb (last_space k) && line_clean k.

Definition value_ok (v : jsstring) : bool :=
  match v with c :: _ => negb (is_space c) | [] => true end && line_clean v.

(** ** Well-formed stores

    What the parser stores, for a case mapping [T]: names that a header
    line gives back, keys and values that a key line gives back. *)

Definition name_ok (T : jsstring -> jsstring) (n : jsstring) : Prop :=
  n <> [] /\ forallb not_close n = true /\ line_clean n = true /\ T n = n.

Definition entry_ok (T : jsstring -> jsstring) (kv : jsstring * jsstring) : Prop :=
  key_ok (fst kv) = true /\ value_ok (snd kv) = true /\
  tok_run (tok_run Idle (fst kv)) (ch "=" :: snd kv) <> Found /\
  T (fst kv) = fst kv.

Definition section_ok (T : jsstring -> jsstring) (sec : section) : Prop :=
  NoDup (ownKeys sec) /\ Forall (entry_ok T) sec /\ lookup sec proto_name = None.

Definition store_ok (T : jsstring -> jsstring) (s : store) : Prop :=
  NoDup (ownKeys s) /\
  Forall (fun sk => name_ok T (fst sk) /\ section_ok T (snd sk)) s.

(** ** What a parse stores *)

Section Notions.
Variables toUpperCase toLowerCase : jsstring -> jsstring.

(** Every section name of [s] is the transform of the name of a header
    line among [L]; every key of every section is the transform of the
    key of a key and value line among [L], with that line's value. *)
Definition origin (t : transform) (L : list jsstring) (s : store) : Prop :=
  forall name sec,
    lookup s name = Some sec ->
    (exists line h,
        In line L /\ is_header line = true /\ SECTION_exec line = Some h /\
        name = transformKey toUpperCase toLowerCase t h) /\
    (forall k v,
        lookup sec k = Some v ->
        exists line key,
          In line L /\ is_skipped line = false /\ SECTION_exec line = None /\
          key_value line = Some (key, v) /\
          k = transformKey toUpperCase toLowerCase t key).

(** The configured case mapping is lexically inert. *)
Definition transform_stable (t : transform) : Prop :=
  match t with
  | TNone => True
  | TLower => lexically_inert toLowerCase
  | TUpper => lexically_inert toUpperCase
  end.
End Notions.

(** ** Notions for the accessors and the loop *)

(** The method [hasOwnProperty] that [this._sections] finds is the one of
    Object.prototype: no section, and no key of a prototype section, is
    named [hasOwnProperty]. *)
Definition callable (s : store) : bool :=
  match get_section s hasOwnProperty_name with
  | VFunction _ => true
  | _ => false
  end.

(** Each section name and, in each section, each key occurs once, as the
    property names of an object do. *)
Definition unique_keys (cp : ConfigParser) : Prop :=
  NoDup (ownKeys (_sections cp)) /\
  forall sec o, lookup (_sections cp) sec = Some o -> NoDup (ownKeys o).

(** No call of [hasOwnProperty] meets a property of that name in place of
    the method: [this._sections] finds the method, and no section has a
    key named [hasOwnProperty]. *)
Definition unshadowed (s : store) : Prop :=
  callable s = true /\
  forall name o, lookup s name = Some o -> has_own o hasOwnProperty_name = false.

(** The sections, and in each section the keys, in the order in which the
    language lists them. *)
Definition canonical (s : store) : store :=
  List.map (fun e : jsstring * section => (fst e, enumerate (snd e)))
           (enumerate (own_properties s)).

(** No section name and no key is an array index. *)
Definition no_index_names (s : store) : Prop :=
  Forall (fun e : jsstring * section =>
            array_index (fst e) = None /\
            Forall (fun kv : jsstring * jsstring => array_index (fst kv) = None) (snd e)) s.

(** The sequences LINE_BOUNDARY matches. *)
Definition separators : list jsstring :=
  [[13; 10]; [10]; [13]; [133]; [8232]; [8233]]%N.

(** The lines with [sep] between them. *)
Fixpoint join_lines (sep : jsstring) (ls : list jsstring) : jsstring :=
  match ls with
  | [] => []
  | l :: ls' =>
      match ls' with
      | [] => l
      | _ :: _ => l ++ sep ++ join_lines sep ls'
      end
  end.

(** The lines that are neither blank nor comments. *)
Definition kept_lines (ls : list jsstring) : list jsstring :=
  List.filter (fun l => negb (is_skipped (strip_leading l))) ls.

(** The names in order of first occurrence. *)
Definition add_name (ks : list jsstring) (k : jsstring) : list jsstring :=
  if mem_string k ks then ks else ks ++ [k].

(** A text of code units the parser does not tell apart. *)
Definition plain_text (s : jsstring) : bool :=
  forallb (fun c => negb (special c)) s.

Definition no_open (s : jsstring) : bool :=
  forallb (fun c => negb (code_eqb c (ch "["))) s.

(** The store with every value less its leading white space. *)
Definition trim_values (s : store) : store :=
  List.map (fun sk : jsstring * section =>
              (fst sk, List.map (fun kv : jsstring * jsstring =>
                                   (fst kv, trim_start (snd kv))) (snd sk))) s.

(** The transformed names of the header lines, in order. *)
Definition header_names (T : jsstring -> jsstring) (ls : list jsstring) : list jsstring :=
  List.flat_map
    (fun l => if is_skipped l then []
              else match SECTION_exec l with Some h => [T h] | None => [] end) ls.

(** Two errors that differ in the line number at most. *)
Definition same_error (e e' : option error) : Prop :=
  match e, e' with
  | None, None => True
  | Some (MissingSectionHeaderError f _ l), Some (MissingSectionHeaderError f' _ l') =>
      f = f' /\ l = l'
  | Some (ParseError f _ l), Some (ParseError f' _ l') => f = f' /\ l = l'
  | _, _ => False
  end.

(** ** Example inputs

    The case mappings restricted to the ASCII letters, and a few parsers,
    for running the definitions on concrete texts. *)

Definition upper_code (c : code) : code :=
  if (N.leb 97 c && N.leb c 122)%N then (c - 32)%N else c.

Definition lower_code (c : code) : code :=
  if (N.leb 65 c && N.leb c 90)%N then (c + 32)%N else c.

Definition ascii_upper (s : jsstring) : jsstring := List.map upper_code s.
Definition ascii_lower (s : jsstring) : jsstring := List.map lower_code s.

Definition nl : jsstring := [10%N].

Definition plain_parser : ConfigParser := new_ConfigParser (Options None false).
Definition upper_parser : ConfigParser := new_ConfigParser (Options (Some TUpper) false).

Definition read_ascii (cp : ConfigParser) (text : jsstring) : ConfigParser :=
  fst (fst (read ascii_upper ascii_lower cp (Path (lit "conf.ini")) text)).

(** Parsers with a file set, without and with a callback, and the state
    after the header of [s]. *)
Definition strict_parser : ConfigParser :=
  {| _file := Some (Path (lit "conf.ini")); _transform := TNone; _onInvalidLine := false;
     _sections := [] |}.

Definition lenient_parser : ConfigParser :=
  {| _file := Some (Path (lit "conf.ini")); _transform := TNone; _onInvalidLine := true;
     _sections := [] |}.

Definition in_section : pstate :=
  {| p_sections := [(lit "s", [])]; p_curSec := Some (lit "s"); p_calls := [] |}.

(** [s] with the line [k= v]. *)
Definition spaced_value : ConfigParser :=
  read_ascii plain_parser (lit "[s]" ++ nl ++ lit "k= v").

(** A header followed by text on the same line. *)
Definition trailing_header : ConfigParser :=
  read_ascii plain_parser (lit "[s]" ++ nl ++ lit "[t] trailing text").

(** A value that holds a bracketed name. *)
Definition bracket_value : ConfigParser :=
  read_ascii plain_parser (lit "[s]" ++ nl ++ lit "k=[name]").

(** Two keys that refer to each other, and one that refers to no key. *)
Definition cyclic : ConfigParser :=
  read_ascii plain_parser
    (lit "[s]" ++ nl ++ lit "a=%(b)s" ++ nl ++ lit "b=x%(a)s" ++ nl ++ lit "c=%(zz)s").

Definition mixed_text : jsstring :=
  lit "[Db]" ++ nl ++ lit "Host = Local Host " ++ nl ++ lit "; note" ++ nl ++
  lit "port: 80" ++ nl ++ nl ++ lit "[Empty]" ++ nl.

Definition mixed : ConfigParser := read_ascii upper_parser mixed_text.

(** ** Stores that can be written out

    What [getSectionsAsString] can write so that a read finds it again:
    names that a header line gives back, keys of plain code units, values
    on one line and without an opening bracket; names and keys that are
    ordinary property names. *)

(** A name that is an ordinary property name: not [__proto__], not the
    name of the method [hasOwnProperty], not an array index. *)
Definition name_plain (n : jsstring) : Prop :=
  n <> proto_name /\ n <> hasOwnProperty_name /\ array_index n = None.

Definition entry_writable (T : jsstring -> jsstring) (kv : jsstring * jsstring) : Prop :=
  fst kv <> [] /\ plain_text (fst kv) = true /\
  line_clean (snd kv) = true /\ no_open (snd kv) = true /\
  T (fst kv) = fst kv /\ name_plain (fst kv).

Definition store_writable (T : jsstring -> jsstring) (s : store) : Prop :=
  NoDup (ownKeys s) /\
  Forall (fun sk : jsstring * section =>
            name_ok T (fst sk) /\ name_plain (fst sk) /\ NoDup (ownKeys (snd sk)) /\
            Forall (entry_writable T) (snd sk)) s.

Definition trim_entry (kv : jsstring * jsstring) : jsstring * jsstring :=
  (fst kv, trim_start (snd kv)).


(** ** Reading a text again

    The store [B] of a second run over a text, against the store [A] of
    the first run at the same line and the store [F] the first run ends
    with: [B] has the names of [F] in the order of [F]; the names of [A]
    come first; each section of [B] is as in [A] or as in [F]. *)

Inductive view (V : Type) : dict V -> dict V -> dict V -> Prop :=
| view_nil : view V [] [] []
| view_tail (k : jsstring) (v : V) (B F : dict V) :
    view V [] B F -> view V [] ((k, v) :: B) ((k, v) :: F)
| view_same (k : jsstring) (v vf : V) (A B F : dict V) :
    view V A B F -> view V ((k, v) :: A) ((k, v) :: B) ((k, vf) :: F)
| view_final (k : jsstring) (va vf : V) (A B F : dict V) :
    view V A B F -> view V ((k, va) :: A) ((k, vf) :: B) ((k, vf) :: F).

Arguments view {V}.
Arguments view_nil {V}.
Arguments view_tail {V}.
Arguments view_same {V}.
Arguments view_final {V}.

(** The states of the two runs: the same current section and calls, the
    stores as above, the current section as in [A]. *)
Definition same_view (A B : pstate) (F : store) : Prop :=
  p_curSec A = p_curSec B /\ p_calls A = p_calls B /\
  view (p_sections A) (p_sections B) F /\
  (forall cur, p_curSec A = Some cur ->
               lookup (p_sections B) cur = lookup (p_sections A) cur).


(** ** More example inputs *)

(** A parser as the API builds it: two sections, one value with a
    leading space. *)
Definition api_built : ConfigParser :=
  {| _file := None; _transform := TNone; _onInvalidLine := false;
     _sections := [(lit "a", [(lit "x", lit "1"); (lit "y", lit " 2")]);
                   (lit "b", [(lit "z", lit "3")])] |}.

(** A value written in hexadecimal. *)
Definition hex_value : ConfigParser :=
  read_ascii plain_parser (lit "[s]" ++ nl ++ lit "n=0x1F").

(** Lines of which the third is no key and value. *)
Definition broken_lines : list jsstring :=
  [lit "[s]"; lit "k=v"; lit "oops"; lit "z=1"].

(** A document with a section named as the method that the accessors
    call on [this._sections]. *)
Definition shadowing_text : jsstring :=
  lit "[hasOwnProperty]" ++ nl ++ lit "k=v" ++ nl ++ lit "[s]" ++ nl ++ lit "n=1".

Definition shadowing : ConfigParser := read_ascii plain_parser shadowing_text.

(** A document whose first line is a header followed by other text. *)
Definition trailing_first_text : jsstring :=
  lit "[t] trailing text" ++ nl ++ lit "k=v".

(** A document with a line that is no key and value, as read from the
    descriptor 0. *)
Definition invalid_text : jsstring := lit "[s]" ++ nl ++ lit "oops".

(** A text with one section, named as no section of [api_built]. *)
Definition other_text : jsstring := lit "[c]" ++ nl ++ lit "k=v".

(** Lines with a recurring header. *)
Definition recurring_lines : list jsstring :=
  [lit "[a]"; lit "x=1"; lit "[b]"; lit "y=2"].

(** The names are pairwise different. *)
Fixpoint distinct (ks : list jsstring) : bool :=
  match ks with
  | [] => true
  | k :: r => negb (mem_string k r) && distinct r
  end.


(** * Properties *)

(** Two names written out differ. *)
Ltac differ :=
  let E := fresh "E" in intro E; vm_compute in E; discriminate E.

Ltac case_if :=
  match goal with
  | |- context [if ?b then _ else _] =>
      match type of b with bool => destruct b eqn:? end
  end.

(** ** Strings and dictionaries *)

Lemma code_eqb_eq (a b : code) : code_eqb a b = true <-> a = b.
Proof. unfold code_eqb. apply N.eqb_eq. Qed.

Lemma jseqb_eq (a b : jsstring) : jseqb a b = true <-> a = b.
Proof.
  revert b. induction a as [|x a IH]; intros [|y b]; simpl; split; intro H;
    try reflexivity; try discriminate.
  - apply andb_true_iff in H. destruct H as [H1 H2].
    apply code_eqb_eq in H1. apply IH in H2. subst. reflexivity.
  - injection H as -> ->. apply andb_true_iff. split.
    + apply code_eqb_eq. reflexivity.
    + apply IH. reflexivity.
Qed.

Lemma jseqb_refl (a : jsstring) : jseqb a a = true.
Proof. apply jseqb_eq. reflexivity. Qed.

Lemma jseqb_neq (a b : jsstring) : jseqb a b = false <-> a <> b.
Proof.
  split.
  - intros H E. apply jseqb_eq in E. congruence.
  - intro H. destruct (jseqb a b) eqn:E; [|reflexivity].
    apply jseqb_eq in E. contradiction.
Qed.

Lemma mem_code_In (c : code) (cs : list code) : mem_code c cs = true <-> In c cs.
Proof.
  induction cs as [|d cs IH]; simpl; [split; [discriminate|tauto]|].
  rewrite orb_true_iff, code_eqb_eq, IH. split; intros [H|H]; auto.
Qed.

(** ** Dictionaries *)

Section DictFacts.
Variable V : Type.
Implicit Types (o : dict V) (k x : jsstring) (v : V).

Lemma lookup_assign o k v x :
  lookup (assign o k v) x = if jseqb k x then Some v else lookup o x.
Proof.
  induction o as [|[k' v'] o IH]; cbn [assign lookup].
  - reflexivity.
  - destruct (jseqb k' k) eqn:E; cbn [lookup].
    + apply jseqb_eq in E. subst k'. destruct (jseqb k x); reflexivity.
    + destruct (jseqb k' x) eqn:E'.
      * apply jseqb_eq in E'. subst k'.
        destruct (jseqb k x) eqn:E''; [|reflexivity].
        apply jseqb_eq in E''. subst k. rewrite jseqb_refl in E. discriminate.
      * assumption.
Qed.

Lemma lookup_assign_same o k v : lookup (assign o k v) k = Some v.
Proof. rewrite lookup_assign, jseqb_refl. reflexivity. Qed.

Lemma lookup_assign_other o k v x : k <> x -> lookup (assign o k v) x = lookup o x.
Proof.
  intro H. rewrite lookup_assign. apply jseqb_neq in H. rewrite H. reflexivity.
Qed.

Lemma lookup_In o k v : lookup o k = Some v -> In (k, v) o.
Proof.
  induction o as [|[k' v'] o IH]; cbn [lookup]; [discriminate|].
  destruct (jseqb k' k) eqn:E.
  - apply jseqb_eq in E. subst k'. intro H. injection H as ->. left. reflexivity.
  - intro H. right. auto.
Qed.

Lemma lookup_None o k : lookup o k = None <-> ~ In k (ownKeys o).
Proof.
  induction o as [|[k' v'] o IH]; cbn [lookup ownKeys List.map fst In].
  - tauto.
  - destruct (jseqb k' k) eqn:E.
    + apply jseqb_eq in E. subst k'. split; [discriminate|]. intro H. exfalso. auto.
    + apply jseqb_neq in E. unfold ownKeys in IH. rewrite IH. tauto.
Qed.

(** Assigning a new property appends it. *)
Lemma assign_new o k v : lookup o k = None -> assign o k v = o ++ [(k, v)].
Proof.
  induction o as [|[k' v'] o IH]; cbn [lookup assign app]; [reflexivity|].
  destruct (jseqb k' k); [discriminate|]. intro H. rewrite IH by assumption.
  reflexivity.
Qed.

(** Assigning to the last property replaces its value. *)
Lemma assign_last o k v v' :
  lookup o k = None -> assign (o ++ [(k, v)]) k v' = o ++ [(k, v')].
Proof.
  induction o as [|[k1 v1] o IH]; cbn [lookup assign app].
  - rewrite jseqb_refl. reflexivity.
  - destruct (jseqb k1 k); [discriminate|]. intro H. rewrite IH by assumption.
    reflexivity.
Qed.

Lemma lookup_last o k v : lookup o k = None -> lookup (o ++ [(k, v)]) k = Some v.
Proof.
  induction o as [|[k1 v1] o IH]; cbn [lookup app].
  - rewrite jseqb_refl. reflexivity.
  - destruct (jseqb k1 k); [discriminate|]. assumption.
Qed.
End DictFacts.

Arguments lookup_assign {V} o k v x.
Arguments lookup_assign_same {V} o k v.
Arguments lookup_assign_other {V} o k v x _.
Arguments lookup_In {V} o k v _.
Arguments lookup_None {V} o k.
Arguments assign_new {V} o k v _.
Arguments assign_last {V} o k v v' _.
Arguments lookup_last {V} o k v _.

(** ** Assignment to a key of a section *)

Lemma put_assign (o : section) (k v : jsstring) :
  k <> proto_name -> put o k v = assign o k v.
Proof.
  intro H. unfold put. apply jseqb_neq in H. rewrite H. reflexivity.
Qed.

Lemma put_cases (o : section) (k v : jsstring) :
  put o k v = o \/ put o k v = assign o k v.
Proof. unfold put. destruct (jseqb k proto_name && negb (has_own o k)); auto. Qed.

Lemma lookup_put_cases (o : section) (k v x w : jsstring) :
  lookup (put o k v) x = Some w -> (k = x /\ w = v) \/ lookup o x = Some w.
Proof.
  destruct (put_cases o k v) as [->| ->]; [auto|].
  rewrite lookup_assign. destruct (jseqb k x) eqn:E; [|auto].
  apply jseqb_eq in E. intro H. injection H as <-. auto.
Qed.

Lemma lookup_put_other (o : section) (k v x : jsstring) :
  k <> x -> lookup (put o k v) x = lookup o x.
Proof.
  intro H. destruct (put_cases o k v) as [->| ->]; [reflexivity|].
  apply lookup_assign_other. assumption.
Qed.

(** ** The accessor shell *)

Lemma proto_not_hasOwnProperty : jseqb hasOwnProperty_name proto_name = false.
Proof. reflexivity. Qed.

Lemma get_section_lookup (s : store) (name : jsstring) (o : section) :
  lookup s name = Some o -> get_section s name = VSection o.
Proof.
  intro H. unfold get_section, prototype_of.
  destruct (jseqb name proto_name) eqn:E.
  - apply jseqb_eq in E. subst name. rewrite H. reflexivity.
  - rewrite H. reflexivity.
Qed.

Lemma hasOwnProperty_callable (s : store) (name : jsstring) :
  hasOwnProperty s name =
  if callable s
  then Return (match own_section s name with Some _ => true | None => false end)
  else Throw TypeError.
Proof.
  unfold hasOwnProperty, callable.
  destruct (get_section s hasOwnProperty_name); reflexivity.
Qed.

Lemma hasOwnProperty_returns (s : store) (name : jsstring) (b : bool) :
  hasOwnProperty s name = Return b ->
  callable s = true /\
  b = match own_section s name with Some _ => true | None => false end.
Proof.
  rewrite hasOwnProperty_callable. destruct (callable s); [|discriminate].
  intro H. injection H as <-. split; reflexivity.
Qed.

Lemma own_section_lookup (s : store) (name : jsstring) (o : section) :
  own_section s name = Some o <-> name <> proto_name /\ lookup s name = Some o.
Proof.
  unfold own_section. destruct (jseqb name proto_name) eqn:E.
  - apply jseqb_eq in E. split; [discriminate|]. intros [H _]. contradiction.
  - apply jseqb_neq in E. tauto.
Qed.

Lemma hasOwnProperty_true (s : store) (name : jsstring) :
  hasOwnProperty s name = Return true ->
  callable s = true /\ name <> proto_name /\
  exists o, own_section s name = Some o /\ lookup s name = Some o.
Proof.
  intro H. apply hasOwnProperty_returns in H. destruct H as [Hc H].
  split; [assumption|].
  destruct (own_section s name) as [o|] eqn:E; [|discriminate].
  pose proof (proj1 (own_section_lookup s name o) E) as [Hn Hl].
  split; [assumption|]. exists o. split; [reflexivity|assumption].
Qed.

Lemma hasOwnProperty_false (s : store) (name : jsstring) :
  hasOwnProperty s name = Return false ->
  callable s = true /\ own_section s name = None.
Proof.
  intro H. apply hasOwnProperty_returns in H. destruct H as [Hc H].
  split; [assumption|]. destruct (own_section s name); [discriminate|reflexivity].
Qed.

Lemma key_hasOwnProperty_callable (o : section) (key : jsstring) :
  key_hasOwnProperty o key =
  if has_own o hasOwnProperty_name then Throw TypeError else Return (has_own o key).
Proof.
  unfold key_hasOwnProperty, get_key, has_own.
  destruct (lookup o hasOwnProperty_name); reflexivity.
Qed.

(** What [parseInt] makes of a member that a section inherits. *)
Lemma parseInt_inherited (k : jsstring) :
  parseInt (Object_prototype_get k) 10 = VNaN.
Proof.
  unfold Object_prototype_get. destruct (jseqb k proto_name); [reflexivity|].
  destruct (existsb (jseqb k) Object_prototype_methods); reflexivity.
Qed.

(** X21: when the section exists and the key is absent, [getInt] without
    a radix returns NaN, also for a key that names a member of
    Object.prototype; when the section does not exist, [getInt] returns
    [undefined] whatever the radix.  Both suppose that the test of the
    section returns, which it does unless [hasOwnProperty] is shadowed. *)
Theorem getInt_absent (cp : ConfigParser) (sec key : jsstring) :
  (hasSection cp sec = Return true -> hasKey cp sec key = Return false ->
   getInt cp sec key None = Return VNaN) /\
  (hasSection cp sec = Return false ->
   forall radix, getInt cp sec key radix = Return VUndefined).
Proof.
  unfold hasSection, hasKey, getInt. split.
  - intros Hs. rewrite Hs. cbn [bind].
    destruct (hasOwnProperty_true _ _ Hs) as (_ & _ & o & -> & _).
    rewrite key_hasOwnProperty_callable.
    destruct (has_own o hasOwnProperty_name); [discriminate|].
    intro Hk. injection Hk as Hk. unfold get_key, has_own in *.
    destruct (lookup o key); [discriminate|].
    rewrite parseInt_inherited. reflexivity.
  - intros Hs radix. rewrite Hs. reflexivity.
Qed.

(** X22: for a section that is not there, and with [hasOwnProperty]
    callable, the accessors do nothing and throw nothing: [get] and
    [getInt] return [undefined], [hasKey], [removeKey] and [removeSection]
    return false, and [set], [removeKey] and [removeSection] leave the
    parser as it was. *)
Theorem absent_section_accessors (cp : ConfigParser) (sec key val : jsstring) :
  hasSection cp sec = Return false ->
  (forall raw, get cp sec key raw = Return VUndefined) /\
  (forall radix, getInt cp sec key radix = Return VUndefined) /\
  hasKey cp sec key = Return false /\
  set cp sec key val = Return cp /\
  removeKey cp sec key = Return (cp, false) /\
  removeSection cp sec = Return (cp, false).
Proof.
  unfold hasSection, get, getInt, hasKey, set, removeKey, removeSection, hasKey.
  intros ->. cbn [bind]. repeat split; reflexivity.
Qed.

(** ** The matcher *)

Section MatcherFacts.
Variable R : Type.
Implicit Types (p : code -> bool) (k : jsstring -> jsstring -> option R).

Lemma star_greedy_skip p k s :
  (forall t c r, p c = true -> k t (c :: r) = None) ->
  star_greedy p k s = k (take_while p s) (drop_while p s).
Proof.
  revert k. induction s as [|c s IH]; intros k Hk; simpl; [reflexivity|].
  destruct (p c) eqn:Hc; [|reflexivity].
  rewrite IH by (intros; apply Hk; assumption).
  destruct (k (c :: take_while p s) (drop_while p s)); [reflexivity|].
  apply Hk. assumption.
Qed.

Lemma star_greedy_first p k s x :
  k (take_while p s) (drop_while p s) = Some x ->
  star_greedy p k s = Some x.
Proof.
  revert k. induction s as [|c s IH]; intros k Hk; simpl in *; [assumption|].
  destruct (p c); [|assumption].
  rewrite (IH (fun t r => k (c :: t) r)) by assumption. reflexivity.
Qed.

Lemma star_greedy_none (P : jsstring -> Prop) p k s :
  (forall c r, P (c :: r) -> P r) ->
  (forall t r, P r -> k t r = None) ->
  P s -> star_greedy p k s = None.
Proof.
  intros Htl. revert k. induction s as [|c s IH]; intros k Hk Hs; simpl.
  - apply Hk. assumption.
  - destruct (p c); [|apply Hk; assumption].
    rewrite IH; [apply Hk; assumption| |eapply Htl; eassumption].
    intros; apply Hk; assumption.
Qed.
End MatcherFacts.

Arguments star_greedy_skip {R} p k s _.
Arguments star_greedy_first {R} p k s x _.
Arguments star_greedy_none {R} P p k s _ _ _.

Lemma drop_while_fixed (p : code -> bool) (s : jsstring) :
  match s with c :: _ => p c = false | [] => True end -> drop_while p s = s.
Proof. destruct s as [|c s]; simpl; [reflexivity|]. intros ->. reflexivity. Qed.

Lemma take_drop_while (p : code -> bool) (s : jsstring) :
  take_while p s ++ drop_while p s = s.
Proof.
  induction s as [|c s IH]; simpl; [reflexivity|].
  destruct (p c); simpl; [rewrite IH|]; reflexivity.
Qed.

Lemma take_while_all (p : code -> bool) (s : jsstring) :
  forallb p (take_while p s) = true.
Proof.
  induction s as [|c s IH]; simpl; [reflexivity|].
  destruct (p c) eqn:E; simpl; [rewrite E; assumption|reflexivity].
Qed.

Lemma drop_while_head (p : code -> bool) (s : jsstring) :
  match drop_while p s with c :: _ => p c = false | [] => True end.
Proof.
  induction s as [|c s IH]; simpl; [exact I|].
  destruct (p c) eqn:E; [assumption|simpl; assumption].
Qed.

Lemma drop_while_idem (p : code -> bool) (s : jsstring) :
  drop_while p (drop_while p s) = drop_while p s.
Proof. apply drop_while_fixed. apply drop_while_head. Qed.

(** *** Leading white space and comments *)

Lemma strip_leading_trim (v : jsstring) : strip_leading v = trim_start v.
Proof.
  unfold strip_leading, trim_start. simpl. unfold run_atom, once. simpl.
  destruct v as [|c v]; simpl; [reflexivity|].
  destruct (is_space c) eqn:Hc; [|reflexivity].
  rewrite star_greedy_first with (x := ([], drop_while is_space v)); reflexivity.
Qed.

Lemma COMMENT_match_trim (line : jsstring) :
  COMMENT_match line = starts_comment (trim_start line).
Proof.
  unfold COMMENT_match, exec_anchored, trim_start. simpl. unfold run_atom. simpl.
  rewrite star_greedy_skip.
  - unfold once, starts_comment. change (cmatch CSpace) with is_space.
    destruct (drop_while is_space line) as [|c r]; [reflexivity|].
    simpl. case_if; reflexivity.
  - intros t c r Hc. unfold once.
    destruct (cmatch (COneOf [ch ";"; ch "#"]) c) eqn:E; [|reflexivity].
    exfalso. apply mem_code_In in E.
    destruct E as [<-|[<-|[]]]; vm_compute in Hc; discriminate.
Qed.

(** *** Section headers *)

Lemma run_SECTION (s : jsstring) :
  match run SECTION s with Some (caps, _) => Some caps | None => None end =
  match header_at (trim_start s) with Some n => Some [n] | None => None end.
Proof.
  unfold trim_start, SECTION.
  cbn [run run_atom a_class a_quant a_group].
  change (cmatch CSpace) with is_space.
  change (cmatch (CNoneOf [ch "]"])) with not_close.
  rewrite star_greedy_skip.
  - destruct (drop_while is_space s) as [|c r]; [reflexivity|].
    unfold header_at. cbn [once cmatch mem_code]. rewrite orb_false_r.
    destruct (code_eqb c (ch "[")); [|reflexivity].
    destruct r as [|d r]; [reflexivity|].
    unfold bracket_name. cbn [take_while drop_while once].
    destruct (not_close d) eqn:Hd; [|reflexivity].
    rewrite star_greedy_skip.
    + pose proof (drop_while_head not_close r) as Hh.
      destruct (drop_while not_close r) as [|e r']; [reflexivity|].
      cbn [app once]. unfold not_close in Hh. apply negb_false_iff in Hh.
      change (cmatch (COneOf [ch "]"]) e) with (mem_code e [ch "]"]).
      rewrite Hh. reflexivity.
    + intros t e r' He. unfold not_close in He. apply negb_true_iff in He.
      cbn [once]. change (cmatch (COneOf [ch "]"]) e) with (mem_code e [ch "]"]).
      rewrite He. reflexivity.
  - intros t c r Hc. cbn [once cmatch mem_code]. rewrite orb_false_r.
    destruct (code_eqb c (ch "[")) eqn:E; [|reflexivity].
    apply code_eqb_eq in E. subst c. vm_compute in Hc. discriminate.
Qed.

Lemma header_at_space (c : code) (s : jsstring) :
  is_space c = true -> header_at (c :: s) = None.
Proof.
  intro Hc. simpl. destruct (code_eqb c (ch "[")) eqn:E; [|reflexivity].
  apply code_eqb_eq in E. subst c. vm_compute in Hc. discriminate.
Qed.

Lemma find_header_trim (s : jsstring) : find_header (trim_start s) = find_header s.
Proof.
  unfold trim_start. induction s as [|c s IH]; [reflexivity|].
  cbn [drop_while]. destruct (is_space c) eqn:Hc; [|reflexivity].
  rewrite IH. cbn [find_header]. rewrite header_at_space by assumption. reflexivity.
Qed.

Lemma exec_SECTION (s : jsstring) :
  exec SECTION s = match find_header s with Some n => Some [n] | None => None end.
Proof.
  induction s as [|c s IH].
  - reflexivity.
  - cbn [exec].
    pose proof (run_SECTION (c :: s)) as Hr.
    destruct (run SECTION (c :: s)) as [[caps rest]|].
    + destruct (header_at (trim_start (c :: s))) as [n|] eqn:Hh; [|discriminate].
      injection Hr as ->. rewrite <- find_header_trim.
      destruct (trim_start (c :: s)) as [|d r]; [discriminate|].
      cbn [find_header]. rewrite Hh. reflexivity.
    + rewrite IH. cbn [find_header].
      destruct (header_at (c :: s)) as [n|] eqn:Hh; [|reflexivity].
      exfalso. destruct (is_space c) eqn:Hc.
      * rewrite header_at_space in Hh by assumption. discriminate.
      * unfold trim_start in Hr. cbn [drop_while] in Hr. rewrite Hc in Hr.
        rewrite Hh in Hr. discriminate.
Qed.

Lemma SECTION_exec_find (s : jsstring) : SECTION_exec s = find_header s.
Proof.
  unfold SECTION_exec. rewrite exec_SECTION. destruct (find_header s); reflexivity.
Qed.

(** *** Key and value *)

Lemma space_not_delimiter (c : code) : is_space c = true -> is_delimiter c = false.
Proof.
  intro Hc. destruct (is_delimiter c) eqn:E; [|reflexivity].
  apply mem_code_In in E. destruct E as [<-|[<-|[]]]; vm_compute in Hc; discriminate.
Qed.

Lemma run_KEY_TAIL (s : jsstring) :
  match run KEY_TAIL s with Some (caps, _) => Some caps | None => None end =
  match value_at s with Some v => Some [v] | None => None end.
Proof.
  unfold value_at, trim_start, KEY_TAIL.
  cbn [run run_atom a_class a_quant a_group].
  change (cmatch CSpace) with is_space.
  change (cmatch CDot) with is_dot.
  change (cmatch (COneOf [ch "="; ch ":"])) with is_delimiter.
  rewrite star_greedy_skip.
  - destruct (drop_while is_space s) as [|d r]; [reflexivity|].
    cbn [once]. destruct (is_delimiter d); [|reflexivity].
    set (x := ([take_while is_dot (drop_while is_space r)],
               drop_while is_dot (drop_while is_space r))).
    rewrite star_greedy_first with (x := x); [reflexivity|].
    rewrite star_greedy_first with (x := x); reflexivity.
  - intros t c r Hc. cbn [once]. rewrite space_not_delimiter by assumption.
    reflexivity.
Qed.

Lemma run_KEY_lazy (g : jsstring -> jsstring) (s : jsstring) :
  match
    star_lazy is_dot
      (fun t r =>
         match run KEY_TAIL r with
         | Some (caps, rest) => Some (g t :: caps, rest)
         | None => None
         end) s
  with Some (caps, _) => Some caps | None => None end =
  match key_at s with Some (k, v) => Some [g k; v] | None => None end.
Proof.
  revert g. induction s as [|c s IH]; intro g.
  - cbn [star_lazy key_at]. pose proof (run_KEY_TAIL []) as H.
    destruct (run KEY_TAIL []) as [[caps rest]|];
      destruct (value_at []); try discriminate; [|reflexivity].
    injection H as ->. reflexivity.
  - cbn [star_lazy key_at]. pose proof (run_KEY_TAIL (c :: s)) as H.
    destruct (run KEY_TAIL (c :: s)) as [[caps rest]|];
      destruct (value_at (c :: s)); try discriminate.
    + injection H as ->. reflexivity.
    + destruct (is_dot c); [|reflexivity].
      specialize (IH (fun t => g (c :: t))). cbv beta in IH. rewrite IH.
      destruct (key_at s) as [[k v]|]; reflexivity.
Qed.

Lemma run_KEY (s : jsstring) :
  trim_start s = s ->
  match run KEY s with Some (caps, _) => Some caps | None => None end =
  match key_at s with Some (k, v) => Some [k; v] | None => None end.
Proof.
  intro Hs. rewrite <- (run_KEY_lazy (fun t => t)).
  unfold KEY. fold KEY_TAIL.
  cbn [run run_atom a_class a_quant a_group].
  change (cmatch CSpace) with is_space.
  change (cmatch CDot) with is_dot.
  assert (Hg : forall k, star_greedy is_space k s = k [] s :> option (list jsstring * jsstring)).
  { intro k. destruct s as [|c s]; [reflexivity|].
    unfold trim_start in Hs. cbn [drop_while] in Hs. cbn [star_greedy].
    destruct (is_space c) eqn:Hc; [|reflexivity].
    exfalso. pose proof (drop_while_head is_space s) as Hh.
    rewrite Hs in Hh. congruence. }
  rewrite Hg.
  match goal with
  | |- match match ?a with _ => _ end with _ => _ end =
       match ?b with _ => _ end =>
      replace a with b; [destruct b as [[? ?]|]; reflexivity|]
  end.
  reflexivity.
Qed.

Lemma drop_while_app (p : code -> bool) (a b : jsstring) :
  drop_while p (a ++ b) = if forallb p a then drop_while p b else drop_while p a ++ b.
Proof.
  induction a as [|c a IH]; simpl; [reflexivity|].
  destruct (p c); simpl; [assumption|reflexivity].
Qed.

Lemma take_while_forall (p : code -> bool) (s : jsstring) :
  forallb p s = true -> take_while p s = s.
Proof.
  induction s as [|c s IH]; simpl; [reflexivity|].
  destruct (p c); simpl; [|discriminate]. intro H. rewrite IH by assumption. reflexivity.
Qed.

Lemma forallb_drop_while (p q : code -> bool) (s : jsstring) :
  forallb q s = true -> forallb q (drop_while p s) = true.
Proof.
  induction s as [|c s IH]; simpl; [reflexivity|].
  intro H. apply andb_true_iff in H. destruct H as [H1 H2].
  destruct (p c); [auto|]. simpl. rewrite H1, H2. reflexivity.
Qed.

Lemma value_at_none (s : jsstring) : no_delimiter s = true -> value_at s = None.
Proof.
  intro H. unfold value_at, trim_start.
  pose proof (forallb_drop_while is_space _ s H) as Hd.
  destruct (drop_while is_space s) as [|d r]; [reflexivity|].
  simpl in Hd. apply andb_true_iff in Hd. destruct Hd as [Hd _].
  apply negb_true_iff in Hd. rewrite Hd. reflexivity.
Qed.

Lemma key_at_none (s : jsstring) : no_delimiter s = true -> key_at s = None.
Proof.
  induction s as [|c s IH]; intro H.
  - reflexivity.
  - cbn [key_at]. rewrite value_at_none by assumption.
    simpl in H. apply andb_true_iff in H. destruct H as [_ H].
    rewrite IH by assumption. destruct (is_dot c); reflexivity.
Qed.

Lemma delimiter_not_space (d : code) : is_delimiter d = true -> is_space d = false.
Proof.
  intro H. destruct (is_space d) eqn:E; [|reflexivity].
  apply space_not_delimiter in E. congruence.
Qed.

Lemma key_at_split (k : jsstring) (d : code) (v : jsstring) :
  no_delimiter k = true -> forallb is_dot k = true -> is_delimiter d = true ->
  key_at (k ++ d :: v) = Some (trim_end k, take_while is_dot (trim_start v)).
Proof.
  intros Hk Hdot Hd. induction k as [|c k IH].
  - cbn [app key_at trim_end]. unfold value_at, trim_start. cbn [drop_while].
    rewrite delimiter_not_space by assumption. rewrite Hd. reflexivity.
  - simpl in Hk, Hdot. apply andb_true_iff in Hk, Hdot.
    destruct Hk as [Hc Hk], Hdot as [Hcd Hdot].
    specialize (IH Hk Hdot).
    change ((c :: k) ++ d :: v) with (c :: (k ++ d :: v)).
    cbn [key_at trim_end]. unfold value_at, trim_start.
    change (c :: k ++ d :: v) with ((c :: k) ++ d :: v).
    rewrite drop_while_app.
    destruct (forallb is_space (c :: k)) eqn:Hsp.
    + cbn [drop_while]. rewrite delimiter_not_space by assumption. rewrite Hd.
      reflexivity.
    + pose proof (drop_while_head is_space (c :: k)) as Hh.
      pose proof (forallb_drop_while is_space _ (c :: k)
                    (proj2 (andb_true_iff _ _) (conj Hc Hk))) as Hnd.
      destruct (drop_while is_space (c :: k)) as [|e r] eqn:Hdw.
      * exfalso. clear - Hsp Hdw. revert Hsp Hdw. generalize (c :: k).
        induction l as [|x l IHl]; simpl; [discriminate|].
        destruct (is_space x); [auto|discriminate].
      * cbn [app]. simpl in Hnd. apply andb_true_iff in Hnd.
        destruct Hnd as [He _]. apply negb_true_iff in He. rewrite He.
        rewrite Hcd. cbn [app] in IH. rewrite IH. reflexivity.
Qed.

Lemma first_delimiter (s : jsstring) :
  no_delimiter s = true \/
  exists a d b, s = a ++ d :: b /\ no_delimiter a = true /\ is_delimiter d = true.
Proof.
  induction s as [|c s IH]; [left; reflexivity|].
  destruct (is_delimiter c) eqn:Hc.
  - right. exists [], c, s. auto.
  - destruct IH as [IH|(a & d & b & -> & Ha & Hd)].
    + left. simpl. rewrite Hc, IH. reflexivity.
    + right. exists (c :: a), d, b. simpl. rewrite Hc, Ha. auto.
Qed.

Lemma key_at_inv (s k v : jsstring) :
  forallb is_dot s = true -> key_at s = Some (k, v) ->
  exists a d b, s = a ++ d :: b /\ no_delimiter a = true /\ is_delimiter d = true /\
                k = trim_end a /\ v = trim_start b.
Proof.
  intros Hdot H. destruct (first_delimiter s) as [Hn|(a & d & b & -> & Ha & Hd)].
  - rewrite key_at_none in H by assumption. discriminate.
  - rewrite forallb_app in Hdot. apply andb_true_iff in Hdot.
    destruct Hdot as [Hda Hdb]. simpl in Hdb. apply andb_true_iff in Hdb.
    rewrite key_at_split in H by assumption. injection H as <- <-.
    exists a, d, b. repeat split; try assumption.
    apply take_while_forall. apply forallb_drop_while. tauto.
Qed.

Lemma KEY_exec_key_at (s k v : jsstring) :
  trim_start s = s -> key_at s = Some (k, v) -> KEY_exec s = Some (k, v).
Proof.
  intros Hs Hk. unfold KEY_exec.
  pose proof (run_KEY s Hs) as Hr. rewrite Hk in Hr.
  destruct s as [|c s]; cbn [exec];
    destruct (run KEY _) as [[caps rest]|]; try discriminate;
    injection Hr as ->; reflexivity.
Qed.

Lemma run_KEY_none (s : jsstring) : no_delimiter s = true -> run KEY s = None.
Proof.
  intro H. unfold KEY. fold KEY_TAIL.
  cbn [run run_atom a_class a_quant a_group].
  change (cmatch CDot) with is_dot.
  apply star_greedy_none with (P := fun r => no_delimiter r = true); [| |assumption].
  - intros c r Hc. simpl in Hc. apply andb_true_iff in Hc. tauto.
  - intros t r Hr.
    pose proof (run_KEY_lazy (fun t => t) r) as Hl.
    rewrite key_at_none in Hl by assumption.
    match goal with
    | |- match ?a with _ => _ end = None => destruct a as [[? ?]|]
    end; [discriminate|reflexivity].
Qed.

Lemma KEY_exec_none (s : jsstring) : no_delimiter s = true -> KEY_exec s = None.
Proof.
  intro H. unfold KEY_exec.
  assert (He : exec KEY s = None); [|rewrite He; reflexivity].
  induction s as [|c s IH]; cbn [exec]; rewrite run_KEY_none by assumption.
  - reflexivity.
  - apply IH. simpl in H. apply andb_true_iff in H. tauto.
Qed.

(** On a line without line terminators and without leading white space,
    [KEY.exec] is the direct reading. *)
Lemma KEY_exec_line (s : jsstring) :
  trim_start s = s -> forallb is_dot s = true -> KEY_exec s = key_at s.
Proof.
  intros Hs Hdot. destruct (key_at s) as [[k v]|] eqn:Hk.
  - apply KEY_exec_key_at; assumption.
  - apply KEY_exec_none.
    destruct (first_delimiter s) as [Hn|(a & d & b & -> & Ha & Hd)]; [assumption|].
    rewrite forallb_app in Hdot. apply andb_true_iff in Hdot.
    rewrite key_at_split in Hk by tauto. discriminate.
Qed.

Lemma take_while_app_stop (p : code -> bool) (a : jsstring) (c : code) (b : jsstring) :
  forallb p a = true -> p c = false -> take_while p (a ++ c :: b) = a.
Proof.
  intros Ha Hc. induction a as [|x a IH]; cbn [app take_while].
  - rewrite Hc. reflexivity.
  - simpl in Ha. apply andb_true_iff in Ha. destruct Ha as [Hx Ha].
    rewrite Hx, IH by assumption. reflexivity.
Qed.

Lemma drop_while_app_stop (p : code -> bool) (a : jsstring) (c : code) (b : jsstring) :
  forallb p a = true -> p c = false -> drop_while p (a ++ c :: b) = c :: b.
Proof.
  intros Ha Hc. rewrite drop_while_app, Ha. cbn [drop_while]. rewrite Hc. reflexivity.
Qed.

Lemma not_close_bracket : not_close (ch "]") = false.
Proof. reflexivity. Qed.

Lemma not_close_false (c : code) : not_close c = false -> c = ch "]".
Proof.
  unfold not_close. intro H. apply negb_false_iff in H. apply mem_code_In in H.
  destruct H as [<-|[]]. reflexivity.
Qed.

Lemma bracket_name_intro (name tail : jsstring) :
  name <> [] -> forallb not_close name = true ->
  bracket_name (name ++ ch "]" :: tail) = Some name.
Proof.
  intros Hne Hn. unfold bracket_name.
  rewrite take_while_app_stop, drop_while_app_stop
    by (assumption || apply not_close_bracket).
  destruct name; [contradiction|reflexivity].
Qed.

Lemma bracket_name_inv (s h : jsstring) :
  bracket_name s = Some h ->
  h <> [] /\ forallb not_close h = true /\ exists b, s = h ++ ch "]" :: b.
Proof.
  unfold bracket_name. intro H.
  pose proof (take_drop_while not_close s) as Hs.
  pose proof (take_while_all not_close s) as Ha.
  pose proof (drop_while_head not_close s) as Hd.
  destruct (take_while not_close s) as [|c n]; [discriminate|].
  destruct (drop_while not_close s) as [|e r]; [discriminate|].
  injection H as <-. apply not_close_false in Hd. subst e.
  split; [discriminate|]. split; [assumption|]. exists r. symmetry. assumption.
Qed.

Lemma header_at_inv (s h : jsstring) :
  header_at s = Some h ->
  h <> [] /\ forallb not_close h = true /\ exists b, s = ch "[" :: h ++ ch "]" :: b.
Proof.
  unfold header_at. destruct s as [|c s]; [discriminate|].
  destruct (code_eqb c (ch "[")) eqn:E; [|discriminate].
  apply code_eqb_eq in E. subst c. intro H.
  destruct (bracket_name_inv _ _ H) as (H1 & H2 & b & ->). eauto.
Qed.

Lemma find_header_inv (s h : jsstring) :
  find_header s = Some h ->
  h <> [] /\ forallb not_close h = true /\
  exists a b, s = a ++ ch "[" :: h ++ ch "]" :: b.
Proof.
  induction s as [|c s IH]; cbn [find_header].
  - cbn [header_at]. discriminate.
  - destruct (header_at (c :: s)) as [n|] eqn:Hh.
    + intro H. injection H as ->.
      destruct (header_at_inv _ _ Hh) as (H1 & H2 & b & ->).
      split; [assumption|]. split; [assumption|]. exists [], b. reflexivity.
    + intro H. destruct (IH H) as (H1 & H2 & a & b & ->).
      split; [assumption|]. split; [assumption|]. exists (c :: a), b. reflexivity.
Qed.

Lemma header_line_intro (ws name tail : jsstring) :
  forallb is_space ws = true -> name <> [] -> forallb not_close name = true ->
  strip_leading (ws ++ ch "[" :: name ++ ch "]" :: tail) = ch "[" :: name ++ ch "]" :: tail /\
  is_header (ch "[" :: name ++ ch "]" :: tail) = true /\
  SECTION_exec (ch "[" :: name ++ ch "]" :: tail) = Some name.
Proof.
  intros Hws Hne Hn.
  assert (Hsec : SECTION_exec (ch "[" :: name ++ ch "]" :: tail) = Some name).
  { rewrite SECTION_exec_find. cbn [find_header header_at].
    change (code_eqb (ch "[") (ch "[")) with true. cbn iota.
    rewrite bracket_name_intro by assumption. reflexivity. }
  split; [|split; [|assumption]].
  - rewrite strip_leading_trim. unfold trim_start.
    apply drop_while_app_stop; [assumption|reflexivity].
  - unfold is_header, is_skipped. rewrite Hsec, COMMENT_match_trim. reflexivity.
Qed.

(** ** The parsing loop *)

Section ParseFacts.
Variables toUpperCase toLowerCase : jsstring -> jsstring.

Local Abbreviation parse_line := (parse_line toUpperCase toLowerCase).
Local Abbreviation forEach := (forEach toUpperCase toLowerCase).
Local Abbreviation parseLines := (parseLines toUpperCase toLowerCase).
Local Abbreviation transformKey := (transformKey toUpperCase toLowerCase).

Lemma forEach_app file cb t (a b : list jsstring) (n : nat) (st : pstate) :
  forEach file cb t (a ++ b) n st =
  match forEach file cb t a n st with
  | (st', None) => forEach file cb t b (n + List.length a) st'
  | (st', Some e) => (st', Some e)
  end.
Proof.
  revert n st. induction a as [|l a IH]; intros n st.
  - cbn [app forEach List.length]. rewrite Nat.add_0_r. reflexivity.
  - cbn [app forEach List.length].
    destruct (parse_line file cb t n l st) as [st'|e]; [|reflexivity].
    rewrite IH. rewrite Nat.add_succ_r. reflexivity.
Qed.

Lemma parse_line_skipped file cb t n line st :
  is_skipped line = true -> parse_line file cb t n line st = inl st.
Proof.
  unfold is_skipped, parse_line. destruct line as [|c l]; [reflexivity|].
  intros ->. reflexivity.
Qed.

Lemma parse_line_header file cb t n line st h :
  is_skipped line = false -> SECTION_exec line = Some h ->
  parse_line file cb t n line st =
  inl {| p_sections := assign (p_sections st) (transformKey t h) [];
         p_curSec := Some (transformKey t h);
         p_calls := p_calls st |}.
Proof.
  unfold is_skipped, parse_line. destruct line as [|c l]; [discriminate|].
  intros -> ->. reflexivity.
Qed.

Lemma parse_line_no_section file cb t n line st :
  is_skipped line = false -> SECTION_exec line = None -> p_curSec st = None ->
  parse_line file cb t n line st = inr (MissingSectionHeaderError file n line).
Proof.
  unfold is_skipped, parse_line. destruct line as [|c l]; [discriminate|].
  intros -> -> ->. reflexivity.
Qed.

Lemma parse_line_key_value file cb t n line st cur k v :
  is_skipped line = false -> SECTION_exec line = None -> p_curSec st = Some cur ->
  key_value line = Some (k, v) ->
  parse_line file cb t n line st =
  inl {| p_sections := assign_in (p_sections st) cur (transformKey t k) v;
         p_curSec := Some cur;
         p_calls := p_calls st |}.
Proof.
  unfold is_skipped, parse_line. destruct line as [|c l]; [discriminate|].
  intros -> -> -> ->. reflexivity.
Qed.

Lemma parse_line_invalid file cb t n line st cur :
  is_invalid line = true -> p_curSec st = Some cur ->
  parse_line file cb t n line st =
  if cb then inl (with_call st (LineInfo file n line))
  else inr (ParseError (or_empty file) n line).
Proof.
  unfold is_invalid, is_skipped, parse_line, with_call.
  destruct line as [|c l]; [discriminate|].
  destruct (COMMENT_match (c :: l)); [discriminate|].
  destruct (SECTION_exec (c :: l)); [discriminate|].
  destruct (key_value (c :: l)); [discriminate|].
  intros _ ->. reflexivity.
Qed.

Lemma parse_line_curSec file cb t n line st st1 :
  parse_line file cb t n line st = inl st1 ->
  p_curSec st <> None -> p_curSec st1 <> None.
Proof.
  unfold parse_line. intros H Hc.
  destruct line as [|c l]; [injection H as <-; assumption|].
  destruct (COMMENT_match (c :: l)); [injection H as <-; assumption|].
  destruct (SECTION_exec (c :: l)); [injection H as <-; discriminate|].
  destruct (p_curSec st) as [cur|]; [|congruence].
  destruct (key_value (c :: l)) as [[k v]|]; [injection H as <-; discriminate|].
  destruct cb; [injection H as <-; discriminate|discriminate].
Qed.

Lemma forEach_curSec file cb t (ls : list jsstring) (n : nat) (st st' : pstate) :
  forEach file cb t ls n st = (st', None) ->
  p_curSec st <> None -> p_curSec st' <> None.
Proof.
  revert n st. induction ls as [|l ls IH]; intros n st Hrun Hc.
  - cbn [forEach] in Hrun. injection Hrun as <-. assumption.
  - cbn [forEach] in Hrun.
    destruct (parse_line file cb t n l st) as [st1|e] eqn:Hl; [|discriminate].
    eapply IH; [eassumption|]. eapply parse_line_curSec; eassumption.
Qed.

(** The current section is set exactly when a header has been processed. *)
Lemma curSec_header_seen file cb t (ls : list jsstring) (n : nat) (st st' : pstate) :
  forEach file cb t ls n st = (st', None) -> p_curSec st = None ->
  (p_curSec st' <> None <-> Exists (fun l => is_header l = true) ls).
Proof.
  revert n st. induction ls as [|l ls IH]; intros n st Hrun Hcur.
  - cbn [forEach] in Hrun. injection Hrun as <-. rewrite Hcur.
    split; [congruence|]. intro H. inversion H.
  - cbn [forEach] in Hrun.
    destruct (is_skipped l) eqn:Hs.
    + rewrite parse_line_skipped in Hrun by assumption.
      rewrite (IH _ _ Hrun Hcur). split; [auto|].
      intro H. inversion H as [? ? Hh|]; [|assumption].
      unfold is_header in Hh. rewrite Hs in Hh. discriminate.
    + destruct (SECTION_exec l) as [h|] eqn:Hh.
      * split; [intros _; left; unfold is_header; rewrite Hs, Hh; reflexivity|].
        intros _. rewrite (parse_line_header _ _ _ _ _ _ _ Hs Hh) in Hrun.
        eapply forEach_curSec; [eassumption|]. discriminate.
      * rewrite parse_line_no_section in Hrun by assumption. discriminate.
Qed.
Lemma missing_header_loop file cb t (pre : list jsstring) (line : jsstring)
      (post : list jsstring) (m : nat) (st : pstate) :
  p_curSec st = None ->
  Forall (fun l => is_header l = false) pre ->
  is_skipped line = false -> SECTION_exec line = None ->
  exists n l,
    forEach file cb t (pre ++ line :: post) m st =
      (st, Some (MissingSectionHeaderError file (m + n) l)) /\
    nth_error (pre ++ line :: post) n = Some l /\
    n <= List.length pre /\
    (Forall (fun l => is_skipped l = true) pre -> n = List.length pre /\ l = line).
Proof.
  intros Hcur Hpre Hs Hh. revert m.
  induction Hpre as [|l0 pre Hl0 Hpre IH]; intro m.
  - exists 0, line. cbn [app forEach].
    rewrite parse_line_no_section by assumption. rewrite Nat.add_0_r.
    split; [reflexivity|]. split; [reflexivity|]. split; [apply Nat.le_refl|].
    intros _. split; reflexivity.
  - cbn [app forEach]. destruct (is_skipped l0) eqn:Hs0.
    + rewrite parse_line_skipped by assumption.
      destruct (IH (S m)) as (n & l & Hrun & Hnth & Hle & Hall).
      exists (S n), l. rewrite Nat.add_succ_r. cbn [nth_error List.length].
      split; [assumption|]. split; [assumption|]. split; [lia|].
      intro Hf. inversion Hf; subst.
      destruct Hall as [-> ->]; [assumption|]. split; reflexivity.
    + unfold is_header in Hl0. rewrite Hs0 in Hl0. cbn [negb andb] in Hl0.
      destruct (SECTION_exec l0) eqn:Hh0; [discriminate|].
      rewrite parse_line_no_section by assumption.
      exists 0, l0. rewrite Nat.add_0_r. cbn [nth_error List.length].
      split; [reflexivity|]. split; [reflexivity|]. split; [lia|].
      intro Hf. inversion Hf; subst. congruence.
Qed.

(** C3, as amended: a line that is not blank, not a comment and holds no
    bracketed name, with no line read as a section header before it,
    makes parsing throw MissingSectionHeaderError, with the file, the
    index and the text of the first such line (this line, when all lines
    before it are blank or comments); the error is never ParseError, and
    the store is as it was. *)
Theorem missing_section_header (cp : ConfigParser) (pre : list jsstring)
        (line : jsstring) (post : list jsstring) :
  Forall (fun l => is_header (strip_leading l) = false) pre ->
  is_skipped (strip_leading line) = false ->
  SECTION_exec (strip_leading line) = None ->
  exists n l,
    parseLines cp (pre ++ line :: post) =
      (initial_state cp, Some (MissingSectionHeaderError (_file cp) n l)) /\
    nth_error (List.map strip_leading (pre ++ line :: post)) n = Some l /\
    n <= List.length pre /\
    (Forall (fun l => is_skipped (strip_leading l) = true) pre ->
     n = List.length pre /\ l = strip_leading line) /\
    (forall f k x, snd (parseLines cp (pre ++ line :: post)) <> Some (ParseError f k x)).
Proof.
  intros Hpre Hs Hh. unfold parseLines. fold (initial_state cp).
  rewrite map_app. cbn [List.map].
  destruct (missing_header_loop (_file cp) (_onInvalidLine cp) (_transform cp)
              (List.map strip_leading pre) (strip_leading line)
              (List.map strip_leading post) 0 (initial_state cp))
    as (n & l & Hrun & Hnth & Hle & Hall); try assumption; try reflexivity.
  { apply Forall_map. assumption. }
  exists n, l. rewrite Hrun. rewrite length_map in Hle, Hall.
  split; [reflexivity|]. split; [assumption|]. split; [assumption|]. split.
  - intro Hsk. apply Hall. apply Forall_map. assumption.
  - intros f k x. cbn [snd]. congruence.
Qed.

(** C4, as amended: after a section header (the lines before ran without
    error and left a current section), a line that is not blank, not a
    comment, holds no bracketed name and is no key and value is handled
    by policy: with a callback, the callback receives exactly the file,
    the index and the text of the line, nothing else changes and the loop
    goes on with the next line; without one, parsing stops there with a
    ParseError that carries the same index and text and, for the file,
    [file || '']: the file itself unless it is null, the empty string or
    the descriptor 0, for which the error carries the empty string. *)
Theorem invalid_line_policy (cp : ConfigParser)
        (pre : list jsstring) (line : jsstring) (post : list jsstring)
        (st : pstate) (cur : jsstring) :
  parseLines cp pre = (st, None) ->
  p_curSec st = Some cur ->
  is_invalid (strip_leading line) = true ->
  parseLines cp (pre ++ line :: post) =
  (if _onInvalidLine cp then
     forEach (_file cp) true (_transform cp) (List.map strip_leading post)
             (S (List.length pre))
             (with_call st (LineInfo (_file cp) (List.length pre) (strip_leading line)))
   else (st, Some (ParseError (or_empty (_file cp)) (List.length pre)
                              (strip_leading line)))) /\
  (forall f, _file cp = Some f -> f <> Path [] -> f <> Descriptor 0 ->
             or_empty (_file cp) = _file cp).
Proof.
  unfold parseLines. intros Hpre Hcur Hinv. split.
  - rewrite map_app, forEach_app, Hpre. cbn [List.map forEach plus].
    rewrite length_map.
    rewrite (parse_line_invalid _ _ _ _ _ _ cur Hinv Hcur).
    destruct (_onInvalidLine cp); reflexivity.
  - intros f -> Hp Hd. destruct f as [[|c n]|[|fd|fd]|b]; try reflexivity;
      contradiction.
Qed.

(** C2, as amended: a line that, after its leading white space, begins
    with an opening bracket, one or more code units other than the
    closing bracket, and the closing bracket, is a section header named
    by the text between the brackets, whatever follows the closing
    bracket; and every line taken as a header holds such a bracketed
    name, so a line without one is never a header. *)
Theorem header_line_shape file cb t (n : nat) (st : pstate) :
  (forall ws name tail,
      forallb is_space ws = true -> name <> [] -> forallb not_close name = true ->
      let line := strip_leading (ws ++ ch "[" :: name ++ ch "]" :: tail) in
      is_header line = true /\ SECTION_exec line = Some name /\
      parse_line file cb t n line st =
      inl {| p_sections := assign (p_sections st) (transformKey t name) [];
             p_curSec := Some (transformKey t name);
             p_calls := p_calls st |}) /\
  (forall line h,
      SECTION_exec line = Some h ->
      h <> [] /\ forallb not_close h = true /\
      exists a b, line = a ++ ch "[" :: h ++ ch "]" :: b).
Proof.
  split.
  - intros ws name tail Hws Hne Hn line. subst line.
    destruct (header_line_intro ws name tail Hws Hne Hn) as (-> & Hh & Hs).
    split; [assumption|]. split; [assumption|].
    apply parse_line_header; [|assumption].
    unfold is_header in Hh. apply andb_true_iff in Hh. destruct Hh as [Hh _].
    apply negb_true_iff in Hh. assumption.
  - intros line h H. rewrite SECTION_exec_find in H. apply find_header_inv. assumption.
Qed.

Lemma parse_line_origin file cb t (L : list jsstring) n line st st1 :
  In line L -> origin toUpperCase toLowerCase t L (p_sections st) ->
  parse_line file cb t n line st = inl st1 ->
  origin toUpperCase toLowerCase t L (p_sections st1).
Proof.
  intros Hin Ho H. destruct (is_skipped line) eqn:Hs.
  { rewrite parse_line_skipped in H by assumption. injection H as <-. assumption. }
  destruct (SECTION_exec line) as [h|] eqn:Hh.
  { rewrite (parse_line_header _ _ _ _ _ _ _ Hs Hh) in H. injection H as <-.
    cbn [p_sections]. intros name sec Hl. rewrite lookup_assign in Hl.
    destruct (jseqb (transformKey t h) name) eqn:E; [|apply Ho; assumption].
    apply jseqb_eq in E. injection Hl as <-. split.
    - exists line, h. unfold is_header. rewrite Hs, Hh. auto.
    - intros k v Hk. discriminate. }
  destruct (p_curSec st) as [cur|] eqn:Hc;
    [|rewrite parse_line_no_section in H by assumption; discriminate].
  destruct (key_value line) as [[key value]|] eqn:Hk.
  - rewrite (parse_line_key_value _ _ _ _ _ _ _ _ _ Hs Hh Hc Hk) in H.
    injection H as <-. cbn [p_sections]. unfold assign_in.
    destruct (lookup (p_sections st) cur) as [o|] eqn:Ho'; [|assumption].
    intros name sec Hl. rewrite lookup_assign in Hl.
    destruct (jseqb cur name) eqn:E; [|apply Ho; assumption].
    apply jseqb_eq in E. subst name. injection Hl as <-.
    destruct (Ho _ _ Ho') as [Hname Hkeys]. split; [assumption|].
    intros k v Hv.
    destruct (lookup_put_cases _ _ _ _ _ Hv) as [[<- ->]|Hv'];
      [exists line, key; auto|apply Hkeys; assumption].
  - assert (Hi : is_invalid line = true)
      by (unfold is_invalid; rewrite Hs, Hh, Hk; reflexivity).
    rewrite (parse_line_invalid _ _ _ _ _ _ _ Hi Hc) in H.
    destruct cb; [|discriminate]. injection H as <-. assumption.
Qed.

Lemma forEach_origin file cb t (L ls : list jsstring) n st :
  incl ls L -> origin toUpperCase toLowerCase t L (p_sections st) ->
  origin toUpperCase toLowerCase t L (p_sections (fst (forEach file cb t ls n st))).
Proof.
  revert n st. induction ls as [|l ls IH]; intros n st Hincl Ho; [assumption|].
  cbn [forEach].
  destruct (parse_line file cb t n l st) as [st1|e] eqn:Hl; [|assumption].
  apply IH; [intros x Hx; apply Hincl; right; assumption|].
  eapply parse_line_origin; [|eassumption|eassumption].
  apply Hincl. left. reflexivity.
Qed.

Lemma has_own_assign (V : Type) (o : dict V) k v x :
  has_own o x = true -> has_own (assign o k v) x = true.
Proof.
  unfold has_own. rewrite lookup_assign.
  destruct (jseqb k x); [reflexivity|auto].
Qed.

Lemma parse_line_keeps file cb t n line st st1 x :
  parse_line file cb t n line st = inl st1 ->
  has_own (p_sections st) x = true ->
  has_own (p_sections st1) x = true.
Proof.
  unfold parse_line. intros H Hx.
  destruct line as [|c l]; [injection H as <-; assumption|].
  destruct (COMMENT_match (c :: l)); [injection H as <-; assumption|].
  destruct (SECTION_exec (c :: l));
    [injection H as <-; apply has_own_assign; assumption|].
  destruct (p_curSec st) as [cur|]; [|discriminate].
  destruct (key_value (c :: l)) as [[k v]|].
  - injection H as <-. cbn [p_sections]. unfold assign_in.
    destruct (lookup (p_sections st) cur); [|assumption].
    apply has_own_assign. assumption.
  - destruct cb; [injection H as <-; assumption|discriminate].
Qed.

Lemma forEach_keeps file cb t ls n st st' e x :
  forEach file cb t ls n st = (st', e) ->
  has_own (p_sections st) x = true ->
  has_own (p_sections st') x = true.
Proof.
  revert n st. induction ls as [|l ls IH]; intros n st H Hx; cbn [forEach] in H.
  - injection H as <- _. assumption.
  - destruct (parse_line file cb t n l st) as [st1|e1] eqn:Hl.
    + eapply IH; [eassumption|]. eapply parse_line_keeps; eassumption.
    + injection H as <- _. assumption.
Qed.

Lemma forEach_headers_stored file cb t ls n st st' :
  forEach file cb t ls n st = (st', None) ->
  forall line h,
    In line ls -> is_header line = true -> SECTION_exec line = Some h ->
    has_own (p_sections st') (transformKey t h) = true.
Proof.
  revert n st. induction ls as [|l ls IH]; intros n st H line h Hin Hh Hs;
    [destruct Hin|].
  cbn [forEach] in H.
  destruct (parse_line file cb t n l st) as [st1|e1] eqn:Hl; [|discriminate].
  destruct Hin as [->|Hin]; [|eapply IH; eassumption].
  eapply forEach_keeps; [eassumption|].
  unfold is_header in Hh. apply andb_true_iff in Hh. destruct Hh as [Hk _].
  apply negb_true_iff in Hk.
  rewrite (parse_line_header _ _ _ _ _ _ _ Hk Hs) in Hl. injection Hl as <-.
  cbn [p_sections]. unfold has_own. rewrite lookup_assign_same. reflexivity.
Qed.

(** C6: after reading a text with a new parser configured with the
    transform [t] ('none' when unset), every stored section name is the
    transform of the name extracted from a header line of the text,
    every stored key is the transform of the key extracted from a line
    read as key and value, and its value is that line's extracted value
    itself;
    when the read succeeds, [this._sections] holds a section object under
    the transformed name of every header line (as a property, or as its
    prototype for the name [__proto__]); and the transform 'none' leaves
    a name as extracted. *)
Theorem transform_applied_uniformly (o : options) (file : file_ref) (text : jsstring) :
  let t := match opt_transform o with Some t => t | None => TNone end in
  let lines := List.map strip_leading (split_lines text) in
  let r := read toUpperCase toLowerCase (new_ConfigParser o) file text in
  (forall name sec,
      lookup (_sections (fst (fst r))) name = Some sec ->
      (exists line h,
          In line lines /\ is_header line = true /\ SECTION_exec line = Some h /\
          name = transformKey t h) /\
      (forall k v,
          lookup sec k = Some v ->
          exists line key,
            In line lines /\ is_skipped line = false /\ SECTION_exec line = None /\
            key_value line = Some (key, v) /\
            k = transformKey t key)) /\
  (snd r = None ->
   forall line h,
     In line lines -> is_header line = true -> SECTION_exec line = Some h ->
     exists sec, items (fst (fst r)) (transformKey t h) = VSection sec) /\
  (forall x, transformKey TNone x = x) /\
  (forall x, transformKey TLower x = toLowerCase x) /\
  (forall x, transformKey TUpper x = toUpperCase x).
Proof.
  intros t lines r.
  assert (Hr : r = let '(st, e) :=
                     forEach (Some file) (opt_onInvalidLine o) t lines 0
                             {| p_sections := []; p_curSec := None; p_calls := [] |} in
                   ({| _file := Some file; _transform := t;
                       _onInvalidLine := opt_onInvalidLine o;
                       _sections := p_sections st |}, p_calls st, e)) by reflexivity.
  destruct (forEach (Some file) (opt_onInvalidLine o) t lines 0
                    {| p_sections := []; p_curSec := None; p_calls := [] |})
    as [st e] eqn:Hrun.
  rewrite Hr. clear Hr r. cbn [fst snd _sections].
  split; [|split; [|repeat split]].
  - pose proof (forEach_origin (Some file) (opt_onInvalidLine o) t lines lines 0
                  {| p_sections := []; p_curSec := None; p_calls := [] |}
                  (incl_refl _)) as Ho.
    rewrite Hrun in Ho. apply Ho. intros name sec Hl. discriminate.
  - intros -> line h Hin Hh Hs. unfold items. cbn [_sections].
    pose proof (forEach_headers_stored _ _ _ _ _ _ _ Hrun line h Hin Hh Hs) as Hst.
    unfold has_own in Hst.
    destruct (lookup (p_sections st) (transformKey t h)) as [sec|] eqn:E;
      [|discriminate].
    exists sec. apply get_section_lookup. assumption.
Qed.

Lemma forEach_invariant (I : pstate -> Prop) file cb t (ls : list jsstring) :
  (forall l n st, In l ls -> I st ->
                  exists st', parse_line file cb t n l st = inl st' /\ I st') ->
  forall n st, I st -> exists st', forEach file cb t ls n st = (st', None) /\ I st'.
Proof.
  induction ls as [|l ls IH]; intros Hstep n st HI.
  - exists st. split; [reflexivity|assumption].
  - cbn [forEach].
    destruct (Hstep l n st (or_introl eq_refl) HI) as (st1 & -> & HI1).
    apply IH; [|assumption]. intros l' n' st0 Hin. apply Hstep. right. assumption.
Qed.

Lemma body_line_section file cb t n line st S :
  body_line cb line = true ->
  p_curSec st = Some S ->
  (exists sec, lookup (p_sections st) S = Some sec) ->
  exists st',
    parse_line file cb t n line st = inl st' /\ p_curSec st' = Some S /\
    (exists sec, lookup (p_sections st') S = Some sec) /\
    forall sec K V,
      lookup (p_sections st) S = Some sec -> lookup sec K = Some V ->
      (is_skipped line = false ->
       forall k2 v2, key_value line = Some (k2, v2) -> transformKey t k2 <> K) ->
      exists sec', lookup (p_sections st') S = Some sec' /\ lookup sec' K = Some V.
Proof.
  unfold body_line. intros Hb Hc [sec0 Hsec0].
  apply andb_true_iff in Hb. destruct Hb as [Hnh Hinv].
  apply negb_true_iff in Hnh. unfold is_header in Hnh.
  destruct (is_skipped line) eqn:Hs.
  { rewrite parse_line_skipped by assumption. exists st.
    repeat split; eauto. }
  cbn [negb andb] in Hnh. destruct (SECTION_exec line) eqn:Hh; [discriminate|].
  destruct (key_value line) as [[k2 v2]|] eqn:Hk.
  - rewrite (parse_line_key_value _ _ _ _ _ _ _ _ _ Hs Hh Hc Hk).
    eexists. split; [reflexivity|]. cbn [p_curSec p_sections].
    unfold assign_in. rewrite Hsec0. rewrite lookup_assign_same.
    split; [reflexivity|]. split; [eauto|].
    intros sec K V Hsec HK Hne. injection Hsec as <-.
    eexists. split; [reflexivity|].
    rewrite lookup_put_other; [assumption|]. apply (Hne eq_refl _ _ eq_refl).
  - assert (Hi : is_invalid line = true)
      by (unfold is_invalid; rewrite Hs, Hh, Hk; reflexivity).
    rewrite Hi in Hinv. rewrite orb_false_r in Hinv. subst cb.
    rewrite (parse_line_invalid _ _ _ _ _ _ _ Hi Hc).
    eexists. split; [reflexivity|]. cbn [with_call p_curSec p_sections].
    repeat split; eauto.
Qed.

Lemma trim_end_head (k : jsstring) :
  k <> [] -> trim_start k = k ->
  exists c r, k = c :: r /\ trim_end k = c :: trim_end r /\ is_space c = false.
Proof.
  intros Hne Ht. destruct k as [|c r]; [contradiction|].
  pose proof (drop_while_head is_space (c :: r)) as Hh.
  unfold trim_start in Ht. rewrite Ht in Hh.
  exists c, r. split; [reflexivity|]. split; [|assumption].
  cbn [trim_end forallb]. rewrite Hh. reflexivity.
Qed.

Lemma key_value_line (k : jsstring) (d : code) (v : jsstring) :
  is_delimiter d = true -> no_delimiter k = true ->
  k <> [] -> trim_start k = k -> starts_comment k = false ->
  forallb is_dot (k ++ d :: v) = true ->
  strip_leading (k ++ d :: v) = k ++ d :: v /\
  is_skipped (k ++ d :: v) = false /\
  key_value (k ++ d :: v) = Some (trim_end k, trim_start v).
Proof.
  intros Hd Hk Hne Ht Hcm Hdot.
  destruct (trim_end_head k Hne Ht) as (c & r & -> & Hte & Hc).
  assert (Hts : trim_start ((c :: r) ++ d :: v) = (c :: r) ++ d :: v).
  { unfold trim_start. cbn [app drop_while]. rewrite Hc. reflexivity. }
  split; [rewrite strip_leading_trim; assumption|]. split.
  - unfold is_skipped. cbn [app]. rewrite COMMENT_match_trim.
    change (c :: r ++ d :: v) with ((c :: r) ++ d :: v). rewrite Hts. assumption.
  - unfold key_value. rewrite forallb_app in Hdot. apply andb_true_iff in Hdot.
    destruct Hdot as [Hdk Hdv]. cbn [forallb] in Hdv.
    apply andb_true_iff in Hdv. destruct Hdv as [_ Hdv].
    rewrite (KEY_exec_key_at _ _ _ Hts (key_at_split _ _ v Hk Hdk Hd)).
    rewrite Hte. cbn [jseqb negb andb app firstn].
    rewrite take_while_forall
      by (apply forallb_drop_while; assumption).
    cbn [no_delimiter forallb] in Hk. apply andb_true_iff in Hk.
    destruct Hk as [Hcd _]. unfold is_delimiter in Hcd.
    cbn [mem_code] in Hcd. apply negb_true_iff in Hcd.
    apply orb_false_iff in Hcd. destruct Hcd as [Hcd _].
    change (lit "=") with [ch "="]. cbn [jseqb]. rewrite Hcd. reflexivity.
Qed.

(** C1, as amended: in a document of one section (a header line, then
    lines that are no headers and are invalid only under a callback), a
    line [k d v] with [d] the first delimiter, [k] not empty, without
    leading white space and not starting a comment, no line terminator
    in the line and the line not taken as a header, stores under the
    transformed section name the transformed key [k] less its trailing
    white space, with the value [v] less its leading white space (its
    trailing white space kept), when no later line assigns that key and
    neither the section name nor the key is [__proto__] after the
    transform. *)
Theorem key_value_line_stored (cp : ConfigParser) (hdr s : jsstring)
        (pre post : list jsstring) (k : jsstring) (d : code) (v : jsstring) :
  let t := _transform cp in
  is_header (strip_leading hdr) = true ->
  SECTION_exec (strip_leading hdr) = Some s ->
  Forall (fun l => body_line (_onInvalidLine cp) (strip_leading l) = true) pre ->
  Forall (fun l => body_line (_onInvalidLine cp) (strip_leading l) = true) post ->
  Forall (fun l => is_skipped (strip_leading l) = false ->
                   forall k2 v2, key_value (strip_leading l) = Some (k2, v2) ->
                                 transformKey t k2 <> transformKey t (trim_end k)) post ->
  is_delimiter d = true -> no_delimiter k = true ->
  k <> [] -> trim_start k = k -> starts_comment k = false ->
  forallb is_dot (k ++ d :: v) = true ->
  SECTION_exec (k ++ d :: v) = None ->
  transformKey t s <> proto_name ->
  transformKey t (trim_end k) <> proto_name ->
  exists st sec,
    parseLines cp (hdr :: pre ++ (k ++ d :: v) :: post) = (st, None) /\
    get_section (p_sections st) (transformKey t s) = VSection sec /\
    get_key sec (transformKey t (trim_end k)) = MString (trim_start v).
Proof.
  intros t Hhdr Hs Hpre Hpost Hlater Hd Hk Hne Ht Hcm Hdot Hnh Hsp Hkp.
  destruct (key_value_line k d v Hd Hk Hne Ht Hcm Hdot) as (Hstrip & Hskip & Hkv).
  unfold parseLines. cbn [List.map forEach].
  assert (Hhs : is_skipped (strip_leading hdr) = false).
  { unfold is_header in Hhdr. apply andb_true_iff in Hhdr.
    destruct Hhdr as [Hhdr _]. apply negb_true_iff in Hhdr. assumption. }
  rewrite (parse_line_header _ _ _ _ _ _ _ Hhs Hs). fold t.
  cbn [p_sections p_calls p_curSec].
  set (S := transformKey t s).
  set (st1 := {| p_sections := assign (_sections cp) S []; p_curSec := Some S;
                 p_calls := [] |}).
  rewrite map_app. cbn [List.map]. rewrite Hstrip. rewrite forEach_app.
  set (Q := fun st => p_curSec st = Some S /\
                      exists sec, lookup (p_sections st) S = Some sec).
  destruct (forEach_invariant Q (_file cp) (_onInvalidLine cp) t
              (List.map strip_leading pre)) with (n := 1) (st := st1)
    as (st2 & -> & Hc2 & sec2 & Hsec2).
  { intros l n st Hin [Hc Hsec]. apply in_map_iff in Hin.
    destruct Hin as (l0 & <- & Hin0).
    rewrite Forall_forall in Hpre.
    destruct (body_line_section (_file cp) (_onInvalidLine cp) t n
                (strip_leading l0) st S (Hpre _ Hin0) Hc Hsec)
      as (st' & Hrun & Hc' & Hsec' & _).
    exists st'. split; [assumption|]. split; assumption. }
  { split; [reflexivity|]. exists []. cbn [st1 p_sections].
    apply lookup_assign_same. }
  cbn [forEach].
  rewrite (parse_line_key_value _ _ _ _ _ _ _ _ _ Hskip Hnh Hc2 Hkv).
  set (K := transformKey t (trim_end k)).
  set (st3 := {| p_sections := assign_in (p_sections st2) S K (trim_start v);
                 p_curSec := Some S; p_calls := p_calls st2 |}).
  set (P := fun st => p_curSec st = Some S /\
                      exists sec, lookup (p_sections st) S = Some sec /\
                                  lookup sec K = Some (trim_start v)).
  destruct (forEach_invariant P (_file cp) (_onInvalidLine cp) t
              (List.map strip_leading post))
    with (n := Datatypes.S (1 + List.length (List.map strip_leading pre))) (st := st3)
    as (st4 & -> & Hc4 & sec4 & Hsec4 & HK4).
  { intros l n st Hin (Hc & sec & Hsec & HK). apply in_map_iff in Hin.
    destruct Hin as (l0 & <- & Hin0).
    rewrite Forall_forall in Hpost, Hlater.
    destruct (body_line_section (_file cp) (_onInvalidLine cp) t n
                (strip_leading l0) st S (Hpost _ Hin0) Hc
                (ex_intro _ sec Hsec))
      as (st' & Hrun & Hc' & _ & Hkeep).
    exists st'. split; [assumption|]. split; [assumption|].
    apply (Hkeep sec K (trim_start v) Hsec HK). apply Hlater. assumption. }
  { split; [reflexivity|]. cbn [st3 p_sections]. unfold assign_in.
    rewrite Hsec2. eexists. split; [apply lookup_assign_same|].
    rewrite put_assign by assumption. apply lookup_assign_same. }
  exists st4, sec4. split; [reflexivity|].
  split; [apply get_section_lookup; assumption|].
  unfold get_key. rewrite HK4. reflexivity.
Qed.

End ParseFacts.

(** ** Interpolation *)







(** The depth cap of [interpolate] is never what fails: the chain holds
    distinct keys of the scope, so a larger cap gives the same result. *)

Lemma expand_ext (f g : jsstring -> option jsstring) (segs : list segment) :
  (forall x, f x = g x) -> expand f segs = expand g segs.
Proof.
  intro H. induction segs as [|[c|name] segs IH]; cbn [expand];
    [reflexivity|rewrite IH; reflexivity|].
  rewrite H, IH. reflexivity.
Qed.

Lemma mem_string_In (k : jsstring) (ks : list jsstring) :
  mem_string k ks = true <-> In k ks.
Proof.
  induction ks as [|k' ks IH]; cbn [mem_string In]; [split; [discriminate|tauto]|].
  rewrite orb_true_iff, jseqb_eq, IH. tauto.
Qed.

Lemma lookup_key (V : Type) (o : dict V) (k : jsstring) (v : V) :
  lookup o k = Some v -> In k (ownKeys o).
Proof.
  intro H. apply lookup_In in H. unfold ownKeys.
  apply (in_map fst) in H. exact H.
Qed.

Lemma find_value_scope (s : store) (sec k raw : jsstring) :
  find_value s sec k = Some raw -> In k (scope_keys s sec).
Proof.
  unfold find_value, scope_keys, section_keys. intro H. apply in_or_app.
  destruct (lookup s sec) as [o|].
  - destruct (lookup o k) eqn:Ek; [left; eapply lookup_key; eassumption|].
    destruct (lookup s DEFAULT) as [d|]; [|discriminate].
    right. eapply lookup_key; eassumption.
  - destruct (lookup s DEFAULT) as [d|]; [|discriminate].
    right. eapply lookup_key; eassumption.
Qed.

Lemma depth_cap_immaterial (s : store) (sec : jsstring) (d : nat) :
  forall (chain : list jsstring) (k : jsstring) (extra : nat),
    NoDup chain -> incl chain (scope_keys s sec) ->
    List.length (scope_keys s sec) < d + List.length chain ->
    resolve s sec (d + extra) chain k = resolve s sec d chain k.
Proof.
  induction d as [|d IH]; intros chain k extra Hnd Hincl Hlen.
  - exfalso. pose proof (NoDup_incl_length Hnd Hincl). cbn in Hlen. lia.
  - cbn [plus resolve]. destruct (mem_string k chain) eqn:Hm; [reflexivity|].
    destruct (find_value s sec k) as [raw|] eqn:Hf; [|reflexivity].
    apply expand_ext. intro x. apply IH.
    + constructor; [|assumption]. intro Hin. apply mem_string_In in Hin. congruence.
    + intros y [<-|Hy]; [eapply find_value_scope; eassumption|auto].
    + cbn [List.length]. lia.
Qed.

Lemma interpolate_any_cap (cp : ConfigParser) (sec key raw : jsstring) (extra : nat) :
  find_value (_sections cp) sec key = Some raw ->
  interpolate cp sec key =
  match resolve (_sections cp) sec
                (S (List.length (scope_keys (_sections cp) sec)) + extra) [] key with
  | Some v => Return (VString v)
  | None => Throw InterpolationError
  end.
Proof.
  intro Hf. unfold interpolate. rewrite Hf.
  rewrite depth_cap_immaterial; [reflexivity|constructor|intros x []|cbn; lia].
Qed.


(** ** Serialization *)

Lemma fold_left_out (A : Type) (g : A -> jsstring) (l : list A) (acc : jsstring) :
  fold_left (fun out x => out ++ g x) l acc = acc ++ List.concat (List.map g l).
Proof.
  revert acc. induction l as [|x l IH]; intro acc; cbn [fold_left List.map List.concat].
  - rewrite app_nil_r. reflexivity.
  - rewrite IH, <- app_assoc. reflexivity.
Qed.

Lemma unlines_app (a b : list jsstring) : unlines (a ++ b) = unlines a ++ unlines b.
Proof. unfold unlines. rewrite map_app, concat_app. reflexivity. Qed.

Lemma unlines_cons (l : jsstring) (ls : list jsstring) :
  unlines (l :: ls) = l ++ 10%N :: unlines ls.
Proof.
  unfold unlines. cbn [List.map List.concat]. rewrite <- app_assoc. reflexivity.
Qed.

Lemma entries_lines (sec : section) :
  List.concat (List.map (fun kv : jsstring * jsstring =>
                           fst kv ++ lit "=" ++ snd kv ++ [10%N]) sec) =
  unlines (List.map entry_line sec).
Proof.
  induction sec as [|[k v] sec IH]; [reflexivity|].
  cbn [List.map List.concat]. rewrite unlines_cons, IH. unfold entry_line.
  cbn [fst snd]. change (lit "=") with [ch "="].
  repeat rewrite <- app_assoc. reflexivity.
Qed.

(** *** The order of property names *)

Section OrderFacts.
Variable V : Type.
Implicit Types (e x : jsstring * V) (l o : dict V).

Lemma insert_entry_perm e l : Permutation (insert_entry e l) (e :: l).
Proof.
  induction l as [|e' l IH]; cbn [insert_entry]; [reflexivity|].
  destruct (index_of_entry e <=? index_of_entry e')%N; [reflexivity|].
  rewrite IH. apply perm_swap.
Qed.

Lemma sort_entries_perm l : Permutation (sort_entries l) l.
Proof.
  induction l as [|e l IH]; [reflexivity|].
  unfold sort_entries in *. cbn [fold_right]. rewrite insert_entry_perm.
  constructor. exact IH.
Qed.

Lemma filter_split_perm (p : jsstring * V -> bool) l :
  Permutation (List.filter p l ++ List.filter (fun e => negb (p e)) l) l.
Proof.
  induction l as [|e l IH]; [reflexivity|]. cbn [List.filter].
  destruct (p e); cbn [negb app].
  - constructor. exact IH.
  - rewrite <- Permutation_middle. constructor. exact IH.
Qed.

Lemma enumerate_perm o : Permutation (enumerate o) o.
Proof.
  unfold enumerate. rewrite sort_entries_perm. apply filter_split_perm.
Qed.

Lemma enumerate_In x o : In x (enumerate o) <-> In x o.
Proof.
  split; apply Permutation_in; [|symmetry]; apply enumerate_perm.
Qed.

Lemma enumerate_NoDup o : NoDup (ownKeys o) -> NoDup (ownKeys (enumerate o)).
Proof.
  unfold ownKeys. intro H. eapply Permutation_NoDup; [|exact H].
  apply Permutation_map. symmetry. apply enumerate_perm.
Qed.

Lemma enumerate_Forall (P : jsstring * V -> Prop) o :
  Forall P o -> Forall P (enumerate o).
Proof.
  intro H. eapply Permutation_Forall; [|exact H]. symmetry. apply enumerate_perm.
Qed.

(** Without array indices among the names, the order is that of
    creation. *)
Lemma enumerate_no_index o :
  Forall (fun e => array_index (fst e) = None) o -> enumerate o = o.
Proof.
  intro H. unfold enumerate.
  assert (Hi : forall e, In e o -> is_index_entry e = false).
  { rewrite Forall_forall in H. intros e He. unfold is_index_entry.
    rewrite (H e He). reflexivity. }
  clear H.
  assert (H1 : List.filter is_index_entry o = []).
  { induction o as [|e l IH]; [reflexivity|]. cbn [List.filter].
    rewrite (Hi e (or_introl eq_refl)). apply IH.
    intros x Hx. apply Hi. right. exact Hx. }
  assert (H2 : List.filter (fun e => negb (is_index_entry e)) o = o).
  { induction o as [|e l IH]; [reflexivity|]. cbn [List.filter].
    rewrite (Hi e (or_introl eq_refl)). cbn [negb]. f_equal. apply IH.
    - intros x Hx. apply Hi. right. exact Hx.
    - cbn [List.filter] in H1. rewrite (Hi e (or_introl eq_refl)) in H1. exact H1. }
  rewrite H1, H2. reflexivity.
Qed.

Lemma In_lookup l (k : jsstring) (v : V) :
  NoDup (ownKeys l) -> In (k, v) l -> lookup l k = Some v.
Proof.
  induction l as [|[k' v'] l IH]; intros Hnd Hin; [destruct Hin|].
  change (ownKeys ((k', v') :: l)) with (k' :: ownKeys l) in Hnd.
  inversion Hnd as [|? ? Hnew Hnd']; subst. cbn [lookup].
  destruct Hin as [Hin|Hin].
  - injection Hin as -> ->. rewrite jseqb_refl. reflexivity.
  - destruct (jseqb k' k) eqn:E; [|auto].
    apply jseqb_eq in E. subst k'. exfalso. apply Hnew.
    unfold ownKeys. apply (in_map fst) in Hin. exact Hin.
Qed.
End OrderFacts.

Arguments enumerate_perm {V} o.
Arguments enumerate_In {V} x o.
Arguments enumerate_NoDup {V} o _.
Arguments enumerate_Forall {V} P o _.
Arguments enumerate_no_index {V} o _.
Arguments In_lookup {V} l k v _ _.

Lemma own_properties_In (e : jsstring * section) (s : store) :
  In e (own_properties s) <-> In e s /\ fst e <> proto_name.
Proof.
  unfold own_properties. rewrite filter_In, negb_true_iff, jseqb_neq. tauto.
Qed.

Lemma lookup_own_properties (s : store) (k : jsstring) :
  k <> proto_name -> lookup (own_properties s) k = lookup s k.
Proof.
  intro Hk. induction s as [|[k' o] s IH]; [reflexivity|].
  unfold own_properties in *. cbn [List.filter fst lookup].
  destruct (jseqb k' proto_name) eqn:E; cbn [negb lookup].
  - apply jseqb_eq in E. subst k'.
    destruct (jseqb proto_name k) eqn:E'; [|exact IH].
    apply jseqb_eq in E'. congruence.
  - destruct (jseqb k' k); [reflexivity|exact IH].
Qed.

Lemma own_properties_all (s : store) :
  prototype_of s = None -> own_properties s = s.
Proof.
  unfold prototype_of, own_properties. induction s as [|[k o] s IH]; [reflexivity|].
  cbn [lookup List.filter fst]. destruct (jseqb k proto_name); [discriminate|].
  intro H. cbn [negb]. rewrite IH by assumption. reflexivity.
Qed.

(** *** The serializer on a store without shadowing *)

Lemma bind_Return (A B : Type) (a : A) (f : A -> result B) :
  bind (Return a) f = f a.
Proof. reflexivity. Qed.

Lemma entries_text_lines (o : section) (out : jsstring) :
  NoDup (ownKeys o) -> has_own o hasOwnProperty_name = false ->
  entries_text o out = Return (out ++ unlines (List.map entry_line (enumerate o))).
Proof.
  intros Hnd Hsh. unfold entries_text, Object_keys.
  assert (H : forall E acc,
             (forall e, In e E -> In e o) ->
             fold_left
               (fun acc key =>
                  out <- acc ;;
                  b <- key_hasOwnProperty o key ;;
                  if b then
                    match lookup o key with
                    | Some value => Return (out ++ (key ++ lit "=" ++ value ++ [10%N]))
                    | None => Return out
                    end
                  else Return out)
               (ownKeys E) (Return acc) =
             Return (acc ++ unlines (List.map entry_line E))).
  { induction E as [|[k v] E IH]; intros acc HE.
    - cbn. rewrite app_nil_r. reflexivity.
    - change (ownKeys ((k, v) :: E)) with (k :: ownKeys E).
      cbn [fold_left bind]. rewrite key_hasOwnProperty_callable, Hsh.
      assert (Hl : lookup o k = Some v)
        by (apply In_lookup; [assumption|apply HE; left; reflexivity]).
      unfold has_own. rewrite Hl. cbn [bind].
      rewrite IH by (intros e He; apply HE; right; assumption).
      cbn [List.map]. rewrite unlines_cons. unfold entry_line. cbn [fst snd].
      change (lit "=") with [ch "="]. repeat rewrite <- app_assoc. reflexivity. }
  apply H. intros e He. apply (proj1 (enumerate_In e o)). assumption.
Qed.

Lemma store_lines_cons (n : jsstring) (o : section) (s : store) :
  unlines (store_lines ((n, o) :: s)) =
  (lit "[" ++ n ++ lit "]" ++ [10%N]) ++ unlines (List.map entry_line o) ++ [10%N]
  ++ unlines (store_lines s).
Proof.
  unfold store_lines. cbn [List.map List.concat]. rewrite unlines_app.
  unfold section_lines at 1, header_line. cbn [fst snd].
  rewrite unlines_cons, unlines_app, unlines_cons.
  change (lit "[") with [ch "["]. change (lit "]") with [ch "]"].
  change (unlines []) with (@nil code).
  repeat rewrite <- app_assoc. cbn [app]. repeat rewrite <- app_assoc.
  reflexivity.
Qed.

Lemma getSectionsAsString_lines (cp : ConfigParser) :
  unique_keys cp -> unshadowed (_sections cp) ->
  getSectionsAsString cp = Return (unlines (store_lines (canonical (_sections cp)))).
Proof.
  intros [Hnd Hsec] [Hcall Hsh]. unfold getSectionsAsString, for_in_names, canonical.
  set (s := _sections cp) in *.
  set (f := fun acc name =>
              out <- acc ;;
              b <- hasOwnProperty s name ;;
              if b then
                match own_section s name with
                | Some keys =>
                    out2 <- entries_text keys (out ++ (lit "[" ++ name ++ lit "]" ++ [10%N])) ;;
                    Return (out2 ++ [10%N])
                | None => Return out
                end
              else Return out).
  rewrite fold_left_app.
  assert (H1 : forall E acc,
             (forall e, In e E -> In e s /\ fst e <> proto_name) ->
             fold_left f (ownKeys E) (Return acc) =
             Return (acc ++ unlines (store_lines
                                       (List.map (fun e => (fst e, enumerate (snd e))) E)))).
  { induction E as [|[n o] E IH]; intros acc HE.
    - cbn. rewrite app_nil_r. reflexivity.
    - change (ownKeys ((n, o) :: E)) with (n :: ownKeys E).
      cbn [fold_left]. unfold f at 2. cbn [bind].
      destruct (HE (n, o) (or_introl eq_refl)) as [Hin Hn]. cbn [fst] in Hn.
      assert (Hl : lookup s n = Some o) by (apply In_lookup; assumption).
      assert (Ho : own_section s n = Some o) by (apply own_section_lookup; auto).
      rewrite hasOwnProperty_callable, Hcall, Ho. cbn [bind].
      rewrite entries_text_lines by eauto. cbn [bind].
      rewrite IH by (intros e He; apply HE; right; assumption).
      cbn [List.map fst snd]. rewrite store_lines_cons.
      repeat rewrite <- app_assoc. reflexivity. }
  unfold Object_keys. rewrite H1.
  2:{ intros e He. apply (proj1 (enumerate_In e _)) in He.
      apply (proj1 (own_properties_In e s)). assumption. }
  cbn [app].
  assert (H2 : forall names acc,
             (forall k, In k names -> own_section s k = None) ->
             fold_left f names (Return acc) = Return acc).
  { induction names as [|k names IH]; intros acc Hk; [reflexivity|].
    cbn [fold_left]. unfold f at 2. cbn [bind].
    rewrite hasOwnProperty_callable, Hcall, (Hk k (or_introl eq_refl)). cbn [bind].
    apply IH. intros k' Hk'. apply Hk. right. assumption. }
  apply H2. intros k Hk. destruct (prototype_of s) as [p|]; [|destruct Hk].
  apply filter_In in Hk. destruct Hk as [_ Hk]. apply negb_true_iff in Hk.
  unfold own_section. destruct (jseqb k proto_name) eqn:E; [reflexivity|].
  apply jseqb_neq in E. rewrite <- lookup_own_properties by assumption.
  unfold has_own in Hk. destruct (lookup (own_properties s) k); [discriminate|reflexivity].
Qed.

Lemma split_lines_line (l rest : jsstring) :
  line_clean l = true -> split_lines (l ++ 10%N :: rest) = l :: split_lines rest.
Proof.
  intro Hl. induction l as [|c l IH].
  - reflexivity.
  - cbn [line_clean forallb] in Hl. apply andb_true_iff in Hl.
    destruct Hl as [Hc Hl]. apply negb_true_iff in Hc.
    cbn [app split_lines].
    destruct (code_eqb c 13%N) eqn:E.
    { apply code_eqb_eq in E. subst c. discriminate. }
    rewrite Hc. rewrite (IH Hl). reflexivity.
Qed.

Lemma split_unlines (ls : list jsstring) :
  Forall (fun l => line_clean l = true) ls -> split_lines (unlines ls) = ls ++ [[]].
Proof.
  induction 1 as [|l ls Hl Hls IH].
  - reflexivity.
  - unfold unlines. cbn [List.map List.concat]. fold (unlines ls).
    rewrite <- app_assoc. cbn [app]. rewrite split_lines_line by assumption.
    rewrite IH. reflexivity.
Qed.

(** ** Lexical structure *)

Section LexFold.
Variable A : Type.
Variable F : A -> code -> A.
Hypothesis F_alike :
  forall a c c', special c = false -> special c' = false -> F a c = F a c'.
Hypothesis F_idem :
  forall a c c', special c = false -> special c' = false -> F (F a c) c' = F a c.

Local Abbreviation fold_skel := (fold_skel F).

Lemma fold_skeleton (s : jsstring) (a : A) :
  fold_left F s a = fold_skel (skeleton s) a.
Proof.
  revert a. induction s as [|c s IH]; intro a; [reflexivity|].
  cbn [skeleton fold_left]. destruct (special c) eqn:Hc.
  - unfold fold_skel. cbn [fold_left]. apply IH.
  - destruct s as [|d s'].
    + unfold fold_skel. cbn [fold_left]. apply F_alike; [assumption|reflexivity].
    + pose proof (IH (F a c)) as IH1. destruct (special d) eqn:Hd.
      * change (fold_skel (None :: skeleton (d :: s')) a)
          with (fold_skel (skeleton (d :: s')) (F a (ch "x"))).
        rewrite IH1. rewrite (F_alike a c (ch "x")); [reflexivity|assumption|reflexivity].
      * rewrite <- (IH a). cbn [fold_left].
        rewrite F_idem by assumption.
        rewrite (F_alike a c d) by assumption. reflexivity.
Qed.

Lemma lex_fold (s s' : jsstring) (a : A) :
  skeleton s = skeleton s' -> fold_left F s a = fold_left F s' a.
Proof. intro H. rewrite !fold_skeleton, H. reflexivity. Qed.
End LexFold.

Lemma special_space (c : code) : special c = false -> is_space c = false.
Proof.
  unfold special. intro H. apply orb_false_iff in H. destruct H as [H _].
  apply orb_false_iff in H. tauto.
Qed.

Lemma special_boundary (c : code) : special c = false -> is_line_boundary c = false.
Proof.
  unfold special. intro H. apply orb_false_iff in H. destruct H as [H _].
  apply orb_false_iff in H. tauto.
Qed.

Lemma special_mark (c : code) :
  special c = false ->
  mem_code c [ch "["; ch "]"; ch "="; ch ":"; ch ";"; ch "#"] = false.
Proof. unfold special. intro H. apply orb_false_iff in H. tauto. Qed.

Lemma special_not (c d : code) :
  special c = false ->
  In d [ch "["; ch "]"; ch "="; ch ":"; ch ";"; ch "#"] -> code_eqb c d = false.
Proof.
  intros H Hin. destruct (code_eqb c d) eqn:E; [|reflexivity].
  apply code_eqb_eq in E. subst d. apply special_mark in H.
  apply mem_code_In in Hin. congruence.
Qed.

Lemma skeleton_nil (s : jsstring) : skeleton s = [] -> s = [].
Proof.
  induction s as [|c s IH]; [reflexivity|]. cbn [skeleton].
  destruct (special c); [discriminate|].
  destruct s as [|d s']; [discriminate|].
  destruct (special d); [discriminate|]. intro H. apply IH in H. discriminate.
Qed.

Lemma skeleton_cons (c : code) (s : jsstring) :
  skeleton (c :: s) =
  if special c then Some c :: skeleton s
  else match s with
       | d :: _ => if special d then None :: skeleton s else skeleton s
       | [] => [None]
       end.
Proof. reflexivity. Qed.

Lemma skeleton_plain_head (c : code) (s : jsstring) :
  special c = false -> hd_error (skeleton (c :: s)) = Some None.
Proof.
  revert c. induction s as [|d s IH]; intros c Hc; rewrite skeleton_cons, Hc.
  - reflexivity.
  - destruct (special d) eqn:Hd; [reflexivity|]. apply IH. assumption.
Qed.

Lemma skeleton_head (s : jsstring) :
  hd_error (skeleton s) =
  match s with
  | c :: _ => Some (if special c then Some c else None)
  | [] => None
  end.
Proof.
  destruct s as [|c s]; [reflexivity|]. destruct (special c) eqn:Hc.
  - cbn [skeleton]. rewrite Hc. reflexivity.
  - apply skeleton_plain_head. assumption.
Qed.

Lemma forallb_fold (p : code -> bool) (s : jsstring) (a : bool) :
  fold_left (fun a c => a && p c) s a = a && forallb p s.
Proof.
  revert a. induction s as [|c s IH]; intro a; cbn [fold_left forallb].
  - rewrite andb_true_r. reflexivity.
  - rewrite IH, andb_assoc. reflexivity.
Qed.

Lemma forallb_lex (p : code -> bool) (s s' : jsstring) :
  (forall c, special c = false -> p c = true) ->
  skeleton s = skeleton s' -> forallb p s = forallb p s'.
Proof.
  intros Hp H.
  pose proof (forallb_fold p s true) as H1. pose proof (forallb_fold p s' true) as H2.
  cbn [andb] in H1, H2. rewrite <- H1, <- H2.
  apply lex_fold; [| |assumption].
  - intros a c c' Hc Hc'. rewrite !Hp by assumption. reflexivity.
  - intros a c c' Hc Hc'. rewrite !Hp by assumption. rewrite !andb_true_r. reflexivity.
Qed.

Lemma last_space_lex (s s' : jsstring) :
  skeleton s = skeleton s' -> last_space s = last_space s'.
Proof.
  intro H. unfold last_space. apply lex_fold; [| |assumption].
  - intros a c c' Hc Hc'. rewrite !special_space by assumption. reflexivity.
  - intros a c c' Hc Hc'. rewrite !special_space by assumption. reflexivity.
Qed.

Lemma tok_run_lex (q : tstate) (s s' : jsstring) :
  skeleton s = skeleton s' -> tok_run q s = tok_run q s'.
Proof.
  intro H. unfold tok_run. apply lex_fold; [| |assumption].
  - intros a c c' Hc Hc'. unfold tok_step.
    rewrite !(special_not c), !(special_not c') by (assumption || (cbn; tauto)).
    reflexivity.
  - intros a c c' Hc Hc'. unfold tok_step.
    rewrite !(special_not c), !(special_not c') by (assumption || (cbn; tauto)).
    destruct a; reflexivity.
Qed.

Lemma first_ok_lex (s s' : jsstring) :
  skeleton s = skeleton s' -> first_ok s = first_ok s'.
Proof.
  intro H. pose proof (skeleton_head s) as H1. pose proof (skeleton_head s') as H2.
  rewrite H in H1. rewrite H1 in H2. unfold first_ok.
  destruct s as [|c s], s' as [|c' s']; try discriminate; [reflexivity|].
  injection H2 as H2.
  destruct (special c) eqn:Hc, (special c') eqn:Hc'; try discriminate.
  - injection H2 as ->. reflexivity.
  - rewrite !special_space by assumption.
    assert (Hm : forall x, special x = false -> mem_code x [ch ";"; ch "#"] = false).
    { intros x Hx. cbn [mem_code].
      rewrite !(special_not x) by (assumption || (cbn; tauto)). reflexivity. }
    rewrite !Hm by assumption. reflexivity.
Qed.

Lemma key_ok_lex (s s' : jsstring) :
  skeleton s = skeleton s' -> key_ok s = key_ok s'.
Proof.
  intro H. unfold key_ok, no_delimiter, line_clean.
  rewrite (first_ok_lex s s' H), (last_space_lex s s' H).
  rewrite (forallb_lex (fun c => negb (is_delimiter c)) s s'), 
          (forallb_lex (fun c => negb (is_line_boundary c)) s s'); try assumption.
  - reflexivity.
  - intros c Hc. rewrite special_boundary by assumption. reflexivity.
  - intros c Hc. unfold is_delimiter. cbn [mem_code].
    rewrite !(special_not c) by (assumption || (cbn; tauto)). reflexivity.
Qed.

(** *** The bracket automaton *)

Lemma tok_run_app (q : tstate) (a b : jsstring) :
  tok_run q (a ++ b) = tok_run (tok_run q a) b.
Proof. unfold tok_run. apply fold_left_app. Qed.

Lemma tok_run_Found (s : jsstring) : tok_run Found s = Found.
Proof. induction s as [|c s IH]; [reflexivity|]. exact IH. Qed.

Lemma tok_run_OpenN (s : jsstring) :
  tok_run OpenN s = if forallb not_close s then OpenN else Found.
Proof.
  induction s as [|c s IH]; [reflexivity|].
  change (tok_run OpenN (c :: s)) with (tok_run (tok_step OpenN c) s).
  cbn [tok_step forallb]. unfold not_close at 1. cbn [mem_code].
  rewrite orb_false_r. destruct (code_eqb c (ch "]")); cbn [negb andb].
  - apply tok_run_Found.
  - assumption.
Qed.

Lemma find_header_no_close (s : jsstring) :
  forallb not_close s = true -> find_header s = None.
Proof.
  intro H. destruct (find_header s) as [h|] eqn:E; [|reflexivity].
  destruct (find_header_inv _ _ E) as (_ & _ & a & b & ->).
  rewrite forallb_app in H. apply andb_true_iff in H. destruct H as [_ H].
  cbn [forallb] in H. apply andb_true_iff in H. destruct H as [_ H].
  rewrite forallb_app in H. apply andb_true_iff in H. destruct H as [_ H].
  cbn [forallb] in H. rewrite not_close_bracket in H. discriminate.
Qed.

Lemma bracket_name_cons (c : code) (s : jsstring) :
  not_close c = true ->
  bracket_name (c :: s) = if forallb not_close s then None else Some (c :: take_while not_close s).
Proof.
  intro Hc. unfold bracket_name. cbn [take_while drop_while]. rewrite Hc.
  induction s as [|d s IH]; [reflexivity|].
  cbn [drop_while forallb take_while].
  destruct (not_close d); cbn [andb]; [|reflexivity].
  destruct (drop_while not_close s); destruct (forallb not_close s);
    try discriminate; reflexivity.
Qed.

Lemma find_header_tok_both (s : jsstring) :
  (find_header s = None <-> tok_run Idle s <> Found) /\
  (bracket_name s = None /\ find_header s = None <-> tok_run Open0 s <> Found).
Proof.
  induction s as [|c s [IH1 IH2]].
  - split; (split; [discriminate|intros _; try split; reflexivity]).
  - split.
    + cbn [find_header header_at].
      change (tok_run Idle (c :: s)) with (tok_run (tok_step Idle c) s).
      cbn [tok_step]. destruct (code_eqb c (ch "[")).
      * rewrite <- IH2. destruct (bracket_name s); [|tauto].
        split; [discriminate|]. intros [H _]. discriminate.
      * assumption.
    + change (tok_run Open0 (c :: s)) with (tok_run (tok_step Open0 c) s).
      cbn [tok_step]. destruct (code_eqb c (ch "]")) eqn:Hc.
      * apply code_eqb_eq in Hc. subst c. rewrite <- IH1.
        cbn [find_header header_at]. change (code_eqb (ch "]") (ch "[")) with false.
        cbn iota. unfold bracket_name. cbn [take_while]. rewrite not_close_bracket.
        tauto.
      * assert (Hnc : not_close c = true).
        { unfold not_close. cbn [mem_code]. rewrite Hc. reflexivity. }
        rewrite bracket_name_cons by assumption. rewrite tok_run_OpenN.
        destruct (forallb not_close s) eqn:Hs.
        -- split; [discriminate|]. intros _. split; [reflexivity|].
           apply find_header_no_close. cbn [forallb]. rewrite Hnc, Hs. reflexivity.
        -- split; [intros [H _]; discriminate|]. intro H. exfalso. apply H. reflexivity.
Qed.

Lemma find_header_tok (s : jsstring) :
  find_header s = None <-> tok_run Idle s <> Found.
Proof. apply find_header_tok_both. Qed.

(** A run of code units that are no brackets acts as one of them. *)
Lemma tok_run_plain (q : tstate) (m : jsstring) :
  m <> [] ->
  forallb (fun c => negb (code_eqb c (ch "[")) && negb (code_eqb c (ch "]"))) m = true ->
  tok_run q m = tok_step q (ch "=").
Proof.
  intros Hne Hm.
  assert (Hstep : forall q c,
             negb (code_eqb c (ch "[")) && negb (code_eqb c (ch "]")) = true ->
             tok_step q c = tok_step q (ch "=")).
  { intros q0 c Hc. apply andb_true_iff in Hc. destruct Hc as [H1 H2].
    apply negb_true_iff in H1, H2. unfold tok_step. rewrite H1, H2.
    destruct q0; reflexivity. }
  destruct m as [|c m]; [contradiction|]. clear Hne.
  cbn [forallb] in Hm. apply andb_true_iff in Hm. destruct Hm as [Hc Hm].
  change (tok_run q (c :: m)) with (tok_run (tok_step q c) m).
  rewrite (Hstep q c Hc). clear Hc c.
  induction m as [|d m IH]; [reflexivity|].
  cbn [forallb] in Hm. apply andb_true_iff in Hm. destruct Hm as [Hd Hm].
  change (tok_run (tok_step q (ch "=")) (d :: m))
    with (tok_run (tok_step (tok_step q (ch "=")) d) m).
  rewrite (Hstep _ d Hd).
  replace (tok_step (tok_step q (ch "=")) (ch "=")) with (tok_step q (ch "="))
    by (destruct q; reflexivity).
  apply IH. assumption.
Qed.

(** *** Trailing white space *)

Lemma trim_end_split (a : jsstring) :
  exists w, a = trim_end a ++ w /\ forallb is_space w = true.
Proof.
  induction a as [|c a (w & Hw & Hsp)].
  - exists []. split; reflexivity.
  - cbn [trim_end]. destruct (forallb is_space (c :: a)) eqn:E.
    + exists (c :: a). split; [reflexivity|assumption].
    + exists w. split; [|assumption]. cbn [app]. rewrite <- Hw. reflexivity.
Qed.

Lemma last_space_app (a b : jsstring) :
  b <> [] -> last_space (a ++ b) = last_space b.
Proof.
  intro Hb. unfold last_space. rewrite fold_left_app.
  destruct b as [|c b]; [contradiction|]. reflexivity.
Qed.

Lemma last_space_trim_end (a : jsstring) : last_space (trim_end a) = false.
Proof.
  induction a as [|c a IH]; [reflexivity|].
  cbn [trim_end forallb]. destruct (is_space c) eqn:Hc; cbn [andb].
  - destruct (forallb is_space a) eqn:E; [reflexivity|].
    destruct (trim_end a) as [|d r] eqn:Ht.
    + exfalso. destruct (trim_end_split a) as (w & Hw & Hsp).
      rewrite Ht in Hw. cbn [app] in Hw. subst w. congruence.
    + change (c :: d :: r) with ([c] ++ d :: r). rewrite last_space_app by discriminate.
      assumption.
  - destruct (trim_end a) as [|d r] eqn:Ht.
    + unfold last_space. cbn [fold_left]. assumption.
    + change (c :: d :: r) with ([c] ++ d :: r). rewrite last_space_app by discriminate.
      assumption.
Qed.

Lemma trim_end_fixed (k : jsstring) : last_space k = false -> trim_end k = k.
Proof.
  induction k as [|c k IH]; [reflexivity|]. intro H.
  cbn [trim_end]. destruct (forallb is_space (c :: k)) eqn:E.
  - exfalso. clear IH. revert c E H. induction k as [|d k IHk]; intros c E H.
    + unfold last_space in H. cbn [fold_left] in H. cbn [forallb] in E.
      rewrite H in E. discriminate.
    + apply (IHk d).
      * cbn [forallb] in E. apply andb_true_iff in E. tauto.
      * change (c :: d :: k) with ([c] ++ d :: k) in H.
        rewrite last_space_app in H by discriminate. assumption.
  - f_equal. apply IH. destruct k as [|d k]; [reflexivity|].
    change (c :: d :: k) with ([c] ++ d :: k) in H.
    rewrite last_space_app in H by discriminate. assumption.
Qed.

(** ** Well-formed stores *)

Section AssignFacts.
Variable V : Type.
Implicit Types (o : dict V) (k : jsstring) (v : V).

Lemma assign_Forall (P : jsstring * V -> Prop) o k v :
  Forall P o -> P (k, v) -> Forall P (assign o k v).
Proof.
  intros Ho Hkv. induction Ho as [|[k' v'] o Hx Ho IH]; cbn [assign].
  - constructor; [assumption|constructor].
  - destruct (jseqb k' k) eqn:E.
    + apply jseqb_eq in E. subst k'. constructor; assumption.
    + constructor; assumption.
Qed.

Lemma ownKeys_assign o k v :
  ownKeys (assign o k v) =
  match lookup o k with Some _ => ownKeys o | None => ownKeys o ++ [k] end.
Proof.
  induction o as [|[k' v'] o IH]; cbn [assign lookup]; [reflexivity|].
  destruct (jseqb k' k) eqn:E; [reflexivity|].
  unfold ownKeys in *. cbn [List.map fst]. rewrite IH.
  destruct (lookup o k); reflexivity.
Qed.

Lemma assign_NoDup o k v : NoDup (ownKeys o) -> NoDup (ownKeys (assign o k v)).
Proof.
  intro H. rewrite ownKeys_assign. destruct (lookup o k) eqn:E; [assumption|].
  apply lookup_None in E. apply NoDup_app; [assumption|constructor; [tauto|constructor]|].
  intros x Hx [<-|[]]. contradiction.
Qed.
End AssignFacts.

Arguments assign_Forall {V} P o k v _ _.
Arguments ownKeys_assign {V} o k v.
Arguments assign_NoDup {V} o k v _.

Lemma line_clean_app (a b : jsstring) :
  line_clean (a ++ b) = line_clean a && line_clean b.
Proof. apply forallb_app. Qed.

Lemma clean_dot (s : jsstring) : line_clean s = true -> forallb is_dot s = true.
Proof.
  unfold line_clean. rewrite !forallb_forall. intros H c Hc. specialize (H c Hc).
  apply negb_true_iff in H. unfold is_dot. apply negb_true_iff.
  destruct (is_line_terminator c) eqn:E; [|reflexivity].
  apply mem_code_In in E. unfold is_line_boundary in H.
  assert (Hb : mem_code c [10; 13; 133; 8232; 8233]%N = true).
  { apply mem_code_In. cbn in E |- *. tauto. }
  congruence.
Qed.

Lemma header_extract (l h : jsstring) :
  line_clean l = true -> SECTION_exec l = Some h ->
  h <> [] /\ forallb not_close h = true /\ line_clean h = true.
Proof.
  intros Hl H. rewrite SECTION_exec_find in H.
  destruct (find_header_inv _ _ H) as (H1 & H2 & a & b & ->).
  split; [assumption|]. split; [assumption|].
  rewrite line_clean_app in Hl. apply andb_true_iff in Hl. destruct Hl as [_ Hl].
  change (ch "[" :: h ++ ch "]" :: b) with ([ch "["] ++ h ++ ch "]" :: b) in Hl.
  rewrite !line_clean_app in Hl. apply andb_true_iff in Hl. destruct Hl as [_ Hl].
  apply andb_true_iff in Hl. tauto.
Qed.

Lemma first_ok_facts (k : jsstring) :
  first_ok k = true -> k <> [] /\ trim_start k = k /\ starts_comment k = false.
Proof.
  destruct k as [|c k]; [discriminate|]. cbn [first_ok]. intro H.
  apply andb_true_iff in H. destruct H as [H1 H2]. apply negb_true_iff in H1, H2.
  split; [discriminate|]. split; [|assumption].
  unfold trim_start. cbn [drop_while]. rewrite H1. reflexivity.
Qed.

Lemma space_not_bracket (c : code) :
  is_space c = true \/ is_delimiter c = true ->
  negb (code_eqb c (ch "[")) && negb (code_eqb c (ch "]")) = true.
Proof.
  intro H. destruct (code_eqb c (ch "[")) eqn:E1.
  { apply code_eqb_eq in E1. subst c. destruct H as [H|H]; vm_compute in H; discriminate. }
  destruct (code_eqb c (ch "]")) eqn:E2; [|reflexivity].
  apply code_eqb_eq in E2. subst c. destruct H as [H|H]; vm_compute in H; discriminate.
Qed.

Lemma entry_extract (l k v : jsstring) :
  line_clean l = true -> trim_start l = l -> is_skipped l = false ->
  SECTION_exec l = None -> key_value l = Some (k, v) ->
  entry_ok (fun x => x) (k, v).
Proof.
  intros Hcl Hst Hsk Hsec Hkv. unfold key_value in Hkv.
  destruct (KEY_exec l) as [[k0 v0]|] eqn:Hke; [|discriminate].
  destruct (negb (jseqb k0 [])) eqn:Hk0; [|discriminate].
  cbn [andb] in Hkv. destruct (negb (jseqb (firstn 1 l) (lit "="))); [|discriminate].
  injection Hkv as -> ->. apply negb_true_iff, jseqb_neq in Hk0.
  rewrite KEY_exec_line in Hke by (assumption || apply clean_dot; assumption).
  destruct (key_at_inv _ _ _ (clean_dot _ Hcl) Hke)
    as (a & d & b & -> & Ha & Hd & -> & ->).
  destruct (trim_end_split a) as (w1 & Hw1 & Hsp1).
  pose proof (take_drop_while is_space b) as Hb.
  pose proof (take_while_all is_space b) as Hsp2.
  fold (trim_start b) in Hb.
  rewrite line_clean_app in Hcl. apply andb_true_iff in Hcl. destruct Hcl as [Hca Hcb].
  change (d :: b) with ([d] ++ b) in Hcb. rewrite line_clean_app in Hcb.
  apply andb_true_iff in Hcb. destruct Hcb as [_ Hcb].
  unfold entry_ok. cbn [fst snd]. split; [|split; [|split; [|reflexivity]]].
  - unfold key_ok. rewrite last_space_trim_end. cbn [negb].
    assert (Hfirst : first_ok (trim_end a) = true).
    { destruct a as [|c a']; [exfalso; apply Hk0; reflexivity|].
      unfold trim_start in Hst. cbn [app drop_while] in Hst.
      destruct (is_space c) eqn:Hc.
      - exfalso. pose proof (drop_while_head is_space (a' ++ d :: b)) as Hh.
        rewrite Hst in Hh. congruence.
      - cbn [trim_end forallb]. rewrite Hc. cbn [andb first_ok]. rewrite Hc.
        unfold is_skipped in Hsk. cbn [app] in Hsk.
        rewrite COMMENT_match_trim in Hsk. unfold trim_start in Hsk.
        cbn [drop_while] in Hsk. rewrite Hc in Hsk. cbn [starts_comment] in Hsk.
        rewrite Hsk. reflexivity. }
    rewrite Hfirst. cbn [andb].
    rewrite Hw1 in Ha, Hca. unfold no_delimiter in *. rewrite forallb_app in Ha.
    rewrite line_clean_app in Hca.
    apply andb_true_iff in Ha, Hca. destruct Ha as [-> _], Hca as [-> _]. reflexivity.
  - unfold value_ok. unfold trim_start.
    pose proof (drop_while_head is_space b) as Hh.
    rewrite (forallb_drop_while is_space _ b Hcb : line_clean (drop_while is_space b) = true).
    destruct (drop_while is_space b); [reflexivity|]. rewrite Hh. reflexivity.
  - rewrite SECTION_exec_find in Hsec. apply find_header_tok in Hsec.
    rewrite Hw1 in Hsec. rewrite <- Hb in Hsec.
    rewrite <- app_assoc in Hsec. rewrite tok_run_app in Hsec.
    change (w1 ++ d :: take_while is_space b ++ trim_start b)
      with (w1 ++ (d :: take_while is_space b) ++ trim_start b) in Hsec.
    rewrite app_assoc, tok_run_app in Hsec.
    rewrite (tok_run_plain _ (w1 ++ d :: take_while is_space b)) in Hsec.
    + exact Hsec.
    + destruct w1; discriminate.
    + rewrite forallb_app. cbn [forallb]. apply andb_true_iff. split; [|apply andb_true_iff; split].
      * rewrite forallb_forall in Hsp1 |- *. intros c Hc. apply space_not_bracket. auto.
      * apply space_not_bracket. auto.
      * rewrite forallb_forall in Hsp2 |- *. intros c Hc. apply space_not_bracket. auto.
Qed.

(** ** Round trip *)

Section RoundTrip.
Variables toUpperCase toLowerCase : jsstring -> jsstring.

Local Abbreviation parse_line := (parse_line toUpperCase toLowerCase).
Local Abbreviation forEach := (forEach toUpperCase toLowerCase).
Local Abbreviation transformKey := (transformKey toUpperCase toLowerCase).
Local Abbreviation stable := (transform_stable toUpperCase toLowerCase).

Lemma transformKey_inert (t : transform) :
  stable t -> lexically_inert (transformKey t).
Proof.
  destruct t; simpl; [intros _; split; reflexivity| |]; auto.
Qed.

Lemma name_ok_inert (T : jsstring -> jsstring) (h : jsstring) :
  lexically_inert T ->
  h <> [] -> forallb not_close h = true -> line_clean h = true ->
  name_ok T (T h).
Proof.
  intros [Hidem Hskel] Hne Hnc Hcl. unfold name_ok.
  split; [|split; [|split; [|apply Hidem]]].
  - intro E. apply Hne. apply skeleton_nil. rewrite <- Hskel, E. reflexivity.
  - rewrite <- Hnc. apply forallb_lex; [|apply Hskel].
    intros c Hc. unfold not_close. cbn [mem_code].
    rewrite (special_not c) by (assumption || (cbn; tauto)). reflexivity.
  - rewrite <- Hcl. apply forallb_lex; [|apply Hskel].
    intros c Hc. rewrite special_boundary by assumption. reflexivity.
Qed.

Lemma entry_ok_inert (T : jsstring -> jsstring) (k v : jsstring) :
  lexically_inert T -> entry_ok (fun x => x) (k, v) -> entry_ok T (T k, v).
Proof.
  intros [Hidem Hskel] (Hk & Hv & Ht & _). unfold entry_ok. cbn [fst snd] in *.
  split; [|split; [assumption|split; [|apply Hidem]]].
  - rewrite <- Hk. apply key_ok_lex. apply Hskel.
  - rewrite (tok_run_lex Idle (T k) k) by apply Hskel. assumption.
Qed.

Lemma store_ok_section (T : jsstring -> jsstring) (s : store) (n : jsstring) (o : section) :
  store_ok T s -> lookup s n = Some o -> name_ok T n /\ section_ok T o.
Proof.
  intros [_ Hs] Hl. apply lookup_In in Hl. rewrite Forall_forall in Hs.
  apply (Hs (n, o) Hl).
Qed.

Lemma parse_line_store_ok file cb t n line st st1 :
  stable t ->
  line_clean line = true -> trim_start line = line ->
  store_ok (transformKey t) (p_sections st) ->
  parse_line file cb t n line st = inl st1 ->
  store_ok (transformKey t) (p_sections st1).
Proof.
  intros Hst Hcl Htr Hok H. apply transformKey_inert in Hst.
  destruct (is_skipped line) eqn:Hs.
  { rewrite parse_line_skipped in H by assumption. injection H as <-. assumption. }
  destruct (SECTION_exec line) as [h|] eqn:Hh.
  { rewrite (parse_line_header _ _ _ _ _ _ _ _ _ Hs Hh) in H. injection H as <-.
    cbn [p_sections]. destruct Hok as [Hnd Hall]. split.
    - apply assign_NoDup. assumption.
    - apply (assign_Forall
               (fun sk => name_ok (transformKey t) (fst sk) /\
                          section_ok (transformKey t) (snd sk))); [assumption|].
      cbn [fst snd]. destruct (header_extract _ _ Hcl Hh) as (H1 & H2 & H3). split.
      + apply name_ok_inert; assumption.
      + split; [constructor|]. split; [constructor|reflexivity]. }
  destruct (p_curSec st) as [cur|] eqn:Hc;
    [|rewrite parse_line_no_section in H by assumption; discriminate].
  destruct (key_value line) as [[key value]|] eqn:Hk.
  - rewrite (parse_line_key_value _ _ _ _ _ _ _ _ _ _ _ Hs Hh Hc Hk) in H.
    injection H as <-. cbn [p_sections]. unfold assign_in.
    destruct (lookup (p_sections st) cur) as [o|] eqn:Ho; [|assumption].
    destruct (store_ok_section _ _ _ _ Hok Ho) as (Hname & Hnd & Hent & Hpr).
    destruct Hok as [Hsnd Hall]. split.
    + apply assign_NoDup. assumption.
    + apply (assign_Forall
               (fun sk => name_ok (transformKey t) (fst sk) /\
                          section_ok (transformKey t) (snd sk))); [assumption|].
      cbn [fst snd]. split; [assumption|].
      unfold put, has_own. destruct (jseqb (transformKey t key) proto_name) eqn:Ep.
      { apply jseqb_eq in Ep. rewrite Ep, Hpr. cbn [negb andb].
        split; [assumption|]. split; assumption. }
      cbn [andb]. split; [|split].
      * apply assign_NoDup. assumption.
      * apply assign_Forall; [assumption|].
        apply entry_ok_inert; [assumption|].
        eapply entry_extract; eassumption.
      * rewrite lookup_assign_other; [assumption|]. apply jseqb_neq. assumption.
  - assert (Hi : is_invalid line = true)
      by (unfold is_invalid; rewrite Hs, Hh, Hk; reflexivity).
    rewrite (parse_line_invalid _ _ _ _ _ _ _ _ _ Hi Hc) in H.
    destruct cb; [|discriminate]. injection H as <-. assumption.
Qed.

Lemma forEach_store_ok file cb t (ls : list jsstring) n st :
  stable t ->
  Forall (fun l => line_clean l = true /\ trim_start l = l) ls ->
  store_ok (transformKey t) (p_sections st) ->
  store_ok (transformKey t) (p_sections (fst (forEach file cb t ls n st))).
Proof.
  intros Hst Hls. revert n st. induction Hls as [|l ls [Hcl Htr] Hls IH];
    intros n st Hok; [assumption|].
  cbn [forEach].
  destruct (parse_line file cb t n l st) as [st1|e] eqn:Hl; [|assumption].
  apply IH. eapply parse_line_store_ok; eassumption.
Qed.

Lemma split_lines_clean (text : jsstring) :
  Forall (fun l => line_clean l = true) (split_lines text).
Proof.
  assert (H : forall n text, List.length text <= n ->
                             Forall (fun l => line_clean l = true) (split_lines text)).
  { induction n as [|n IH]; intros [|c s] Hn; cbn [List.length] in Hn;
      try (constructor; [reflexivity|constructor]); [lia|].
    cbn [split_lines]. destruct (code_eqb c 13%N) eqn:Ec.
    - destruct s as [|d s']; [constructor; [reflexivity|apply IH; cbn; lia]|].
      destruct (code_eqb d 10%N); (constructor; [reflexivity|]); apply IH;
        cbn [List.length] in *; lia.
    - destruct (is_line_boundary c) eqn:Eb.
      + constructor; [reflexivity|]. apply IH. lia.
      + assert (Hs : Forall (fun l => line_clean l = true) (split_lines s))
          by (apply IH; lia).
        destruct (split_lines s) as [|l ls].
        * constructor; [|constructor]. cbn [line_clean forallb]. rewrite Eb. reflexivity.
        * inversion Hs as [|? ? Hl Hls]; subst. constructor; [|assumption].
          cbn [line_clean forallb]. rewrite Eb. exact Hl. }
  apply (H (List.length text)). apply Nat.le_refl.
Qed.

Lemma stripped_lines (text : jsstring) :
  Forall (fun l => line_clean l = true /\ trim_start l = l)
         (List.map strip_leading (split_lines text)).
Proof.
  apply Forall_map. eapply Forall_impl; [|apply split_lines_clean].
  intros l Hl. rewrite strip_leading_trim. split.
  - apply forallb_drop_while. assumption.
  - apply drop_while_idem.
Qed.
Lemma entry_replay (T : jsstring -> jsstring) (k v : jsstring) :
  entry_ok T (k, v) ->
  strip_leading (entry_line (k, v)) = entry_line (k, v) /\
  is_skipped (entry_line (k, v)) = false /\
  SECTION_exec (entry_line (k, v)) = None /\
  key_value (entry_line (k, v)) = Some (k, v) /\
  line_clean (entry_line (k, v)) = true /\ T k = k.
Proof.
  unfold entry_ok, entry_line, key_ok, value_ok. cbn [fst snd].
  intros (Hk & Hv & Htok & HT).
  apply andb_true_iff in Hk. destruct Hk as [Hk Hkc].
  apply andb_true_iff in Hk. destruct Hk as [Hk Hkl].
  apply andb_true_iff in Hk. destruct Hk as [Hkf Hkd].
  apply negb_true_iff in Hkl. apply andb_true_iff in Hv. destruct Hv as [Hvh Hvc].
  destruct (first_ok_facts k Hkf) as (Hne & Hts & Hcm).
  assert (Hcl : line_clean (k ++ ch "=" :: v) = true).
  { rewrite line_clean_app, Hkc. cbn [line_clean forallb andb]. exact Hvc. }
  destruct (key_value_line k (ch "=") v eq_refl Hkd Hne Hts Hcm (clean_dot _ Hcl))
    as (H1 & H2 & H3).
  split; [assumption|]. split; [assumption|]. split; [|split; [|split; assumption]].
  - rewrite SECTION_exec_find. apply find_header_tok. rewrite tok_run_app. assumption.
  - rewrite H3, (trim_end_fixed k Hkl). unfold trim_start.
    rewrite drop_while_fixed; [reflexivity|].
    destruct v; [exact I|]. apply negb_true_iff. assumption.
Qed.

Lemma header_replay (T : jsstring -> jsstring) (n : jsstring) :
  name_ok T n ->
  strip_leading (header_line n) = header_line n /\
  is_skipped (header_line n) = false /\
  SECTION_exec (header_line n) = Some n /\
  line_clean (header_line n) = true /\ T n = n.
Proof.
  intros (Hne & Hnc & Hcl & HT).
  destruct (header_line_intro [] n [] eq_refl Hne Hnc) as (H1 & H2 & H3).
  unfold header_line. cbn [app] in H1.
  split; [assumption|]. split; [|split; [assumption|split; [|assumption]]].
  - unfold is_header in H2. apply andb_true_iff in H2. destruct H2 as [H2 _].
    apply negb_true_iff in H2. assumption.
  - change (ch "[" :: n ++ [ch "]"]) with ([ch "["] ++ n ++ [ch "]"]).
    rewrite !line_clean_app, Hcl. reflexivity.
Qed.

Lemma NoDup_keys_last (V : Type) (a : dict V) (k : jsstring) (v : V) (b : dict V) :
  NoDup (ownKeys (a ++ (k, v) :: b)) -> lookup a k = None.
Proof.
  intro H. apply lookup_None. unfold ownKeys in *. rewrite map_app in H.
  cbn [List.map fst] in H. apply NoDup_remove_2 in H.
  intro Hin. apply H. apply in_or_app. left. assumption.
Qed.

Lemma lookup_None_Forall (V : Type) (o : dict V) (k : jsstring) :
  lookup o k = None -> Forall (fun kv => fst kv <> k) o.
Proof.
  intro H. apply lookup_None in H. apply Forall_forall. intros [k' v] Hin E.
  cbn [fst] in E. subst k'. apply H. unfold ownKeys.
  apply (in_map fst) in Hin. exact Hin.
Qed.

Lemma replay_entries file cb t (s1 : store) (n : jsstring) (e2 : section) :
  forall (e1 : section) (i : nat) (calls : list line_info),
    lookup s1 n = None ->
    NoDup (ownKeys (e1 ++ e2)) ->
    Forall (entry_ok (transformKey t)) e2 ->
    Forall (fun kv => fst kv <> proto_name) e2 ->
    forEach file cb t (List.map entry_line e2) i
            {| p_sections := s1 ++ [(n, e1)]; p_curSec := Some n; p_calls := calls |} =
    ({| p_sections := s1 ++ [(n, e1 ++ e2)]; p_curSec := Some n; p_calls := calls |},
     None).
Proof.
  induction e2 as [|[k v] e2 IH]; intros e1 i calls Hn Hnd Hok Hpr.
  - cbn [List.map forEach]. rewrite app_nil_r. reflexivity.
  - inversion Hok as [|? ? Hkv Hok']; subst.
    inversion Hpr as [|? ? Hk Hpr']; subst. cbn [fst] in Hk.
    destruct (entry_replay _ _ _ Hkv) as (_ & Hsk & Hsec & Hkey & _ & HT).
    cbn [List.map forEach].
    rewrite (parse_line_key_value _ _ _ _ _ _ _
               {| p_sections := s1 ++ [(n, e1)]; p_curSec := Some n; p_calls := calls |}
               n k v Hsk Hsec eq_refl Hkey).
    cbn [p_sections p_calls]. unfold assign_in.
    rewrite lookup_last by assumption. rewrite assign_last by assumption.
    rewrite HT. rewrite put_assign by assumption.
    rewrite assign_new by (eapply NoDup_keys_last; eassumption).
    specialize (IH (e1 ++ [(k, v)]) (S i) calls Hn).
    rewrite <- app_assoc in IH. cbn [app] in IH. apply IH; assumption.
Qed.

Lemma replay_sections file cb t (s2 : store) :
  forall (s1 : store) (i : nat) (c : option jsstring) (calls : list line_info),
    NoDup (ownKeys (s1 ++ s2)) ->
    Forall (fun sk => name_ok (transformKey t) (fst sk) /\
                      section_ok (transformKey t) (snd sk)) s2 ->
    forEach file cb t (store_lines s2) i
            {| p_sections := s1; p_curSec := c; p_calls := calls |} =
    ({| p_sections := s1 ++ s2;
        p_curSec := fold_left (fun _ sk => Some (fst sk)) s2 c;
        p_calls := calls |}, None).
Proof.
  induction s2 as [|[n sec] s2 IH]; intros s1 i c calls Hnd Hok.
  - cbn. rewrite app_nil_r. reflexivity.
  - inversion Hok as [|? ? (Hname & Hsnd & Hent & Hpr) Hok']; subst. cbn [fst snd] in *.
    destruct (header_replay _ _ Hname) as (_ & Hsk & Hsec & _ & HT).
    pose proof (NoDup_keys_last _ _ _ _ _ Hnd) as Hnone.
    apply lookup_None_Forall in Hpr.
    unfold store_lines. cbn [List.map List.concat]. fold (store_lines s2).
    unfold section_lines at 1. cbn [fst snd app forEach].
    rewrite (parse_line_header _ _ _ _ _ _ _ _ n Hsk Hsec).
    cbn [p_sections p_calls]. rewrite HT. rewrite assign_new by assumption.
    rewrite <- app_assoc. rewrite forEach_app.
    rewrite (replay_entries file cb t s1 n sec [] (S i) calls Hnone Hsnd Hent Hpr).
    cbn [app forEach].
    rewrite parse_line_skipped by reflexivity.
    rewrite IH; [|rewrite <- app_assoc; exact Hnd|assumption].
    rewrite <- app_assoc. reflexivity.
Qed.

Lemma store_lines_ok (T : jsstring -> jsstring) (s : store) :
  store_ok T s ->
  Forall (fun l => line_clean l = true /\ strip_leading l = l) (store_lines s).
Proof.
  intros [_ Hs]. unfold store_lines.
  induction Hs as [|[n sec] s (Hn & _ & Hent & _) Hs IH]; [constructor|].
  cbn [List.map List.concat]. apply Forall_app. split; [|assumption].
  unfold section_lines. cbn [fst snd] in *. constructor.
  - destruct (header_replay _ _ Hn) as (H1 & _ & _ & H2 & _). auto.
  - apply Forall_app. split; [|constructor; [split; reflexivity|constructor]].
    apply Forall_map. eapply Forall_impl; [|exact Hent].
    intros [k v] Hkv. destruct (entry_replay _ _ _ Hkv) as (H1 & _ & _ & _ & H2 & _).
    auto.
Qed.

Lemma filter_keys_NoDup (V : Type) (p : jsstring * V -> bool) (l : dict V) :
  NoDup (ownKeys l) -> NoDup (ownKeys (List.filter p l)).
Proof.
  unfold ownKeys. induction l as [|e l IH]; intro H; [constructor|].
  cbn [List.map] in H. inversion H as [|? ? Hnew Hnd]; subst.
  cbn [List.filter]. destruct (p e); [|auto].
  cbn [List.map]. constructor; [|auto].
  intro Hin. apply Hnew. apply in_map_iff in Hin. destruct Hin as (x & Hx & Hin).
  apply filter_In in Hin. rewrite <- Hx. apply in_map. tauto.
Qed.

Lemma lookup_enumerate_None (V : Type) (o : dict V) (k : jsstring) :
  lookup o k = None -> lookup (enumerate o) k = None.
Proof.
  rewrite !lookup_None. intros H Hin. apply H. unfold ownKeys in *.
  eapply Permutation_in; [|exact Hin]. apply Permutation_map. apply enumerate_perm.
Qed.

Lemma store_ok_canonical (T : jsstring -> jsstring) (s : store) :
  store_ok T s -> store_ok T (canonical s).
Proof.
  intros [Hnd Hall]. unfold canonical. split.
  - unfold ownKeys. rewrite map_map. cbn [fst].
    apply (enumerate_NoDup (own_properties s)).
    apply filter_keys_NoDup. assumption.
  - apply Forall_map. apply enumerate_Forall. unfold own_properties.
    apply Forall_forall. intros e He. apply filter_In in He. destruct He as [He _].
    rewrite Forall_forall in Hall. destruct (Hall e He) as (Hn & Hk & He' & Hp).
    cbn [fst snd]. split; [assumption|]. split; [|split].
    + apply enumerate_NoDup. assumption.
    + apply enumerate_Forall. assumption.
    + apply lookup_enumerate_None. assumption.
Qed.

Lemma canonical_plain (s : store) :
  prototype_of s = None -> no_index_names s -> canonical s = s.
Proof.
  intros Hp Hi. unfold canonical. rewrite own_properties_all by assumption.
  rewrite enumerate_no_index
    by (eapply Forall_impl; [|exact Hi]; intros e [He _]; exact He).
  induction Hi as [|[n o] s [_ Ho] Hs IH]; [reflexivity|].
  cbn [List.map fst snd] in *. rewrite enumerate_no_index by assumption.
  f_equal. apply IH. unfold prototype_of in *. cbn [lookup] in Hp.
  destruct (jseqb n proto_name); [discriminate|assumption].
Qed.

(** X20: the store read from a text that parses without error, written
    out by the serializer (which throws nothing when no section and no key
    is named [hasOwnProperty]) and read again by a parser of the same
    configuration, is read without error and without any call to the
    callback, and gives the sections that are properties, with their keys
    and raw values, listed in the order of the language: array indices
    first, in ascending order; without array indices among the names and
    without a header named [__proto__], it is the same store in the same
    order.  A configured case mapping is taken to be lexically inert. *)
Theorem serialize_parse_roundtrip (o : options) (file : file_ref) (text : jsstring)
        (cp : ConfigParser) (calls : list line_info) :
  transform_stable toUpperCase toLowerCase
                   (match opt_transform o with Some t => t | None => TNone end) ->
  read toUpperCase toLowerCase (new_ConfigParser o) file text = (cp, calls, None) ->
  unshadowed (_sections cp) ->
  forall file',
  exists out cp',
    getSectionsAsString cp = Return out /\
    read toUpperCase toLowerCase (new_ConfigParser o) file' out = (cp', [], None) /\
    _sections cp' = canonical (_sections cp) /\
    (prototype_of (_sections cp) = None -> no_index_names (_sections cp) ->
     _sections cp' = _sections cp).
Proof.
  set (t := match opt_transform o with Some t => t | None => TNone end).
  intros Hst Hread Hsh file'.
  assert (Hok : store_ok (transformKey t) (_sections cp)).
  { unfold read, parseLines in Hread.
    cbn [new_ConfigParser _file _transform _onInvalidLine _sections] in Hread.
    fold t in Hread.
    pose proof (forEach_store_ok (Some file) (opt_onInvalidLine o) t
                  (List.map strip_leading (split_lines text)) 0
                  {| p_sections := []; p_curSec := None; p_calls := [] |}
                  Hst (stripped_lines text)) as H.
    destruct (forEach (Some file) (opt_onInvalidLine o) t
                      (List.map strip_leading (split_lines text)) 0
                      {| p_sections := []; p_curSec := None; p_calls := [] |})
      as [st e].
    injection Hread as <- _ _. cbn [_sections fst] in *. apply H.
    split; constructor. }
  assert (Huniq : unique_keys cp).
  { split; [exact (proj1 Hok)|]. intros sec o' Hl.
    destruct (store_ok_section _ _ _ _ Hok Hl) as (_ & Hnd & _). exact Hnd. }
  pose proof (store_ok_canonical _ _ Hok) as Hokc.
  pose proof (store_lines_ok _ _ Hokc) as Hlines.
  destruct Hokc as [Hnd Hall].
  pose proof (replay_sections (Some file') (opt_onInvalidLine o) t
                (canonical (_sections cp)) [] 0 None [] Hnd Hall) as Hrun.
  exists (unlines (store_lines (canonical (_sections cp)))). eexists.
  split; [apply getSectionsAsString_lines; assumption|].
  unfold read, parseLines.
  cbn [new_ConfigParser _file _transform _onInvalidLine _sections].
  fold t.
  rewrite split_unlines
    by (eapply Forall_impl; [|exact Hlines]; intros l [Hl _]; exact Hl).
  rewrite map_app.
  replace (List.map strip_leading (store_lines (canonical (_sections cp))))
    with (store_lines (canonical (_sections cp))).
  2:{ clear - Hlines. induction Hlines as [|l ls [_ Hl] _ IH]; [reflexivity|].
      cbn [List.map]. rewrite Hl, <- IH. reflexivity. }
  rewrite forEach_app, Hrun. cbn [List.map forEach app].
  rewrite parse_line_skipped by reflexivity.
  cbn [p_sections p_calls _sections]. split; [reflexivity|]. split; [reflexivity|].
  intros Hp Hi. apply canonical_plain; assumption.
Qed.
End RoundTrip.

(** ** The ASCII case mappings are lexically inert *)

Lemma special_cases (c : code) :
  special c = true ->
  In c [9; 10; 11; 12; 13; 32; 160; 5760; 8232; 8233; 8239; 8287; 12288; 65279;
        133; 91; 93; 61; 58; 59; 35]%N \/ (8192 <= c <= 8202)%N.
Proof.
  unfold special, is_space, is_line_boundary. intro H.
  apply orb_true_iff in H. destruct H as [H|H].
  - apply orb_true_iff in H. destruct H as [H|H].
    + apply orb_true_iff in H. destruct H as [H|H].
      * apply mem_code_In in H. left. cbn in H |- *. tauto.
      * apply andb_true_iff in H. destruct H as [H1 H2].
        apply N.leb_le in H1, H2. right. lia.
    + apply mem_code_In in H. left. cbn in H |- *. tauto.
  - apply mem_code_In in H. left. cbn in H |- *. tauto.
Qed.

Lemma letter_plain (c : code) :
  (65 <= c <= 90)%N \/ (97 <= c <= 122)%N -> special c = false.
Proof.
  intro H. destruct (special c) eqn:E; [|reflexivity]. exfalso.
  apply special_cases in E. cbn [In] in E.
  repeat match goal with
         | H : _ \/ _ |- _ => destruct H
         | H : False |- _ => destruct H
         end; subst; lia.
Qed.

Lemma skeleton_map (f : code -> code) (s : jsstring) :
  (forall c, special c = true -> f c = c) ->
  (forall c, special c = false -> special (f c) = false) ->
  skeleton (List.map f s) = skeleton s.
Proof.
  intros Hs Hp. induction s as [|c s IH]; [reflexivity|].
  cbn [List.map]. rewrite !skeleton_cons. destruct (special c) eqn:Hc.
  - rewrite (Hs c Hc), Hc, IH. reflexivity.
  - rewrite (Hp c Hc). destruct s as [|d s']; [reflexivity|].
    cbn [List.map] in *. destruct (special d) eqn:Hd.
    + rewrite (Hs d Hd) in IH |- *. rewrite Hd, IH. reflexivity.
    + rewrite (Hp d Hd). exact IH.
Qed.

Lemma ascii_upper_inert : lexically_inert ascii_upper.
Proof.
  assert (Hup : forall c, upper_code c = c \/
                          ((97 <= c <= 122)%N /\ upper_code c = (c - 32)%N)).
  { intro c. unfold upper_code.
    destruct (N.leb 97 c && N.leb c 122)%N eqn:E; [|left; reflexivity].
    apply andb_true_iff in E. destruct E as [E1 E2]. apply N.leb_le in E1, E2.
    right. split; [lia|reflexivity]. }
  split.
  - intro s. unfold ascii_upper. rewrite map_map. apply map_ext. intro c.
    destruct (Hup c) as [H|[Hr H]]; rewrite !H; [reflexivity|].
    unfold upper_code.
    destruct (N.leb 97 (c - 32) && N.leb (c - 32) 122)%N eqn:E; [|reflexivity].
    apply andb_true_iff in E. destruct E as [E1 E2]. apply N.leb_le in E1, E2. lia.
  - intro s. apply skeleton_map.
    + intros c Hc. destruct (Hup c) as [H|[Hr _]]; [assumption|].
      rewrite letter_plain in Hc by (right; assumption). discriminate.
    + intros c Hc. destruct (Hup c) as [H|[Hr H]]; rewrite H; [assumption|].
      apply letter_plain. left. lia.
Qed.

(** ** The properties on concrete inputs *)

Lemma absent_section_accessors_witness :
  hasSection spaced_value (lit "t") = Return false /\
  get spaced_value (lit "t") (lit "k") false = Return VUndefined /\
  set spaced_value (lit "t") (lit "k") (lit "1") = Return spaced_value.
Proof.
  split; [reflexivity|].
  pose proof (absent_section_accessors spaced_value (lit "t") (lit "k") (lit "1")
                eq_refl) as H.
  split; [exact (proj1 H false)|exact (proj1 (proj2 (proj2 (proj2 H))))].
Defined.

Lemma getInt_absent_witness :
  (hasSection spaced_value (lit "s") = Return true /\
   hasKey spaced_value (lit "s") (lit "toString") = Return false /\
   getInt spaced_value (lit "s") (lit "toString") None = Return VNaN) /\
  (hasSection spaced_value (lit "t") = Return false /\
   getInt spaced_value (lit "t") (lit "port") (Some 16%Z) = Return VUndefined).
Proof.
  split.
  - split; [reflexivity|]. split; [reflexivity|].
    apply (proj1 (getInt_absent spaced_value (lit "s") (lit "toString"))); reflexivity.
  - split; [reflexivity|].
    apply (proj2 (getInt_absent spaced_value (lit "t") (lit "port"))). reflexivity.
Defined.


Lemma missing_section_header_witness :
  Forall (fun l => is_header (strip_leading l) = false) [[]; lit "; note"] /\
  is_skipped (strip_leading (lit "  k=v")) = false /\
  SECTION_exec (strip_leading (lit "  k=v")) = None /\
  exists n l,
    parseLines ascii_upper ascii_lower plain_parser
               ([[]; lit "; note"] ++ lit "  k=v" :: [lit "[s]"]) =
      (initial_state plain_parser,
       Some (MissingSectionHeaderError (_file plain_parser) n l)) /\
    nth_error (List.map strip_leading ([[]; lit "; note"] ++ lit "  k=v" :: [lit "[s]"])) n
      = Some l /\
    n <= 2 /\
    (Forall (fun l => is_skipped (strip_leading l) = true) [[]; lit "; note"] ->
     n = 2 /\ l = strip_leading (lit "  k=v")) /\
    (forall f k x,
        snd (parseLines ascii_upper ascii_lower plain_parser
                        ([[]; lit "; note"] ++ lit "  k=v" :: [lit "[s]"]))
        <> Some (ParseError f k x)).
Proof.
  assert (H1 : Forall (fun l => is_header (strip_leading l) = false) [[]; lit "; note"])
    by (repeat constructor).
  split; [exact H1|]. split; [reflexivity|]. split; [reflexivity|].
  exact (missing_section_header ascii_upper ascii_lower plain_parser
           [[]; lit "; note"] (lit "  k=v") [lit "[s]"] H1 eq_refl eq_refl).
Defined.

Lemma invalid_line_policy_witness :
  (parseLines ascii_upper ascii_lower strict_parser [lit "[s]"] = (in_section, None) /\
   p_curSec in_section = Some (lit "s") /\
   is_invalid (strip_leading (lit " no delimiter")) = true /\
   parseLines ascii_upper ascii_lower strict_parser
              ([lit "[s]"] ++ lit " no delimiter" :: [lit "k=v"]) =
   (in_section, Some (ParseError (Some (Path (lit "conf.ini"))) 1 (lit "no delimiter")))) /\
  (parseLines ascii_upper ascii_lower lenient_parser
              ([lit "[s]"] ++ lit " no delimiter" :: [lit "k=v"]) =
   forEach ascii_upper ascii_lower (Some (Path (lit "conf.ini"))) true TNone [lit "k=v"] 2
           (with_call in_section
                      (LineInfo (Some (Path (lit "conf.ini"))) 1 (lit "no delimiter")))).
Proof.
  split.
  - split; [reflexivity|]. split; [reflexivity|]. split; [reflexivity|].
    exact (proj1 (invalid_line_policy ascii_upper ascii_lower strict_parser
                    [lit "[s]"] (lit " no delimiter") [lit "k=v"] in_section (lit "s")
                    eq_refl eq_refl eq_refl)).
  - exact (proj1 (invalid_line_policy ascii_upper ascii_lower lenient_parser
                    [lit "[s]"] (lit " no delimiter") [lit "k=v"] in_section (lit "s")
                    eq_refl eq_refl eq_refl)).
Defined.

Lemma transform_applied_uniformly_witness :
  lookup (_sections mixed) (lit "DB")
  = Some [(lit "HOST", lit "Local Host "); (lit "PORT", lit "80")] /\
  (exists line h,
      In line (List.map strip_leading (split_lines mixed_text)) /\
      is_header line = true /\ SECTION_exec line = Some h /\
      lit "DB" = transformKey ascii_upper ascii_lower TUpper h) /\
  (exists line key,
      In line (List.map strip_leading (split_lines mixed_text)) /\
      is_skipped line = false /\ SECTION_exec line = None /\
      key_value line = Some (key, lit "Local Host ") /\
      lit "HOST" = transformKey ascii_upper ascii_lower TUpper key) /\
  (exists sec,
      items mixed (transformKey ascii_upper ascii_lower TUpper (lit "Empty"))
      = VSection sec).
Proof.
  pose proof (transform_applied_uniformly ascii_upper ascii_lower
                (Options (Some TUpper) false) (Path (lit "conf.ini")) mixed_text) as H.
  cbv zeta in H. destruct H as (Hstored & Hheaders & _).
  destruct (Hstored (lit "DB") [(lit "HOST", lit "Local Host "); (lit "PORT", lit "80")]
                    eq_refl) as [Hname Hkeys].
  split; [reflexivity|]. split; [exact Hname|]. split.
  - exact (Hkeys (lit "HOST") (lit "Local Host ") eq_refl).
  - apply (Hheaders eq_refl (lit "[Empty]") (lit "Empty")); [|reflexivity|reflexivity].
    vm_compute. tauto.
Defined.

Lemma key_value_line_stored_witness :
  exists st sec,
    parseLines ascii_upper ascii_lower plain_parser
               (lit "[s]" :: [lit "a=1"] ++ (lit "k " ++ ch "=" :: lit " v ") :: [lit "b=2"]) =
      (st, None) /\
    get_section (p_sections st) (lit "s") = VSection sec /\
    get_key sec (lit "k") = MString (lit "v ").
Proof.
  apply (key_value_line_stored ascii_upper ascii_lower plain_parser (lit "[s]") (lit "s")
           [lit "a=1"] [lit "b=2"] (lit "k ") (ch "=") (lit " v ")).
  - reflexivity.
  - reflexivity.
  - repeat constructor.
  - repeat constructor.
  - constructor; [|constructor]. intros _ k2 v2 H.
    vm_compute in H. injection H as <- _. discriminate.
  - reflexivity.
  - reflexivity.
  - discriminate.
  - reflexivity.
  - reflexivity.
  - reflexivity.
  - reflexivity.
  - discriminate.
  - discriminate.
Defined.

Lemma header_line_shape_witness :
  (is_header (strip_leading (lit "  " ++ ch "[" :: lit "a b" ++ ch "]" :: lit " ; rest")) = true /\
   SECTION_exec (strip_leading (lit "  " ++ ch "[" :: lit "a b" ++ ch "]" :: lit " ; rest"))
   = Some (lit "a b") /\
   parse_line ascii_upper ascii_lower None false TLower 0
              (strip_leading (lit "  " ++ ch "[" :: lit "a b" ++ ch "]" :: lit " ; rest"))
              in_section =
   inl {| p_sections := assign (p_sections in_section) (lit "a b") [];
          p_curSec := Some (lit "a b");
          p_calls := p_calls in_section |}) /\
  (lit "name" <> [] /\ forallb not_close (lit "name") = true /\
   exists a b, lit "[name]" = a ++ ch "[" :: lit "name" ++ ch "]" :: b).
Proof.
  pose proof (header_line_shape ascii_upper ascii_lower None false TLower 0 in_section)
    as [Hintro Hinv].
  split.
  - exact (Hintro (lit "  ") (lit "a b") (lit " ; rest") eq_refl
                  ltac:(discriminate) eq_refl).
  - exact (Hinv (lit "[name]") (lit "name") eq_refl).
Defined.

Lemma unshadowed_forallb (s : store) :
  callable s = true ->
  forallb (fun e : jsstring * section => negb (has_own (snd e) hasOwnProperty_name)) s
  = true ->
  unshadowed s.
Proof.
  intros Hc H. split; [assumption|]. intros name o Hl. apply lookup_In in Hl.
  rewrite forallb_forall in H. apply negb_true_iff. apply (H (name, o) Hl).
Qed.

Lemma serialize_parse_roundtrip_witness :
  transform_stable ascii_upper ascii_lower TUpper /\
  read ascii_upper ascii_lower upper_parser (Path (lit "conf.ini")) mixed_text
  = (mixed, [], None) /\
  unshadowed (_sections mixed) /\
  exists out cp',
    getSectionsAsString mixed = Return out /\
    read ascii_upper ascii_lower upper_parser (Path (lit "copy.ini")) out
    = (cp', [], None) /\
    _sections cp' = canonical (_sections mixed) /\
    (prototype_of (_sections mixed) = None -> no_index_names (_sections mixed) ->
     _sections cp' = _sections mixed).
Proof.
  assert (Hsh : unshadowed (_sections mixed))
    by (apply unshadowed_forallb; reflexivity).
  split; [exact ascii_upper_inert|]. split; [reflexivity|]. split; [exact Hsh|].
  exact (serialize_parse_roundtrip ascii_upper ascii_lower (Options (Some TUpper) false)
           (Path (lit "conf.ini")) mixed_text mixed [] ascii_upper_inert eq_refl Hsh
           (Path (lit "copy.ini"))).
Defined.

(** ** Where the code departs *)

(** The value of [k= v] is stored without its leading space. *)
Lemma value_leading_space_trimmed :
  get spaced_value (lit "s") (lit "k") true = Return (VString (lit "v")) /\
  get spaced_value (lit "s") (lit "k") true <> Return (VString (lit " v")).
Proof. split; [reflexivity|discriminate]. Qed.

(** A header followed by other text on its line is taken as a header. *)
Lemma header_with_trailing_text :
  is_header (lit "[t] trailing text") = true /\
  sections trailing_header = [lit "s"; lit "t"].
Proof. split; reflexivity. Qed.

(** C3, counterexample: a first line made of a bracketed name and other
    text is neither blank nor a comment, and is no header line in the
    sense of a line that is a bracketed name and nothing else (it does not
    end in a closing bracket); yet the read throws nothing, and the line
    has opened the section of that name. *)
Lemma trailing_text_before_first_header :
  is_skipped (lit "[t] trailing text") = false /\
  List.last (lit "[t] trailing text") (ch " ") <> ch "]" /\
  snd (read ascii_upper ascii_lower plain_parser (Path (lit "conf.ini"))
            trailing_first_text) = None /\
  sections (read_ascii plain_parser trailing_first_text) = [lit "t"] /\
  get (read_ascii plain_parser trailing_first_text) (lit "t") (lit "k") true
  = Return (VString (lit "v")).
Proof. repeat split; try reflexivity. differ. Qed.

(** C4, counterexample: for a text read from the descriptor 0, the
    callback, when configured, is called with the descriptor as file,
    while the ParseError thrown without a callback carries the empty
    string in its place: not the same triple. *)
Lemma descriptor_zero_error_file :
  snd (fst (read ascii_upper ascii_lower lenient_parser (Descriptor 0) invalid_text))
  = [LineInfo (Some (Descriptor 0)) 1 (lit "oops")] /\
  snd (read ascii_upper ascii_lower strict_parser (Descriptor 0) invalid_text)
  = Some (ParseError (Some (Path [])) 1 (lit "oops")).
Proof. split; reflexivity. Qed.

(** C5, at the failing input: the document [shadowing_text] is read
    without error and without a call to the callback, and the store read
    from it cannot be written out: the serialization throws TypeError at
    its first call of [this._sections.hasOwnProperty], which finds the
    section of that name in place of the method. *)
Lemma serialize_shadowed_throws :
  read ascii_upper ascii_lower plain_parser (Path (lit "conf.ini")) shadowing_text
  = (shadowing, [], None) /\
  items shadowing hasOwnProperty_name = VSection [(lit "k", lit "v")] /\
  getSectionsAsString shadowing = Throw TypeError.
Proof. repeat split; reflexivity. Qed.

(** C7, at the failing input: on the store read from [shadowing_text],
    which holds the section [s] without a key [missing] and no section
    [absent], [getInt] throws TypeError in both cases. *)
Lemma getInt_shadowed_throws :
  items shadowing (lit "s") = VSection [(lit "n", lit "1")] /\
  items shadowing (lit "absent") = VUndefined /\
  getInt shadowing (lit "s") (lit "missing") None = Throw TypeError /\
  getInt shadowing (lit "absent") (lit "k") None = Throw TypeError.
Proof. repeat split; reflexivity. Qed.

(** C9, at the failing input: on the store read from [shadowing_text],
    which holds no section [absent], [set] on that section throws
    TypeError. *)
Lemma set_shadowed_throws :
  items shadowing (lit "absent") = VUndefined /\
  set shadowing (lit "absent") (lit "k") (lit "v") = Throw TypeError.
Proof. split; reflexivity. Qed.

(** C10, at the failing inputs: on the store read from [shadowing_text],
    which holds no section [absent], [get] on that section throws
    TypeError, raw or not; and on a new parser, which holds no section at
    all, [keys] of the name [constructor] returns the empty list, where
    NoSectionError was to be thrown: [this._sections] inherits a member of
    that name. *)
Lemma get_shadowed_throws :
  items shadowing (lit "absent") = VUndefined /\
  get shadowing (lit "absent") (lit "k") true = Throw TypeError /\
  get shadowing (lit "absent") (lit "k") false = Throw TypeError /\
  sections plain_parser = [] /\
  hasSection plain_parser (lit "constructor") = Return false /\
  keys plain_parser (lit "constructor") = Return [].
Proof. repeat split; reflexivity. Qed.

(** A key line whose value holds a bracketed name is read as the header
    of that name, and its key is not stored. *)
Example bracketed_value_read_as_header :
  sections bracket_value = [lit "s"; lit "name"] /\
  get bracket_value (lit "s") (lit "k") true = Return VUndefined.
Proof. split; reflexivity. Qed.

(** [parseInt] reads the word "undefined" as a number in base 36. *)
Example parseInt_undefined_base36 :
  getInt spaced_value (lit "s") (lit "port") (Some 36%Z)
  = Return (VNumber 86464843759093).
Proof. reflexivity. Qed.

(** The specification's example of interpolation. *)
Example interpolation_example :
  let cp := read_ascii plain_parser
              (lit "[db]" ++ nl ++ lit "host=localhost" ++ nl ++
               lit "port=%(host)s:5432" ++ nl) in
  get cp (lit "db") (lit "port") true = Return (VString (lit "%(host)s:5432")) /\
  get cp (lit "db") (lit "port") false = Return (VString (lit "localhost:5432")).
Proof. split; reflexivity. Qed.

(** * Further properties of the accessors *)

(** ** The order of names depends on the names alone *)

Lemma insert_entry_keys (V : Type) (e : jsstring * V) (l : dict V) :
  ownKeys (insert_entry e l) = insert_key (fst e) (ownKeys l).
Proof.
  induction l as [|e' l IH]; [reflexivity|].
  change (ownKeys (e' :: l)) with (fst e' :: ownKeys l).
  cbn [insert_entry insert_key].
  change (index_of_entry e) with (index_of (fst e)).
  change (index_of_entry e') with (index_of (fst e')).
  destruct (index_of (fst e) <=? index_of (fst e'))%N; [reflexivity|].
  change (ownKeys (e' :: insert_entry e l)) with (fst e' :: ownKeys (insert_entry e l)).
  rewrite IH. reflexivity.
Qed.

Lemma sort_entries_keys (V : Type) (l : dict V) :
  ownKeys (sort_entries l) = sort_keys (ownKeys l).
Proof.
  induction l as [|e l IH]; [reflexivity|].
  change (ownKeys (e :: l)) with (fst e :: ownKeys l).
  unfold sort_entries, sort_keys in *. cbn [fold_right].
  rewrite insert_entry_keys, IH. reflexivity.
Qed.

Lemma filter_keys (V : Type) (p : jsstring -> bool) (l : dict V) :
  ownKeys (List.filter (fun e => p (fst e)) l) = List.filter p (ownKeys l).
Proof.
  unfold ownKeys. induction l as [|e l IH]; [reflexivity|].
  cbn [List.filter List.map]. destruct (p (fst e)); cbn [List.map]; rewrite IH;
    reflexivity.
Qed.

Lemma ownKeys_app_keys (V : Type) (a b : dict V) :
  ownKeys (a ++ b) = ownKeys a ++ ownKeys b.
Proof. unfold ownKeys. apply map_app. Qed.

Lemma Object_keys_order (V : Type) (o : dict V) :
  Object_keys o = key_order (ownKeys o).
Proof.
  unfold Object_keys, enumerate, key_order. rewrite ownKeys_app_keys.
  rewrite sort_entries_keys.
  change (List.filter is_index_entry o)
    with (List.filter (fun e : jsstring * V => is_index (fst e)) o).
  change (List.filter (fun e : jsstring * V => negb (is_index_entry e)) o)
    with (List.filter (fun e : jsstring * V => negb (is_index (fst e))) o).
  rewrite (filter_keys V is_index o).
  rewrite (filter_keys V (fun k => negb (is_index k)) o). reflexivity.
Qed.

Lemma sections_order (cp : ConfigParser) :
  sections cp =
  key_order (List.filter (fun k => negb (jseqb k proto_name)) (ownKeys (_sections cp))).
Proof.
  unfold sections, own_properties. rewrite Object_keys_order.
  rewrite (filter_keys section (fun k => negb (jseqb k proto_name))). reflexivity.
Qed.

Lemma insert_key_perm (k : jsstring) (l : list jsstring) :
  Permutation (insert_key k l) (k :: l).
Proof.
  induction l as [|k' l IH]; cbn [insert_key]; [reflexivity|].
  destruct (index_of k <=? index_of k')%N; [reflexivity|].
  rewrite IH. apply perm_swap.
Qed.

Lemma sort_keys_perm (l : list jsstring) : Permutation (sort_keys l) l.
Proof.
  induction l as [|k l IH]; [reflexivity|].
  unfold sort_keys in *. cbn [fold_right]. rewrite insert_key_perm.
  constructor. exact IH.
Qed.

Lemma key_order_perm (ks : list jsstring) : Permutation (key_order ks) ks.
Proof.
  unfold key_order. rewrite sort_keys_perm.
  induction ks as [|k ks IH]; [reflexivity|]. cbn [List.filter].
  destruct (is_index k); cbn [negb app].
  - constructor. exact IH.
  - rewrite <- Permutation_middle. constructor. exact IH.
Qed.

(** A name that is no array index, created last, is listed last. *)
Lemma key_order_snoc (ks : list jsstring) (k : jsstring) :
  array_index k = None -> key_order (ks ++ [k]) = key_order ks ++ [k].
Proof.
  intro H. unfold key_order. rewrite !filter_app. cbn [List.filter].
  unfold is_index at 2 4. rewrite H. cbn [negb]. rewrite app_nil_r, app_assoc.
  reflexivity.
Qed.

Lemma insert_key_sorted (k : jsstring) (l : list jsstring) :
  StronglySorted index_le l -> StronglySorted index_le (insert_key k l).
Proof.
  induction 1 as [|k' l Hl IH Hall]; cbn [insert_key].
  - constructor; constructor.
  - destruct (index_of k <=? index_of k')%N eqn:E.
    + apply N.leb_le in E. constructor; [constructor; assumption|].
      constructor; [exact E|].
      eapply Forall_impl; [|exact Hall]. intros x Hx. unfold index_le in *. lia.
    + apply N.leb_gt in E. constructor; [exact IH|].
      eapply Permutation_Forall; [symmetry; apply insert_key_perm|].
      constructor; [unfold index_le; lia|exact Hall].
Qed.

Lemma sort_keys_sorted (l : list jsstring) : StronglySorted index_le (sort_keys l).
Proof.
  induction l as [|k l IH]; [constructor|].
  unfold sort_keys in *. cbn [fold_right]. apply insert_key_sorted. exact IH.
Qed.

Lemma insert_key_head (k : jsstring) (l : list jsstring) :
  Forall (index_le k) l -> insert_key k l = k :: l.
Proof.
  intro H. destruct H as [|k' l Hk Hl]; [reflexivity|]. cbn [insert_key].
  apply N.leb_le in Hk. rewrite Hk. reflexivity.
Qed.

Lemma filter_insert_key (p : jsstring -> bool) (k : jsstring) (l : list jsstring) :
  StronglySorted index_le l ->
  List.filter p (insert_key k l) =
  if p k then insert_key k (List.filter p l) else List.filter p l.
Proof.
  induction 1 as [|k' l Hl IH Hall]; cbn [insert_key List.filter].
  - destruct (p k); reflexivity.
  - destruct (index_of k <=? index_of k')%N eqn:E.
    + cbn [List.filter]. destruct (p k) eqn:Hk; [|reflexivity].
      symmetry. apply insert_key_head. apply N.leb_le in E.
      assert (Hall' : Forall (index_le k) (k' :: l)).
      { constructor; [exact E|]. eapply Forall_impl; [|exact Hall].
        intros x Hx. unfold index_le in *. lia. }
      change (if p k' then k' :: List.filter p l else List.filter p l)
        with (List.filter p (k' :: l)).
      apply Forall_forall. intros x Hx. apply filter_In in Hx.
      rewrite Forall_forall in Hall'. apply Hall'. tauto.
    + cbn [List.filter]. rewrite IH. destruct (p k'), (p k); try reflexivity.
      cbn [insert_key]. rewrite E. reflexivity.
Qed.

Lemma sort_keys_filter (p : jsstring -> bool) (l : list jsstring) :
  sort_keys (List.filter p l) = List.filter p (sort_keys l).
Proof.
  induction l as [|k l IH]; [reflexivity|].
  change (sort_keys (k :: l)) with (insert_key k (sort_keys l)).
  rewrite filter_insert_key by apply sort_keys_sorted.
  cbn [List.filter]. destruct (p k); [|exact IH].
  change (sort_keys (k :: List.filter p l))
    with (insert_key k (sort_keys (List.filter p l))).
  rewrite IH. reflexivity.
Qed.

Lemma filter_comm (A : Type) (p q : A -> bool) (l : list A) :
  List.filter p (List.filter q l) = List.filter q (List.filter p l).
Proof.
  induction l as [|x l IH]; [reflexivity|]. cbn [List.filter].
  destruct (q x) eqn:Hq, (p x) eqn:Hp; cbn [List.filter]; rewrite ?Hq, ?Hp, IH;
    reflexivity.
Qed.

(** Leaving names out does not change the order of the others. *)
Lemma key_order_filter (p : jsstring -> bool) (ks : list jsstring) :
  key_order (List.filter p ks) = List.filter p (key_order ks).
Proof.
  unfold key_order. rewrite filter_app.
  rewrite (filter_comm _ is_index p), sort_keys_filter.
  rewrite (filter_comm _ (fun k => negb (is_index k)) p). reflexivity.
Qed.


Lemma with_sections_same (cp : ConfigParser) : with_sections cp (_sections cp) = cp.
Proof. destruct cp. reflexivity. Qed.

Lemma ownKeys_app (V : Type) (a b : dict V) : ownKeys (a ++ b) = ownKeys a ++ ownKeys b.
Proof. unfold ownKeys. apply map_app. Qed.

Lemma lookup_delete_other (V : Type) (o : dict V) (k x : jsstring) :
  k <> x -> lookup (delete o k) x = lookup o x.
Proof.
  intro H. induction o as [|[k' v'] o IH]; cbn [delete lookup]; [reflexivity|].
  destruct (jseqb k' k) eqn:E.
  - apply jseqb_eq in E. subst k'. apply jseqb_neq in H. rewrite H. reflexivity.
  - cbn [lookup]. rewrite IH. reflexivity.
Qed.

Lemma lookup_delete_same (V : Type) (o : dict V) (k : jsstring) :
  NoDup (ownKeys o) -> lookup (delete o k) k = None.
Proof.
  induction o as [|[k' v'] o IH]; cbn [delete lookup ownKeys List.map fst];
    [reflexivity|].
  intro H. inversion H as [|? ? Hnin Hnd]; subst.
  destruct (jseqb k' k) eqn:E.
  - apply jseqb_eq in E. subst k'. apply lookup_None. exact Hnin.
  - cbn [lookup]. rewrite E. apply IH. exact Hnd.
Qed.

Lemma filter_absent (k : jsstring) (l : list jsstring) :
  ~ In k l -> List.filter (fun x => negb (jseqb x k)) l = l.
Proof.
  induction l as [|x l IH]; [reflexivity|]. intro H. cbn [List.filter].
  destruct (jseqb x k) eqn:Ex.
  - apply jseqb_eq in Ex. subst x. exfalso. apply H. left. reflexivity.
  - cbn [negb]. f_equal. apply IH. intro Hin. apply H. right. exact Hin.
Qed.

Lemma ownKeys_delete (V : Type) (o : dict V) (k : jsstring) :
  NoDup (ownKeys o) ->
  ownKeys (delete o k) = List.filter (fun x => negb (jseqb x k)) (ownKeys o).
Proof.
  induction o as [|[k' v'] o IH]; [reflexivity|].
  change (ownKeys ((k', v') :: o)) with (k' :: ownKeys o).
  intro H. inversion H as [|? ? Hnin Hnd]; subst.
  cbn [delete List.filter]. destruct (jseqb k' k) eqn:E; cbn [negb].
  - apply jseqb_eq in E. subst k'. symmetry. apply filter_absent. exact Hnin.
  - change (ownKeys ((k', v') :: delete o k)) with (k' :: ownKeys (delete o k)).
    f_equal. apply IH. exact Hnd.
Qed.

Lemma delete_last (V : Type) (o : dict V) (k : jsstring) (v : V) :
  lookup o k = None -> delete (o ++ [(k, v)]) k = o.
Proof.
  induction o as [|[k' v'] o IH]; cbn [lookup app delete].
  - rewrite jseqb_refl. reflexivity.
  - destruct (jseqb k' k); [discriminate|]. intro H. rewrite IH by assumption.
    reflexivity.
Qed.

(** ** The accessors on a store *)

Lemma get_section_hasOwnProperty (s : store) :
  get_section s hasOwnProperty_name =
  match lookup s hasOwnProperty_name with
  | Some o => VSection o
  | None =>
      match lookup s proto_name with
      | Some p => of_member (get_key p hasOwnProperty_name)
      | None => VFunction hasOwnProperty_name
      end
  end.
Proof. reflexivity. Qed.

Lemma callable_no_own (s : store) :
  callable s = true -> lookup s hasOwnProperty_name = None.
Proof.
  unfold callable. rewrite get_section_hasOwnProperty.
  destruct (lookup s hasOwnProperty_name); [discriminate|reflexivity].
Qed.

Lemma callable_ext (s s' : store) :
  lookup s' hasOwnProperty_name = lookup s hasOwnProperty_name ->
  lookup s' proto_name = lookup s proto_name ->
  callable s' = callable s.
Proof.
  intros H1 H2. unfold callable. rewrite !get_section_hasOwnProperty, H1, H2.
  reflexivity.
Qed.

Lemma get_section_ext (s s' : store) (x : jsstring) :
  lookup s' x = lookup s x -> lookup s' proto_name = lookup s proto_name ->
  get_section s' x = get_section s x.
Proof.
  intros H1 H2. unfold get_section, prototype_of. rewrite H1, H2. reflexivity.
Qed.

Lemma own_section_ext (s s' : store) (x : jsstring) :
  lookup s' x = lookup s x -> own_section s' x = own_section s x.
Proof. intro H. unfold own_section. rewrite H. reflexivity. Qed.

Lemma hasOwnProperty_ext (s s' : store) (x : jsstring) :
  lookup s' hasOwnProperty_name = lookup s hasOwnProperty_name ->
  lookup s' proto_name = lookup s proto_name ->
  (match lookup s' x with Some _ => true | None => false end
   = match lookup s x with Some _ => true | None => false end) ->
  hasOwnProperty s' x = hasOwnProperty s x.
Proof.
  intros H1 H2 H3. rewrite !hasOwnProperty_callable.
  rewrite (callable_ext s s' H1 H2). unfold own_section.
  destruct (jseqb x proto_name); [reflexivity|]. rewrite H3. reflexivity.
Qed.

(** A section that [hasSection] finds is a property under an ordinary
    name. *)
Lemma hasSection_true (cp : ConfigParser) (sec : jsstring) :
  hasSection cp sec = Return true ->
  callable (_sections cp) = true /\ sec <> proto_name /\ sec <> hasOwnProperty_name /\
  exists o, lookup (_sections cp) sec = Some o /\ own_section (_sections cp) sec = Some o.
Proof.
  unfold hasSection. intro H.
  destruct (hasOwnProperty_true _ _ H) as (Hc & Hp & o & Ho & Hl).
  split; [assumption|]. split; [assumption|]. split.
  - intro E. subst sec. rewrite (callable_no_own _ Hc) in Hl. discriminate.
  - exists o. split; assumption.
Qed.

Lemma hasSection_false (cp : ConfigParser) (sec : jsstring) :
  hasSection cp sec = Return false -> sec <> proto_name ->
  callable (_sections cp) = true /\ lookup (_sections cp) sec = None.
Proof.
  unfold hasSection. intros H Hp.
  destruct (hasOwnProperty_false _ _ H) as (Hc & Ho). split; [assumption|].
  unfold own_section in Ho. apply jseqb_neq in Hp. rewrite Hp in Ho. exact Ho.
Qed.

Lemma own_names_assign (s : store) (name : jsstring) (o : section) :
  List.filter (fun k => negb (jseqb k proto_name)) (ownKeys (assign s name o)) =
  match lookup s name with
  | Some _ => List.filter (fun k => negb (jseqb k proto_name)) (ownKeys s)
  | None =>
      List.filter (fun k => negb (jseqb k proto_name)) (ownKeys s)
      ++ (if jseqb name proto_name then [] else [name])
  end.
Proof.
  rewrite ownKeys_assign. destruct (lookup s name); [reflexivity|].
  rewrite filter_app. cbn [List.filter]. destruct (jseqb name proto_name); reflexivity.
Qed.

(** X1: [addSection] throws DuplicateSectionError exactly when the name is
    already a section.  Otherwise, for a name other than [__proto__], the
    parser has the new section, without keys, and every other name reads
    as before; [sections()] lists the new name last, unless it is an array
    index, which goes among the indices.  For the name [__proto__] the
    call throws nothing and adds no section. *)
Theorem addSection_appends (cp : ConfigParser) (sec : jsstring) :
  (hasSection cp sec = Return true ->
   addSection cp sec = Throw (DuplicateSectionError sec)) /\
  (hasSection cp sec = Return false -> sec <> proto_name ->
   exists cp',
     addSection cp sec = Return cp' /\
     Permutation (sections cp') (sections cp ++ [sec]) /\
     (array_index sec = None -> sections cp' = sections cp ++ [sec]) /\
     keys cp' sec = Return [] /\
     forall x, x <> sec -> items cp' x = items cp x) /\
  (hasSection cp proto_name = Return false ->
   exists cp',
     addSection cp proto_name = Return cp' /\
     sections cp' = sections cp /\
     hasSection cp' proto_name = Return false).
Proof.
  unfold addSection. split; [|split].
  - unfold hasSection. intros ->. reflexivity.
  - intros Hs Hp. destruct (hasSection_false _ _ Hs Hp) as [Hc Hl].
    unfold hasSection in Hs. rewrite Hs. cbn [bind].
    eexists. split; [reflexivity|].
    assert (Hsec : sections (with_sections cp (assign (_sections cp) sec []))
                   = key_order (List.filter (fun k => negb (jseqb k proto_name))
                                            (ownKeys (_sections cp)) ++ [sec])).
    { rewrite sections_order. unfold with_sections. cbn [_sections].
      rewrite own_names_assign, Hl. apply jseqb_neq in Hp. rewrite Hp. reflexivity. }
    split; [|split; [|split]].
    + rewrite Hsec, key_order_perm, sections_order.
      apply Permutation_app_tail. symmetry. apply key_order_perm.
    + intro Hi. rewrite Hsec, key_order_snoc by assumption.
      rewrite sections_order. reflexivity.
    + unfold keys, with_sections. cbn [_sections].
      rewrite (get_section_lookup _ _ [] (lookup_assign_same _ _ _)). reflexivity.
    + intros x Hx. unfold items, with_sections. cbn [_sections].
      apply get_section_ext; apply lookup_assign_other; congruence.
  - intro Hs. unfold hasSection in *. rewrite Hs. cbn [bind].
    eexists. split; [reflexivity|]. unfold with_sections. cbn [_sections].
    destruct (hasOwnProperty_false _ _ Hs) as [Hc _]. split.
    + rewrite !sections_order. cbn [_sections]. rewrite own_names_assign.
      destruct (lookup (_sections cp) proto_name); [reflexivity|].
      rewrite jseqb_refl, app_nil_r. reflexivity.
    + rewrite hasOwnProperty_callable. unfold own_section. rewrite jseqb_refl.
      unfold callable in *. rewrite get_section_hasOwnProperty in *.
      rewrite lookup_assign_other by discriminate.
      destruct (lookup (_sections cp) hasOwnProperty_name); [discriminate|].
      rewrite lookup_assign_same. reflexivity.
Qed.

Lemma set_returns (cp : ConfigParser) (sec key val : jsstring) (o : section) :
  hasSection cp sec = Return true -> lookup (_sections cp) sec = Some o ->
  set cp sec key val =
  Return (with_sections cp (assign (_sections cp) sec (put o key val))).
Proof.
  unfold hasSection, set, assign_in. intros -> ->. reflexivity.
Qed.

(** A change of one section under its own name leaves the tests of the
    sections as they were. *)
Lemma hasOwnProperty_assign_section (s : store) (sec x : jsstring) (o o' : section) :
  sec <> proto_name -> sec <> hasOwnProperty_name ->
  lookup s sec = Some o ->
  hasOwnProperty (assign s sec o') x = hasOwnProperty s x.
Proof.
  intros Hp Hh Hl. apply hasOwnProperty_ext.
  - apply lookup_assign_other. assumption.
  - apply lookup_assign_other. assumption.
  - rewrite lookup_assign. destruct (jseqb sec x) eqn:E; [|reflexivity].
    apply jseqb_eq in E. subst x. rewrite Hl. reflexivity.
Qed.

(** X2: on an existing section and for a key other than [__proto__], the
    value [set] stores is the value a raw [get] returns; the raw [get] of
    every other key, in this or another section, is as before, and
    [sections()] is unchanged. *)
Theorem set_then_get (cp : ConfigParser) (sec key val : jsstring) :
  hasSection cp sec = Return true -> key <> proto_name ->
  exists cp',
    set cp sec key val = Return cp' /\
    get cp' sec key true = Return (VString val) /\
    (forall sec' key', sec' <> sec \/ key' <> key ->
                       get cp' sec' key' true = get cp sec' key' true) /\
    sections cp' = sections cp.
Proof.
  intros Hs Hk. destruct (hasSection_true _ _ Hs) as (Hc & Hp & Hh & o & Hl & Ho).
  rewrite (set_returns _ _ _ _ _ Hs Hl). eexists. split; [reflexivity|].
  unfold get, with_sections. cbn [_sections].
  assert (Hsame : forall x, hasOwnProperty (assign (_sections cp) sec (put o key val)) x
                            = hasOwnProperty (_sections cp) x)
    by (intro x; eapply hasOwnProperty_assign_section; eassumption).
  split; [|split].
  - rewrite Hsame. unfold hasSection in Hs. rewrite Hs. cbn [bind].
    unfold own_section. apply jseqb_neq in Hp. rewrite Hp, lookup_assign_same.
    unfold get_key. rewrite put_assign by assumption. rewrite lookup_assign_same.
    reflexivity.
  - intros sec' key' H. rewrite Hsame.
    destruct (hasOwnProperty (_sections cp) sec') as [[|]|e]; cbn [bind]; try reflexivity.
    unfold own_section. destruct (jseqb sec' proto_name); [reflexivity|].
    rewrite lookup_assign. destruct (jseqb sec sec') eqn:E; [|reflexivity].
    apply jseqb_eq in E. subst sec'. rewrite Hl.
    destruct H as [H|H]; [contradiction|].
    unfold get_key. rewrite lookup_put_other by congruence. reflexivity.
  - rewrite !sections_order. cbn [_sections]. rewrite own_names_assign, Hl.
    reflexivity.
Qed.

Lemma mem_string_perm (k : jsstring) (a b : list jsstring) :
  Permutation a b -> mem_string k a = mem_string k b.
Proof.
  intro H. destruct (mem_string k b) eqn:E.
  - apply mem_string_In. apply mem_string_In in E.
    eapply Permutation_in; [symmetry; exact H|exact E].
  - destruct (mem_string k a) eqn:E'; [|reflexivity].
    apply mem_string_In in E'. rewrite <- E. symmetry. apply mem_string_In.
    eapply Permutation_in; [exact H|exact E'].
Qed.

Lemma mem_string_keys (V : Type) (o : dict V) (k : jsstring) :
  mem_string k (ownKeys o) = has_own o k.
Proof.
  unfold has_own. induction o as [|[k' v'] o IH]; [reflexivity|].
  change (ownKeys ((k', v') :: o)) with (k' :: ownKeys o).
  cbn [mem_string lookup]. destruct (jseqb k' k); [reflexivity|]. exact IH.
Qed.

(** X3: [set] keeps the order of the keys of a section: a key that exists
    keeps its place, and a new key goes last, when it is neither an array
    index nor [__proto__]. *)
Theorem set_key_order (cp : ConfigParser) (sec key val : jsstring) (ks : list jsstring) :
  hasSection cp sec = Return true ->
  keys cp sec = Return ks ->
  key <> proto_name -> array_index key = None ->
  exists cp',
    set cp sec key val = Return cp' /\
    keys cp' sec = Return (add_name ks key).
Proof.
  intros Hs Hks Hk Hi. destruct (hasSection_true _ _ Hs) as (Hc & Hp & Hh & o & Hl & Ho).
  rewrite (set_returns _ _ _ _ _ Hs Hl). eexists. split; [reflexivity|].
  unfold keys, with_sections in *. cbn [_sections].
  rewrite (get_section_lookup _ _ _ Hl) in Hks. cbn [Object_keys_of] in Hks.
  injection Hks as <-.
  rewrite (get_section_lookup _ _ _ (lookup_assign_same _ _ _)). cbn [Object_keys_of].
  rewrite put_assign by assumption. rewrite !Object_keys_order, ownKeys_assign.
  unfold add_name. rewrite (mem_string_perm key _ _ (key_order_perm (ownKeys o))).
  rewrite mem_string_keys. unfold has_own.
  destruct (lookup o key); [reflexivity|].
  rewrite key_order_snoc by assumption. reflexivity.
Qed.

Lemma hasKey_returns (cp : ConfigParser) (sec key : jsstring) (b : bool) :
  hasKey cp sec key = Return b ->
  (b = false /\ hasSection cp sec = Return false) \/
  (hasSection cp sec = Return true /\
   exists o, lookup (_sections cp) sec = Some o /\
             has_own o hasOwnProperty_name = false /\ b = has_own o key).
Proof.
  unfold hasKey, hasSection.
  destruct (hasOwnProperty (_sections cp) sec) as [[|]|e] eqn:Hs; cbn [bind];
    [|intro H; injection H as <-; left; auto|discriminate].
  destruct (hasOwnProperty_true _ _ Hs) as (_ & _ & o & -> & Hl).
  rewrite key_hasOwnProperty_callable.
  destruct (has_own o hasOwnProperty_name) eqn:Hh; [discriminate|].
  intro H. injection H as <-. right. split; [reflexivity|]. exists o. auto.
Qed.

(** X4: when [hasKey] returns, [removeKey] returns the same answer; when
    the key was not there, nothing changes; when it was, the key is gone
    afterwards, every other key of the section and every other section
    reads as before, and [sections()] is unchanged. *)
Theorem removeKey_removes (cp : ConfigParser) (sec key : jsstring) (b : bool) :
  unique_keys cp ->
  hasKey cp sec key = Return b ->
  exists cp',
    removeKey cp sec key = Return (cp', b) /\
    (b = false -> cp' = cp) /\
    hasKey cp' sec key = Return false /\
    (forall sec' key', sec' <> sec \/ key' <> key ->
                       get cp' sec' key' true = get cp sec' key' true) /\
    sections cp' = sections cp.
Proof.
  intros [_ Huniq] Hk. unfold removeKey. rewrite Hk. cbn [bind].
  destruct (hasKey_returns _ _ _ _ Hk) as [[-> Hs]|(Hs & o & Hl & Hsh & ->)].
  { exists cp. split; [reflexivity|]. split; [reflexivity|]. split; [assumption|].
    split; reflexivity. }
  destruct (hasSection_true _ _ Hs) as (Hc & Hp & Hh & o' & Hl' & Ho).
  rewrite Hl in Hl'. injection Hl' as <-. rewrite Ho.
  destruct (has_own o key) eqn:Hhas.
  2:{ exists cp. split; [reflexivity|]. split; [reflexivity|]. split; [assumption|].
      split; reflexivity. }
  eexists. split; [reflexivity|]. split; [discriminate|].
  assert (Hsame : forall x, hasOwnProperty (assign (_sections cp) sec (delete o key)) x
                            = hasOwnProperty (_sections cp) x)
    by (intro x; eapply hasOwnProperty_assign_section; eassumption).
  assert (Hkh : key <> hasOwnProperty_name).
  { intro E. subst key. congruence. }
  unfold hasKey, get, with_sections. cbn [_sections]. split; [|split].
  - rewrite Hsame. unfold hasSection in Hs. rewrite Hs. cbn [bind].
    unfold own_section. pose proof Hp as Hp'. apply jseqb_neq in Hp'.
    rewrite Hp', lookup_assign_same.
    rewrite key_hasOwnProperty_callable. unfold has_own in *.
    rewrite lookup_delete_other by assumption.
    destruct (lookup o hasOwnProperty_name); [discriminate|].
    rewrite lookup_delete_same by eauto. reflexivity.
  - intros sec' key' H. rewrite Hsame.
    destruct (hasOwnProperty (_sections cp) sec') as [[|]|e]; cbn [bind]; try reflexivity.
    unfold own_section. destruct (jseqb sec' proto_name); [reflexivity|].
    rewrite lookup_assign. destruct (jseqb sec sec') eqn:E; [|reflexivity].
    apply jseqb_eq in E. subst sec'. rewrite Hl.
    destruct H as [H|H]; [contradiction|].
    unfold get_key. rewrite lookup_delete_other by congruence. reflexivity.
  - rewrite !sections_order. cbn [_sections]. rewrite own_names_assign, Hl.
    reflexivity.
Qed.

Lemma filter_jseqb_comm (a b : jsstring) (l : list jsstring) :
  List.filter (fun k => negb (jseqb k a)) (List.filter (fun x => negb (jseqb x b)) l) =
  List.filter (fun x => negb (jseqb x b)) (List.filter (fun k => negb (jseqb k a)) l).
Proof. apply filter_comm. Qed.

(** X5: when [hasSection] returns, [removeSection] returns the same
    answer; when the section was not there, nothing changes; when it was,
    it is gone afterwards, every other name reads as before, and
    [sections()] is the old list without that name. *)
Theorem removeSection_removes (cp : ConfigParser) (sec : jsstring) (b : bool) :
  unique_keys cp ->
  hasSection cp sec = Return b ->
  exists cp',
    removeSection cp sec = Return (cp', b) /\
    (b = false -> cp' = cp) /\
    hasSection cp' sec = Return false /\
    (forall x, x <> sec -> items cp' x = items cp x) /\
    sections cp' = List.filter (fun x => negb (jseqb x sec)) (sections cp).
Proof.
  intros [Huniq _] Hs. unfold removeSection. pose proof Hs as Hs'.
  unfold hasSection in Hs'. rewrite Hs'. cbn [bind]. destruct b.
  - destruct (hasSection_true _ _ Hs) as (Hc & Hp & Hh & o & Hl & Ho).
    eexists. split; [reflexivity|]. split; [discriminate|].
    unfold hasSection, items, with_sections. cbn [_sections]. split; [|split].
    + rewrite hasOwnProperty_callable.
      rewrite (callable_ext (_sections cp))
        by (apply lookup_delete_other; assumption).
      rewrite Hc. unfold own_section. apply jseqb_neq in Hp. rewrite Hp.
      rewrite lookup_delete_same by assumption. reflexivity.
    + intros x Hx. apply get_section_ext; apply lookup_delete_other; congruence.
    + rewrite !sections_order. cbn [_sections].
      rewrite ownKeys_delete by assumption. rewrite filter_jseqb_comm.
      apply key_order_filter.
  - exists cp. split; [reflexivity|]. split; [reflexivity|]. split; [assumption|].
    split; [reflexivity|]. symmetry. apply filter_absent.
    rewrite sections_order. intro Hin.
    apply (Permutation_in _ (key_order_perm _)) in Hin.
    apply filter_In in Hin. destruct Hin as [Hin Hnp].
    destruct (hasOwnProperty_false _ _ Hs') as [_ Ho]. unfold own_section in Ho.
    destruct (jseqb sec proto_name); [discriminate|].
    apply lookup_None in Ho. contradiction.
Qed.

(** X6: removing a section just added, under a name that was free and is
    neither [__proto__] nor [hasOwnProperty], gives back the parser as it
    was. *)
Theorem addSection_removeSection (cp cp' : ConfigParser) (sec : jsstring) :
  hasSection cp sec = Return false ->
  sec <> proto_name -> sec <> hasOwnProperty_name ->
  addSection cp sec = Return cp' ->
  removeSection cp' sec = Return (cp, true).
Proof.
  intros Hs Hp Hh. destruct (hasSection_false _ _ Hs Hp) as [Hc Hl].
  unfold addSection, removeSection. unfold hasSection in Hs. rewrite Hs. cbn [bind].
  intro H. injection H as <-. unfold with_sections. cbn [_sections].
  rewrite hasOwnProperty_callable.
  rewrite (callable_ext (_sections cp)) by (apply lookup_assign_other; assumption).
  rewrite Hc. unfold own_section. pose proof Hp as Hp'. apply jseqb_neq in Hp'.
  rewrite Hp', lookup_assign_same. cbn [bind].
  rewrite assign_new by assumption. rewrite delete_last by assumption.
  destruct cp. reflexivity.
Qed.

Lemma parseInt_percent (rest : jsstring) (radix : Z) :
  parseInt (MString (ch "%" :: rest)) radix = VNaN.
Proof.
  unfold parseInt. cbn [member_text].
  change (trim_start (ch "%" :: rest)) with (ch "%" :: rest).
  change (strip_sign (ch "%" :: rest)) with (ch "%" :: rest).
  destruct (negb (ToInt32 radix =? 0)%Z
            && ((ToInt32 radix <? 2)%Z || (36 <? ToInt32 radix)%Z)); [reflexivity|].
  assert (Hp : strip_hex_prefix (ch "%" :: rest) = None)
    by (destruct rest; reflexivity).
  rewrite Hp. destruct ((ToInt32 radix =? 0)%Z || (ToInt32 radix =? 16)%Z); reflexivity.
Qed.

(** What a raw [get] that returns a string has read. *)
Lemma get_raw_string (cp : ConfigParser) (sec key v : jsstring) :
  get cp sec key true = Return (VString v) ->
  hasOwnProperty (_sections cp) sec = Return true /\
  exists o, own_section (_sections cp) sec = Some o /\ get_key o key = MString v.
Proof.
  unfold get.
  destruct (hasOwnProperty (_sections cp) sec) as [[|]|e]; cbn [bind]; try discriminate.
  destruct (own_section (_sections cp) sec) as [o|]; [|discriminate].
  intro H. split; [reflexivity|]. exists o. split; [reflexivity|].
  destruct (get_key o key); cbn [of_member] in H; try discriminate.
  injection H as ->. reflexivity.
Qed.

(** X14: [getInt] reads the raw value, not the interpolated one: when the
    stored value begins with a percent sign, as a placeholder does, the
    result is NaN whatever the radix. *)
Theorem getInt_reads_raw (cp : ConfigParser) (sec key rest : jsstring)
        (radix : option Z) :
  get cp sec key true = Return (VString (ch "%" :: rest)) ->
  getInt cp sec key radix = Return VNaN.
Proof.
  intro H. destruct (get_raw_string _ _ _ _ H) as (Hs & o & Ho & Hk).
  unfold getInt. rewrite Hs. cbn [bind]. rewrite Ho, Hk, parseInt_percent.
  reflexivity.
Qed.

(** X15: [getInt] without a radix reads in base 10 and never takes a
    leading 0x for a hexadecimal prefix: the result for such a value is 0;
    with radix 16 the prefix is passed over and the hexadecimal digits
    after it are read, giving their value as a Number: the value itself
    up to 2^53, a Number near it beyond. *)
Theorem getInt_no_hex_prefix (cp : ConfigParser) (sec key rest : jsstring) (x : code) :
  x = ch "x" \/ x = ch "X" ->
  get cp sec key true = Return (VString (ch "0" :: x :: rest)) ->
  getInt cp sec key None = Return (VNumber 0) /\
  getInt cp sec key (Some 16%Z) =
  Return (match digits 16 rest None with Some n => Number_of n | None => VNaN end).
Proof.
  intros Hx H. destruct (get_raw_string _ _ _ _ H) as (Hs & o & Ho & Hk).
  unfold getInt. rewrite Hs. cbn [bind]. rewrite Ho, Hk.
  destruct Hx as [-> | ->]; split; reflexivity.
Qed.

(** * Further properties of the reader *)

Lemma split_lines_one (l : jsstring) : line_clean l = true -> split_lines l = [l].
Proof.
  intro Hl. induction l as [|c l IH]; [reflexivity|].
  cbn [line_clean forallb] in Hl. apply andb_true_iff in Hl.
  destruct Hl as [Hc Hl]. apply negb_true_iff in Hc. cbn [split_lines].
  destruct (code_eqb c 13%N) eqn:E.
  { apply code_eqb_eq in E. subst c. discriminate. }
  rewrite Hc, (IH Hl). reflexivity.
Qed.

Lemma split_lines_sep (l sep rest : jsstring) :
  line_clean l = true -> In sep separators ->
  (sep = [13%N] -> match rest with c :: _ => c <> 10%N | [] => True end) ->
  split_lines (l ++ sep ++ rest) = l :: split_lines rest.
Proof.
  intros Hl Hsep Hrest. induction l as [|c l IH].
  - cbn [app]. unfold separators in Hsep. cbn [In] in Hsep.
    destruct Hsep as [<-|[<-|[<-|[<-|[<-|[<-|[]]]]]]]; try reflexivity.
    specialize (Hrest eq_refl). cbn [app split_lines].
    change (code_eqb 13%N 13%N) with true. cbn iota.
    destruct rest as [|d rest']; [reflexivity|].
    destruct (code_eqb d 10%N) eqn:E; [|reflexivity].
    apply code_eqb_eq in E. contradiction.
  - cbn [line_clean forallb] in Hl. apply andb_true_iff in Hl.
    destruct Hl as [Hc Hl]. apply negb_true_iff in Hc.
    cbn [app split_lines].
    destruct (code_eqb c 13%N) eqn:E.
    { apply code_eqb_eq in E. subst c. discriminate. }
    rewrite Hc. rewrite (IH Hl). reflexivity.
Qed.

Lemma join_lines_head (sep : jsstring) (ls : list jsstring) :
  In sep separators -> sep = [13%N] ->
  Forall (fun l => line_clean l = true) ls ->
  match join_lines sep ls with c :: _ => c <> 10%N | [] => True end.
Proof.
  intros _ -> Hls. destruct Hls as [|l ls Hl Hls]; [exact I|].
  cbn [join_lines].
  assert (Hh : forall r, match r with c :: _ => c <> 10%N | [] => True end ->
                         match l ++ r with c :: _ => c <> 10%N | [] => True end).
  { intros r Hr. destruct l as [|c l']; [exact Hr|].
    cbn [app]. cbn [line_clean forallb] in Hl. apply andb_true_iff in Hl.
    destruct Hl as [Hc _]. intros ->. discriminate. }
  destruct ls as [|l2 ls'].
  - rewrite <- (app_nil_r l). apply Hh. exact I.
  - apply Hh. cbn [app]. discriminate.
Qed.

(** X7: the lines of a text do not depend on which line boundary separates
    them: joined by any one of CR LF, LF, CR, NEL, LS or PS, lines that
    hold no boundary themselves are split back as they were. *)
Theorem split_any_separator (sep : jsstring) (ls : list jsstring) :
  In sep separators -> ls <> [] ->
  Forall (fun l => line_clean l = true) ls ->
  split_lines (join_lines sep ls) = ls.
Proof.
  intros Hsep Hne Hls. induction Hls as [|l ls Hl Hls IH]; [contradiction|].
  cbn [join_lines]. destruct ls as [|l2 ls'].
  - apply split_lines_one. assumption.
  - rewrite split_lines_sep; [|assumption|assumption|].
    + rewrite IH by discriminate. reflexivity.
    + intro E. apply join_lines_head; assumption.
Qed.

Lemma map_filter_comm (A B : Type) (f : A -> B) (p : B -> bool) (l : list A) :
  List.map f (List.filter (fun x => p (f x)) l) = List.filter p (List.map f l).
Proof.
  induction l as [|x l IH]; [reflexivity|]. cbn [List.filter List.map].
  destruct (p (f x)); cbn [List.map]; rewrite IH; reflexivity.
Qed.

Lemma no_open_find_header (s : jsstring) : no_open s = true -> find_header s = None.
Proof.
  induction s as [|c s IH]; [reflexivity|]. cbn [no_open forallb]. intro H.
  apply andb_true_iff in H. destruct H as [Hc Hs]. apply negb_true_iff in Hc.
  cbn [find_header header_at]. rewrite Hc. apply IH. exact Hs.
Qed.

Lemma plain_trim_end (k : jsstring) : plain_text k = true -> trim_end k = k.
Proof.
  induction k as [|c k IH]; [reflexivity|]. cbn [plain_text forallb]. intro H.
  apply andb_true_iff in H. destruct H as [Hc Hk]. apply negb_true_iff in Hc.
  cbn [trim_end forallb]. rewrite (special_space c Hc). cbn [andb].
  rewrite (IH Hk). reflexivity.
Qed.

Lemma plain_forall (p : code -> bool) (k : jsstring) :
  (forall c, special c = false -> p c = true) ->
  plain_text k = true -> forallb p k = true.
Proof.
  intros Hp H. unfold plain_text in H. rewrite forallb_forall in H |- *.
  intros c Hc. apply Hp. apply negb_true_iff. apply H. exact Hc.
Qed.

Lemma mem_string_lookup (V : Type) (o : dict V) (k : jsstring) :
  mem_string k (ownKeys o) = match lookup o k with Some _ => true | None => false end.
Proof.
  induction o as [|[k' v'] o IH]; [reflexivity|].
  change (ownKeys ((k', v') :: o)) with (k' :: ownKeys o).
  cbn [mem_string lookup]. destruct (jseqb k' k); [reflexivity|]. exact IH.
Qed.

Section LoopFacts.
Variables toUpperCase toLowerCase : jsstring -> jsstring.

Local Abbreviation parse_line := (parse_line toUpperCase toLowerCase).
Local Abbreviation forEach := (forEach toUpperCase toLowerCase).
Local Abbreviation parseLines := (parseLines toUpperCase toLowerCase).
Local Abbreviation transformKey := (transformKey toUpperCase toLowerCase).

(** What one line does, by its class. *)
Lemma parse_line_cases file cb t n line st :
  (is_skipped line = true /\ parse_line file cb t n line st = inl st) \/
  (exists h, is_header line = true /\ SECTION_exec line = Some h /\
             parse_line file cb t n line st =
             inl {| p_sections := assign (p_sections st) (transformKey t h) [];
                    p_curSec := Some (transformKey t h);
                    p_calls := p_calls st |}) \/
  (is_skipped line = false /\ is_header line = false /\ p_curSec st = None /\
   parse_line file cb t n line st = inr (MissingSectionHeaderError file n line)) \/
  (exists cur k v, is_skipped line = false /\ is_header line = false /\
                   p_curSec st = Some cur /\ key_value line = Some (k, v) /\
                   parse_line file cb t n line st =
                   inl {| p_sections := assign_in (p_sections st) cur (transformKey t k) v;
                          p_curSec := Some cur;
                          p_calls := p_calls st |}) \/
  (exists cur, is_invalid line = true /\ is_header line = false /\
               p_curSec st = Some cur /\
               parse_line file cb t n line st =
               if cb then inl (with_call st (LineInfo file n line))
               else inr (ParseError (or_empty file) n line)).
Proof.
  destruct (is_skipped line) eqn:Hs.
  { left. split; [reflexivity|]. apply parse_line_skipped. assumption. }
  right. destruct (SECTION_exec line) as [h|] eqn:Hh.
  { left. exists h. split; [unfold is_header; rewrite Hs, Hh; reflexivity|].
    split; [reflexivity|]. apply parse_line_header; assumption. }
  right. assert (Hnh : is_header line = false)
    by (unfold is_header; rewrite Hs, Hh; reflexivity).
  destruct (p_curSec st) as [cur|] eqn:Hc.
  - right. destruct (key_value line) as [[k v]|] eqn:Hk.
    + left. exists cur, k, v. repeat (split; [assumption || reflexivity|]).
      apply parse_line_key_value; assumption.
    + right. exists cur.
      assert (Hi : is_invalid line = true)
        by (unfold is_invalid; rewrite Hs, Hh, Hk; reflexivity).
      repeat (split; [assumption || reflexivity|]).
      apply parse_line_invalid with (cur := cur); assumption.
  - left. repeat (split; [assumption || reflexivity|]).
    apply parse_line_no_section; assumption.
Qed.

(** The line number only shows in the errors and in the calls. *)
Lemma parse_line_renumber file cb t n n' line st st' :
  p_sections st = p_sections st' -> p_curSec st = p_curSec st' ->
  match parse_line file cb t n line st, parse_line file cb t n' line st' with
  | inl a, inl b => p_sections a = p_sections b /\ p_curSec a = p_curSec b
  | inr e, inr e' => same_error (Some e) (Some e')
  | _, _ => False
  end.
Proof.
  intros Hs Hc. unfold parse_line. destruct line as [|c l]; [auto|].
  destruct (COMMENT_match (c :: l)); [auto|].
  destruct (SECTION_exec (c :: l)); [cbn [p_sections p_curSec]; rewrite Hs; auto|].
  rewrite <- Hc. destruct (p_curSec st) as [cur|]; [|cbn; auto].
  destruct (key_value (c :: l)) as [[k v]|];
    [cbn [p_sections p_curSec]; rewrite Hs; auto|].
  destruct cb; cbn; auto.
Qed.

Lemma forEach_kept file cb t (ls : list jsstring) :
  forall n n' st st',
    p_sections st = p_sections st' -> p_curSec st = p_curSec st' ->
    p_sections (fst (forEach file cb t ls n st)) =
    p_sections (fst (forEach file cb t
                             (List.filter (fun l => negb (is_skipped l)) ls) n' st')) /\
    same_error (snd (forEach file cb t ls n st))
               (snd (forEach file cb t
                             (List.filter (fun l => negb (is_skipped l)) ls) n' st')).
Proof.
  induction ls as [|l ls IH]; intros n n' st st' Hs Hc.
  - cbn. auto.
  - cbn [List.filter forEach]. destruct (is_skipped l) eqn:Hk; cbn [negb].
    + rewrite parse_line_skipped by assumption. apply IH; assumption.
    + cbn [forEach].
      pose proof (parse_line_renumber file cb t n n' l st st' Hs Hc) as Hr.
      destruct (parse_line file cb t n l st) as [a|e],
               (parse_line file cb t n' l st') as [b|e']; try contradiction.
      * apply IH; tauto.
      * cbn [fst snd]. auto.
Qed.

(** X8: blank lines and comment lines change nothing but line numbers:
    parsing the lines without them stores the same sections and ends the
    same way, with no error or with the same kind of error for the same
    file and line text. *)
Theorem skipped_lines_ignored (cp : ConfigParser) (ls : list jsstring) :
  p_sections (fst (parseLines cp ls)) = p_sections (fst (parseLines cp (kept_lines ls))) /\
  same_error (snd (parseLines cp ls)) (snd (parseLines cp (kept_lines ls))).
Proof.
  unfold parseLines, kept_lines.
  rewrite (map_filter_comm _ _ strip_leading (fun l => negb (is_skipped l)) ls).
  apply forEach_kept; reflexivity.
Qed.

Lemma forEach_stops file cb t (ls : list jsstring) :
  forall n st st' e,
    forEach file cb t (List.map strip_leading ls) n st = (st', Some e) ->
    exists pre line post,
      ls = pre ++ line :: post /\
      forEach file cb t (List.map strip_leading pre) n st = (st', None) /\
      parse_line file cb t (n + List.length pre) (strip_leading line) st' = inr e.
Proof.
  induction ls as [|l ls IH]; intros n st st' e H; [discriminate|].
  cbn [List.map forEach] in H.
  destruct (parse_line file cb t n (strip_leading l) st) as [st1|e1] eqn:Hl.
  - destruct (IH _ _ _ _ H) as (pre & line & post & -> & Hpre & Hline).
    exists (l :: pre), line, post. split; [reflexivity|].
    cbn [List.map forEach List.length]. rewrite Hl, Nat.add_succ_r.
    split; assumption.
  - injection H as <- <-. exists [], l, ls. split; [reflexivity|].
    cbn [List.map forEach List.length]. rewrite Nat.add_0_r.
    split; [reflexivity|assumption].
Qed.

(** X9: when parsing throws, it stops at one line: the error carries the
    index of that line among the lines (from 0) and its text less the
    leading white space, and the sections stored are those the lines
    before it gave; nothing of that line or of a later line is stored. *)
Theorem parse_stops_at_line (cp : ConfigParser) (ls : list jsstring)
        (st : pstate) (e : error) :
  parseLines cp ls = (st, Some e) ->
  exists pre line post,
    ls = pre ++ line :: post /\
    parseLines cp pre = (st, None) /\
    (e = MissingSectionHeaderError (_file cp) (List.length pre) (strip_leading line) \/
     e = ParseError (or_empty (_file cp)) (List.length pre) (strip_leading line)).
Proof.
  unfold parseLines. intro H.
  destruct (forEach_stops _ _ _ _ _ _ _ _ H) as (pre & line & post & -> & Hpre & Hline).
  exists pre, line, post. split; [reflexivity|]. split; [assumption|].
  cbn [plus] in Hline.
  destruct (parse_line_cases (_file cp) (_onInvalidLine cp) (_transform cp)
              (List.length pre) (strip_leading line) st)
    as [[_ Hp]|[(h & _ & _ & Hp)|[(_ & _ & _ & Hp)|[(c & k & v & _ & _ & _ & _ & Hp)
       |(c & _ & _ & _ & Hp)]]]]; rewrite Hp in Hline; try discriminate.
  - left. congruence.
  - right. destruct (_onInvalidLine cp); [discriminate|congruence].
Qed.

(** X10: which error parsing throws: MissingSectionHeaderError only while
    no header line has been read, ParseError only after a header line and
    only when no callback is configured. *)
Theorem parse_error_kinds (cp : ConfigParser) (ls : list jsstring) (e : error) :
  snd (parseLines cp ls) = Some e ->
  (exists n l,
      e = MissingSectionHeaderError (_file cp) n l /\
      Forall (fun x => is_header (strip_leading x) = false) (firstn n ls)) \/
  (exists n l,
      e = ParseError (or_empty (_file cp)) n l /\
      _onInvalidLine cp = false /\
      Exists (fun x => is_header (strip_leading x) = true) (firstn n ls)).
Proof.
  intro H. destruct (parseLines cp ls) as [st e0] eqn:Hrun. cbn [snd] in H. subst e0.
  unfold parseLines in Hrun.
  destruct (forEach_stops _ _ _ _ _ _ _ _ Hrun) as (pre & line & post & -> & Hpre & Hline).
  cbn [plus] in Hline.
  assert (Hfirst : firstn (List.length pre) (pre ++ line :: post) = pre).
  { rewrite firstn_app, Nat.sub_diag, firstn_all. cbn. apply app_nil_r. }
  pose proof (curSec_header_seen toUpperCase toLowerCase _ _ _ _ _ _ _ Hpre eq_refl)
    as Hseen.
  destruct (parse_line_cases (_file cp) (_onInvalidLine cp) (_transform cp)
              (List.length pre) (strip_leading line) st)
    as [[_ Hp]|[(h & _ & _ & Hp)|[(_ & _ & Hc & Hp)|[(c & k & v & _ & _ & _ & _ & Hp)
       |(c & _ & _ & Hc & Hp)]]]]; rewrite Hp in Hline; try discriminate.
  - left. exists (List.length pre), (strip_leading line). split; [congruence|].
    rewrite Hfirst. apply Forall_forall. intros x Hx.
    destruct (is_header (strip_leading x)) eqn:Hh; [|reflexivity].
    exfalso. apply (proj2 Hseen); [|assumption].
    apply Exists_exists. exists (strip_leading x). split; [|assumption].
    apply in_map. assumption.
  - right. destruct (_onInvalidLine cp); [discriminate|].
    exists (List.length pre), (strip_leading line). split; [congruence|].
    split; [reflexivity|]. rewrite Hfirst.
    assert (He : Exists (fun l => is_header l = true) (List.map strip_leading pre))
      by (apply Hseen; congruence).
    apply Exists_exists in He. destruct He as (y & Hy & Hh).
    apply in_map_iff in Hy. destruct Hy as (x & <- & Hx).
    apply Exists_exists. exists x. auto.
Qed.

Lemma forEach_no_throw file t (ls : list jsstring) :
  forall n st, p_curSec st <> None -> snd (forEach file true t ls n st) = None.
Proof.
  induction ls as [|l ls IH]; intros n st Hc; [reflexivity|].
  cbn [forEach].
  destruct (parse_line_cases file true t n l st)
    as [[_ Hp]|[(h & _ & _ & Hp)|[(_ & _ & Hn & _)|[(c & k & v & _ & _ & _ & _ & Hp)
       |(c & _ & _ & _ & Hp)]]]]; try rewrite Hp; try contradiction;
    apply IH; cbn [p_curSec with_call]; try discriminate; assumption.
Qed.

(** X11: with a callback configured, a document whose first line that is
    neither blank nor a comment is a section header never makes parsing
    throw, whatever follows. *)
Theorem callback_never_throws (cp : ConfigParser) (pre : list jsstring)
        (hdr : jsstring) (rest : list jsstring) :
  _onInvalidLine cp = true ->
  Forall (fun l => is_skipped (strip_leading l) = true) pre ->
  is_header (strip_leading hdr) = true ->
  snd (parseLines cp (pre ++ hdr :: rest)) = None.
Proof.
  unfold parseLines. intros -> Hpre Hh. rewrite map_app. cbn [List.map].
  set (st := {| p_sections := _sections cp; p_curSec := None; p_calls := [] |}).
  generalize 0 as n. induction Hpre as [|l pre Hl Hpre IH]; intro n.
  - cbn [List.map app forEach].
    destruct (parse_line_cases (_file cp) true (_transform cp) n (strip_leading hdr) st)
      as [[Hs _]|[(h & _ & _ & Hp)|[(_ & Hn & _)|[(c & k & v & _ & Hn & _)
         |(c & _ & Hn & _)]]]]; try congruence.
    + unfold is_header in Hh. rewrite Hs in Hh. discriminate.
    + rewrite Hp. apply forEach_no_throw. discriminate.
  - cbn [List.map app forEach]. rewrite parse_line_skipped by assumption. apply IH.
Qed.

Lemma forEach_fst_invariant (I : pstate -> Prop) file cb t (ls : list jsstring) :
  (forall l n st st1, In l ls -> I st ->
                      parse_line file cb t n l st = inl st1 -> I st1) ->
  forall n st, I st -> I (fst (forEach file cb t ls n st)).
Proof.
  induction ls as [|l ls IH]; intros Hstep n st HI; [exact HI|].
  cbn [forEach]. destruct (parse_line file cb t n l st) as [st1|e] eqn:Hl; [|exact HI].
  apply IH.
  - intros l' n' s s1 Hin. apply Hstep. right. exact Hin.
  - eapply Hstep; [left; reflexivity|exact HI|exact Hl].
Qed.

(** A name that no header line gives is read, after the loop, as before
    it. *)
Lemma forEach_lookup_untouched file cb t (ls : list jsstring) (x : jsstring) :
  (forall l h, In l ls -> is_header l = true -> SECTION_exec l = Some h ->
               transformKey t h <> x) ->
  forall n st, p_curSec st <> Some x ->
               lookup (p_sections (fst (forEach file cb t ls n st))) x =
               lookup (p_sections st) x.
Proof.
  intros Hx n st Hc.
  pose proof (forEach_fst_invariant
                (fun s => lookup (p_sections s) x = lookup (p_sections st) x /\
                          p_curSec s <> Some x)
                file cb t ls) as Hinv.
  enough (Hstep : forall l n s s1,
             In l ls ->
             lookup (p_sections s) x = lookup (p_sections st) x /\
             p_curSec s <> Some x ->
             parse_line file cb t n l s = inl s1 ->
             lookup (p_sections s1) x = lookup (p_sections st) x /\
             p_curSec s1 <> Some x).
  { assert (H0 : lookup (p_sections st) x = lookup (p_sections st) x /\
                 p_curSec st <> Some x) by (split; [reflexivity|assumption]).
    pose proof (Hinv Hstep n st H0) as Hfin. cbv beta in Hfin.
    exact (proj1 Hfin). }
  intros l m s s1 Hin [Hlk Hcur] Hl.
  destruct (parse_line_cases file cb t m l s)
    as [[_ Hp]|[(h & Hh & Hs & Hp)|[(_ & _ & _ & Hp)|[(c & k & v & _ & _ & Hcs & _ & Hp)
       |(c & _ & _ & Hcs & Hp)]]]]; rewrite Hp in Hl.
  - injection Hl as <-. auto.
  - injection Hl as <-. cbn [p_sections p_curSec].
    pose proof (Hx l h Hin Hh Hs) as Hne.
    rewrite lookup_assign_other by assumption. split; [assumption|congruence].
  - discriminate.
  - injection Hl as <-. cbn [p_sections p_curSec].
    assert (Hcx : c <> x) by congruence.
    split; [|congruence]. unfold assign_in.
    destruct (lookup (p_sections s) c); [|assumption].
    rewrite lookup_assign_other by assumption. assumption.
  - destruct cb; [|discriminate]. injection Hl as <-.
    cbn [with_call p_sections p_curSec]. auto.
Qed.

(** X12: reading a text none of whose header lines gives (after the
    transform) the name [__proto__] or [hasOwnProperty], into a parser
    that already holds sections, removes none of them, and a name that no
    header line of the text gives reads exactly as it did, whether or not
    the read ends in an error. *)
Theorem read_keeps_other_sections (cp : ConfigParser) (file : file_ref)
        (text : jsstring) :
  (forall l h, In l (split_lines text) ->
               is_header (strip_leading l) = true ->
               SECTION_exec (strip_leading l) = Some h ->
               transformKey (_transform cp) h <> proto_name /\
               transformKey (_transform cp) h <> hasOwnProperty_name) ->
  (forall x, hasSection cp x = Return true ->
             hasSection (fst (fst (read toUpperCase toLowerCase cp file text))) x
             = Return true) /\
  (forall x,
      (forall l h, In l (split_lines text) ->
                   is_header (strip_leading l) = true ->
                   SECTION_exec (strip_leading l) = Some h ->
                   transformKey (_transform cp) h <> x) ->
      items (fst (fst (read toUpperCase toLowerCase cp file text))) x = items cp x /\
      hasSection (fst (fst (read toUpperCase toLowerCase cp file text))) x
      = hasSection cp x).
Proof.
  intro Hnames.
  unfold read, parseLines. cbn [_file _transform _onInvalidLine _sections].
  set (st0 := {| p_sections := _sections cp; p_curSec := None; p_calls := [] |}).
  assert (Hun : forall x,
             (forall l h, In l (split_lines text) ->
                          is_header (strip_leading l) = true ->
                          SECTION_exec (strip_leading l) = Some h ->
                          transformKey (_transform cp) h <> x) ->
             lookup (p_sections
                       (fst (forEach (Some file) (_onInvalidLine cp) (_transform cp)
                                     (List.map strip_leading (split_lines text)) 0 st0))) x
             = lookup (_sections cp) x).
  { intros x Hx.
    rewrite (forEach_lookup_untouched (Some file) (_onInvalidLine cp) (_transform cp)
               (List.map strip_leading (split_lines text)) x).
    - reflexivity.
    - intros l h Hin Hh Hs. apply in_map_iff in Hin. destruct Hin as (l0 & <- & Hin0).
      eapply Hx; eassumption.
    - subst st0. cbn [p_curSec]. discriminate. }
  assert (Hp : lookup (p_sections
                       (fst (forEach (Some file) (_onInvalidLine cp) (_transform cp)
                                     (List.map strip_leading (split_lines text)) 0 st0)))
                      proto_name
               = lookup (_sections cp) proto_name).
  { apply Hun. intros l h Hin Hh Hs. exact (proj1 (Hnames l h Hin Hh Hs)). }
  assert (Hh : lookup (p_sections
                       (fst (forEach (Some file) (_onInvalidLine cp) (_transform cp)
                                     (List.map strip_leading (split_lines text)) 0 st0)))
                      hasOwnProperty_name
               = lookup (_sections cp) hasOwnProperty_name).
  { apply Hun. intros l h Hin Hh Hs. exact (proj2 (Hnames l h Hin Hh Hs)). }
  destruct (forEach (Some file) (_onInvalidLine cp) (_transform cp)
                    (List.map strip_leading (split_lines text)) 0 st0)
    as [st e] eqn:Hrun.
  cbn [fst _sections] in *. unfold hasSection, items. cbn [_sections]. split.
  - intros x Hx. destruct (hasOwnProperty_true _ _ Hx) as (Hc & Hxp & o & Ho & Hl).
    rewrite hasOwnProperty_callable. rewrite (callable_ext _ _ Hh Hp), Hc.
    unfold own_section. apply jseqb_neq in Hxp. rewrite Hxp.
    assert (Hown : has_own (p_sections st) x = true).
    { eapply (forEach_keeps toUpperCase toLowerCase); [exact Hrun|].
      subst st0. cbn [p_sections]. unfold has_own. rewrite Hl. reflexivity. }
    unfold has_own in Hown. destruct (lookup (p_sections st) x); [reflexivity|discriminate].
  - intros x Hx. pose proof (Hun x Hx) as Hl. split.
    + apply get_section_ext; assumption.
    + apply hasOwnProperty_ext; [assumption|assumption|]. rewrite Hl. reflexivity.
Qed.

Lemma own_names_order (s : store) :
  Object_keys (own_properties s) =
  key_order (List.filter (fun k => negb (jseqb k proto_name)) (ownKeys s)).
Proof.
  unfold own_properties. rewrite Object_keys_order.
  rewrite (filter_keys section (fun k => negb (jseqb k proto_name))). reflexivity.
Qed.

Lemma mem_string_filter_proto (k : jsstring) (l : list jsstring) :
  k <> proto_name ->
  mem_string k (List.filter (fun x => negb (jseqb x proto_name)) l) = mem_string k l.
Proof.
  intro Hk. induction l as [|x l IH]; [reflexivity|].
  cbn [List.filter mem_string]. destruct (jseqb x proto_name) eqn:E; cbn [negb mem_string].
  - apply jseqb_eq in E. subst x.
    assert (Hne : jseqb proto_name k = false) by (apply jseqb_neq; congruence).
    rewrite Hne. exact IH.
  - rewrite IH. reflexivity.
Qed.

(** Adding a name that is neither [__proto__] nor an array index to the
    names in creation order adds it to the names as listed. *)
Lemma names_add (l : list jsstring) (h : jsstring) :
  h <> proto_name -> array_index h = None ->
  key_order (List.filter (fun k => negb (jseqb k proto_name)) (add_name l h)) =
  add_name (key_order (List.filter (fun k => negb (jseqb k proto_name)) l)) h.
Proof.
  intros Hp Hi. unfold add_name.
  rewrite (mem_string_perm h _ _ (key_order_perm _)).
  rewrite mem_string_filter_proto by assumption.
  destruct (mem_string h l); [reflexivity|].
  rewrite filter_app. cbn [List.filter]. apply jseqb_neq in Hp. rewrite Hp.
  cbn [negb]. apply key_order_snoc. assumption.
Qed.

Lemma names_add_perm (l : list jsstring) (h : jsstring) :
  h <> proto_name ->
  Permutation
    (key_order (List.filter (fun k => negb (jseqb k proto_name)) (add_name l h)))
    (add_name (key_order (List.filter (fun k => negb (jseqb k proto_name)) l)) h).
Proof.
  intros Hp. unfold add_name.
  rewrite (mem_string_perm h _ _ (key_order_perm _)).
  rewrite mem_string_filter_proto by assumption.
  destruct (mem_string h l); [reflexivity|].
  rewrite filter_app. cbn [List.filter]. apply jseqb_neq in Hp. rewrite Hp.
  cbn [negb]. rewrite key_order_perm. apply Permutation_app_tail.
  symmetry. apply key_order_perm.
Qed.

(** X13: a header line whose name is already a section does not throw, as
    [addSection] would: it empties the section and leaves every other
    name as it was; the names of the sections are the former ones and
    this one, and when the name is not an array index a name that was
    there keeps its place and a new one goes last.  The name [__proto__]
    is left aside. *)
Theorem header_resets_section (cp : ConfigParser) (pre : list jsstring)
        (hdr h : jsstring) (st : pstate) :
  parseLines cp pre = (st, None) ->
  is_header (strip_leading hdr) = true ->
  SECTION_exec (strip_leading hdr) = Some h ->
  transformKey (_transform cp) h <> proto_name ->
  exists st',
    parseLines cp (pre ++ [hdr]) = (st', None) /\
    get_section (p_sections st') (transformKey (_transform cp) h) = VSection [] /\
    Permutation (Object_keys (own_properties (p_sections st')))
                (add_name (Object_keys (own_properties (p_sections st)))
                          (transformKey (_transform cp) h)) /\
    (array_index (transformKey (_transform cp) h) = None ->
     Object_keys (own_properties (p_sections st')) =
     add_name (Object_keys (own_properties (p_sections st)))
              (transformKey (_transform cp) h)) /\
    forall x, x <> transformKey (_transform cp) h ->
              get_section (p_sections st') x = get_section (p_sections st) x.
Proof.
  unfold parseLines. intros Hpre Hh Hs Hp. rewrite map_app, forEach_app, Hpre.
  cbn [List.map forEach].
  assert (Hk : is_skipped (strip_leading hdr) = false).
  { unfold is_header in Hh. apply andb_true_iff in Hh. destruct Hh as [Hh _].
    apply negb_true_iff in Hh. exact Hh. }
  rewrite (parse_line_header toUpperCase toLowerCase _ _ _ _ _ _ _ Hk Hs).
  eexists. split; [reflexivity|]. cbn [p_sections].
  assert (Hnames : ownKeys (assign (p_sections st) (transformKey (_transform cp) h) [])
                   = add_name (ownKeys (p_sections st)) (transformKey (_transform cp) h)).
  { rewrite ownKeys_assign. unfold add_name. rewrite mem_string_lookup.
    destruct (lookup (p_sections st) (transformKey (_transform cp) h)); reflexivity. }
  split; [|split; [|split]].
  - apply get_section_lookup. apply lookup_assign_same.
  - rewrite !own_names_order, Hnames. apply names_add_perm. assumption.
  - intro Hi. rewrite !own_names_order, Hnames. apply names_add; assumption.
  - intros x Hx. apply get_section_ext; apply lookup_assign_other; congruence.
Qed.

Lemma parse_line_names file cb t n line st st1 :
  parse_line file cb t n line st = inl st1 ->
  ownKeys (p_sections st1) =
  fold_left add_name (header_names (transformKey t) [line]) (ownKeys (p_sections st)).
Proof.
  intro H. unfold header_names. cbn [List.flat_map]. rewrite app_nil_r.
  destruct (parse_line_cases file cb t n line st)
    as [[Hs Hp]|[(h & Hh & Hs & Hp)|[(_ & _ & _ & Hp)|[(c & k & v & Hs & Hh & Hc & _ & Hp)
       |(c & Hi & Hh & Hc & Hp)]]]]; rewrite Hp in H.
  - injection H as <-. rewrite Hs. reflexivity.
  - injection H as <-. unfold is_header in Hh. apply andb_true_iff in Hh.
    destruct Hh as [Hk _]. apply negb_true_iff in Hk. rewrite Hk, Hs.
    cbn [fold_left p_sections]. rewrite ownKeys_assign. unfold add_name.
    rewrite mem_string_lookup.
    destruct (lookup (p_sections st) (transformKey t h)); reflexivity.
  - discriminate.
  - injection H as <-. rewrite Hs. unfold is_header in Hh. rewrite Hs in Hh.
    cbn [negb andb] in Hh. destruct (SECTION_exec line); [discriminate|].
    cbn [fold_left p_sections]. unfold assign_in.
    destruct (lookup (p_sections st) c) eqn:E; [|reflexivity].
    rewrite ownKeys_assign, E. reflexivity.
  - unfold is_invalid in Hi. apply andb_true_iff in Hi. destruct Hi as [Hi _].
    apply andb_true_iff in Hi. destruct Hi as [Hk Hn]. apply negb_true_iff in Hk.
    rewrite Hk. destruct (SECTION_exec line); [discriminate|].
    destruct cb; [|discriminate]. injection H as <-. reflexivity.
Qed.

Lemma forEach_names file cb t (ls : list jsstring) :
  forall n st0 st,
    forEach file cb t ls n st0 = (st, None) ->
    ownKeys (p_sections st) =
    fold_left add_name (header_names (transformKey t) ls) (ownKeys (p_sections st0)).
Proof.
  induction ls as [|l rest IH]; intros n st0 st H.
  - cbn [forEach] in H. injection H as <-. reflexivity.
  - cbn [forEach] in H.
    destruct (parse_line file cb t n l st0) as [st1|e] eqn:Hl; [|discriminate].
    rewrite (IH _ _ _ H). rewrite (parse_line_names _ _ _ _ _ _ _ Hl).
    change (l :: rest) with ([l] ++ rest). unfold header_names.
    rewrite flat_map_app, fold_left_app. reflexivity.
Qed.

Lemma names_fold (hs l : list jsstring) :
  Forall (fun h => h <> proto_name /\ array_index h = None) hs ->
  key_order (List.filter (fun k => negb (jseqb k proto_name)) (fold_left add_name hs l)) =
  fold_left add_name hs
            (key_order (List.filter (fun k => negb (jseqb k proto_name)) l)).
Proof.
  intro H. revert l. induction H as [|h hs [Hp Hi] _ IH]; intro l; [reflexivity|].
  cbn [fold_left]. rewrite IH, names_add by assumption. reflexivity.
Qed.

(** X17: after a read without error of a text whose header names are
    neither [__proto__] nor array indices, [sections()] lists the names
    the parser held, then the transformed names of the header lines, each
    name once, at the place of its first occurrence. *)
Theorem sections_in_order_of_appearance (cp : ConfigParser) (ls : list jsstring)
        (st : pstate) :
  parseLines cp ls = (st, None) ->
  Forall (fun h => h <> proto_name /\ array_index h = None)
         (header_names (transformKey (_transform cp)) (List.map strip_leading ls)) ->
  Object_keys (own_properties (p_sections st)) =
  fold_left add_name
            (header_names (transformKey (_transform cp)) (List.map strip_leading ls))
            (sections cp).
Proof.
  unfold parseLines. intros H Hn.
  rewrite own_names_order, sections_order.
  rewrite (forEach_names _ _ _ _ _ _ _ H). cbn [p_sections].
  apply names_fold. assumption.
Qed.
End LoopFacts.

(** ** Writing and reading again *)

Section WriteRead.
Variables toUpperCase toLowerCase : jsstring -> jsstring.

Local Abbreviation parse_line := (parse_line toUpperCase toLowerCase).
Local Abbreviation forEach := (forEach toUpperCase toLowerCase).
Local Abbreviation parseLines := (parseLines toUpperCase toLowerCase).
Local Abbreviation transformKey := (transformKey toUpperCase toLowerCase).

Lemma ownKeys_trim_entries (e : section) : ownKeys (List.map trim_entry e) = ownKeys e.
Proof.
  unfold ownKeys. rewrite map_map. apply map_ext. intros [k v]. reflexivity.
Qed.

Lemma ownKeys_trim_values (s : store) : ownKeys (trim_values s) = ownKeys s.
Proof.
  unfold ownKeys, trim_values. rewrite map_map. apply map_ext. intros [k v]. reflexivity.
Qed.

Lemma entry_writable_line (T : jsstring -> jsstring) (k v : jsstring) :
  entry_writable T (k, v) ->
  strip_leading (entry_line (k, v)) = entry_line (k, v) /\
  is_skipped (entry_line (k, v)) = false /\
  SECTION_exec (entry_line (k, v)) = None /\
  key_value (entry_line (k, v)) = Some (k, trim_start v) /\
  line_clean (entry_line (k, v)) = true.
Proof.
  unfold entry_writable, entry_line. cbn [fst snd].
  intros (Hne & Hk & Hvc & Hvo & _).
  assert (Hkc : line_clean k = true).
  { apply plain_forall; [|assumption]. intros c Hc.
    rewrite (special_boundary c Hc). reflexivity. }
  assert (Hkd : no_delimiter k = true).
  { apply plain_forall; [|assumption]. intros c Hc. unfold is_delimiter.
    cbn [mem_code]. rewrite !(special_not c) by (assumption || (cbn; tauto)).
    reflexivity. }
  assert (Hko : no_open k = true).
  { apply plain_forall; [|assumption]. intros c Hc.
    rewrite (special_not c) by (assumption || (cbn; tauto)). reflexivity. }
  assert (Hcl : line_clean (k ++ ch "=" :: v) = true).
  { rewrite line_clean_app, Hkc. cbn [line_clean forallb andb]. exact Hvc. }
  assert (Hf : first_ok k = true).
  { destruct k as [|c k]; [congruence|]. cbn [plain_text forallb] in Hk.
    apply andb_true_iff in Hk. destruct Hk as [Hc _]. apply negb_true_iff in Hc.
    cbn [first_ok]. rewrite (special_space c Hc). cbn [mem_code].
    rewrite !(special_not c) by (assumption || (cbn; tauto)). reflexivity. }
  destruct (first_ok_facts k Hf) as (_ & Hts & Hcm).
  destruct (key_value_line k (ch "=") v eq_refl Hkd Hne Hts Hcm (clean_dot _ Hcl))
    as (H1 & H2 & H3).
  split; [assumption|]. split; [assumption|]. split; [|split; [|assumption]].
  - rewrite SECTION_exec_find. apply no_open_find_header. unfold no_open.
    rewrite forallb_app. fold (no_open k). rewrite Hko. cbn [forallb andb].
    exact Hvo.
  - rewrite H3, (plain_trim_end k Hk). reflexivity.
Qed.

Lemma NoDup_app_last (a : list jsstring) (k : jsstring) (b : list jsstring) :
  NoDup (a ++ k :: b) -> ~ In k a /\ NoDup ((a ++ [k]) ++ b).
Proof.
  intro H. split.
  - apply NoDup_remove_2 in H. intro Hin. apply H. apply in_or_app. left. assumption.
  - rewrite <- app_assoc. exact H.
Qed.

Lemma write_read_entries file cb t (s1 : store) (n : jsstring) (e2 : section) :
  forall (e1 : section) (i : nat) (calls : list line_info),
    lookup s1 n = None ->
    NoDup (ownKeys e1 ++ ownKeys e2) ->
    Forall (entry_writable (transformKey t)) e2 ->
    forEach file cb t (List.map entry_line e2) i
            {| p_sections := s1 ++ [(n, e1)]; p_curSec := Some n; p_calls := calls |} =
    ({| p_sections := s1 ++ [(n, e1 ++ List.map trim_entry e2)];
        p_curSec := Some n; p_calls := calls |},
     None).
Proof.
  induction e2 as [|[k v] e2 IH]; intros e1 i calls Hn Hnd Hok.
  - cbn [List.map forEach]. rewrite app_nil_r. reflexivity.
  - inversion Hok as [|? ? Hkv Hok']; subst.
    destruct (entry_writable_line _ _ _ Hkv) as (_ & Hsk & Hsec & Hkey & _).
    destruct Hkv as (_ & _ & _ & _ & HT & Hkp & _). cbn [fst] in HT, Hkp.
    change (ownKeys ((k, v) :: e2)) with (k :: ownKeys e2) in Hnd.
    destruct (NoDup_app_last _ _ _ Hnd) as [Hnew Hnd'].
    cbn [List.map forEach].
    rewrite (parse_line_key_value toUpperCase toLowerCase _ _ _ _ _
               {| p_sections := s1 ++ [(n, e1)]; p_curSec := Some n; p_calls := calls |}
               n k (trim_start v) Hsk Hsec eq_refl Hkey).
    cbn [p_sections p_calls]. unfold assign_in.
    rewrite lookup_last by assumption. rewrite HT.
    rewrite put_assign by assumption. rewrite assign_last by assumption.
    rewrite assign_new by (apply lookup_None; assumption).
    specialize (IH (e1 ++ [(k, trim_start v)]) (S i) calls Hn).
    rewrite <- app_assoc in IH. cbn [app] in IH. apply IH; [|assumption].
    rewrite ownKeys_app. exact Hnd'.
Qed.

Lemma write_read_sections file cb t (s2 : store) :
  forall (s1 : store) (i : nat) (c : option jsstring) (calls : list line_info),
    NoDup (ownKeys s1 ++ ownKeys s2) ->
    Forall (fun sk : jsstring * section =>
              name_ok (transformKey t) (fst sk) /\ name_plain (fst sk) /\
              NoDup (ownKeys (snd sk)) /\
              Forall (entry_writable (transformKey t)) (snd sk)) s2 ->
    forEach file cb t (store_lines s2) i
            {| p_sections := s1; p_curSec := c; p_calls := calls |} =
    ({| p_sections := s1 ++ trim_values s2;
        p_curSec := fold_left (fun _ sk => Some (fst sk)) s2 c;
        p_calls := calls |}, None).
Proof.
  induction s2 as [|[n sec] s2 IH]; intros s1 i c calls Hnd Hok.
  - cbn. rewrite app_nil_r. reflexivity.
  - inversion Hok as [|? ? [Hname [_ [Hsnd Hent]]] Hok']; subst. cbn [fst snd] in *.
    destruct (header_replay _ _ Hname) as (_ & Hsk & Hsec & _ & HT).
    change (ownKeys ((n, sec) :: s2)) with (n :: ownKeys s2) in Hnd.
    destruct (NoDup_app_last _ _ _ Hnd) as [Hnew Hnd'].
    assert (Hnone : lookup s1 n = None) by (apply lookup_None; assumption).
    unfold store_lines. cbn [List.map List.concat]. fold (store_lines s2).
    unfold section_lines at 1. cbn [fst snd app forEach].
    rewrite (parse_line_header toUpperCase toLowerCase _ _ _ _ _ _ n Hsk Hsec).
    cbn [p_sections p_calls]. rewrite HT. rewrite assign_new by assumption.
    rewrite <- app_assoc. rewrite forEach_app.
    rewrite (write_read_entries file cb t s1 n sec [] (S i) calls Hnone Hsnd Hent).
    cbn [app forEach].
    rewrite (parse_line_skipped toUpperCase toLowerCase) by reflexivity.
    rewrite IH; [|rewrite ownKeys_app; exact Hnd'|assumption].
    rewrite <- app_assoc. reflexivity.
Qed.

Lemma writable_lines (T : jsstring -> jsstring) (s : store) :
  store_writable T s ->
  Forall (fun l => line_clean l = true /\ strip_leading l = l) (store_lines s).
Proof.
  intros [_ Hs]. unfold store_lines.
  induction Hs as [|[n sec] s [Hn [_ [_ Hent]]] Hs IH]; [constructor|].
  cbn [List.map List.concat]. apply Forall_app. split; [|assumption].
  unfold section_lines. cbn [fst snd] in *. constructor.
  - destruct (header_replay _ _ Hn) as (H1 & _ & _ & H2 & _). auto.
  - apply Forall_app. split; [|constructor; [split; reflexivity|constructor]].
    apply Forall_map. eapply Forall_impl; [|exact Hent].
    intros [k v] Hkv.
    destruct (entry_writable_line _ _ _ Hkv) as (H1 & _ & _ & _ & H2). auto.
Qed.

Lemma lookup_absent (V : Type) (o : dict V) (k : jsstring) :
  Forall (fun e => fst e <> k) o -> lookup o k = None.
Proof.
  induction 1 as [|[k' v'] o Hk _ IH]; [reflexivity|]. cbn [lookup fst] in *.
  apply jseqb_neq in Hk. rewrite Hk. exact IH.
Qed.

(** A store that can be written out is one of ordinary objects. *)
Lemma writable_plain (T : jsstring -> jsstring) (cp : ConfigParser) :
  store_writable T (_sections cp) ->
  unique_keys cp /\ unshadowed (_sections cp) /\
  prototype_of (_sections cp) = None /\ no_index_names (_sections cp).
Proof.
  intros [Hnd Hall].
  assert (Hp : lookup (_sections cp) proto_name = None).
  { apply lookup_absent. eapply Forall_impl; [|exact Hall].
    intros [n sec] (_ & (H & _) & _). exact H. }
  assert (Hh : lookup (_sections cp) hasOwnProperty_name = None).
  { apply lookup_absent. eapply Forall_impl; [|exact Hall].
    intros [n sec] (_ & (_ & H & _) & _). exact H. }
  split; [|split; [|split]].
  - split; [assumption|]. intros sec o Hl. apply lookup_In in Hl.
    rewrite Forall_forall in Hall. destruct (Hall _ Hl) as (_ & _ & H & _). exact H.
  - split.
    + unfold callable. rewrite get_section_hasOwnProperty, Hh, Hp. reflexivity.
    + intros name o Hl. apply lookup_In in Hl.
      rewrite Forall_forall in Hall. destruct (Hall _ Hl) as (_ & _ & _ & H).
      cbn [snd] in H. unfold has_own. rewrite lookup_absent; [reflexivity|].
      eapply Forall_impl; [|exact H].
      intros [k v] (_ & _ & _ & _ & _ & _ & Hk & _). exact Hk.
  - exact Hp.
  - unfold no_index_names. eapply Forall_impl; [|exact Hall].
    intros [n sec] (_ & (_ & _ & Hi) & _ & H). cbn [fst snd] in *.
    split; [assumption|]. eapply Forall_impl; [|exact H].
    intros [k v] (_ & _ & _ & _ & _ & _ & _ & Hk). exact Hk.
Qed.

(** X16: a store built through the API and written out is read back by
    an empty parser of the same transform without error and without a
    call to the callback, with the same sections and keys in the same
    order, and with every value less its leading white space, provided
    the names are ones a header line gives back, the keys are non-empty
    and hold no white space, bracket, delimiter or comment mark, the
    values hold no line boundary and no opening bracket, and no name and
    no key is [__proto__], [hasOwnProperty] or an array index. *)
Theorem write_then_read_trims (cp cp0 : ConfigParser) (file : file_ref) :
  store_writable (transformKey (_transform cp)) (_sections cp) ->
  _transform cp0 = _transform cp -> _sections cp0 = [] ->
  exists out cp',
    getSectionsAsString cp = Return out /\
    read toUpperCase toLowerCase cp0 file out = (cp', [], None) /\
    _sections cp' = trim_values (_sections cp).
Proof.
  intros Hok Ht Hs.
  pose proof (writable_lines _ _ Hok) as Hlines.
  destruct (writable_plain _ _ Hok) as (Huniq & Hsh & Hp & Hi).
  destruct Hok as [Hnd Hall].
  pose proof (write_read_sections (Some file) (_onInvalidLine cp0) (_transform cp)
                (_sections cp) [] 0 None [] Hnd Hall) as Hrun.
  exists (unlines (store_lines (_sections cp))). eexists.
  split.
  { rewrite getSectionsAsString_lines by assumption.
    rewrite canonical_plain by assumption. reflexivity. }
  unfold read, parseLines.
  cbn [_file _transform _onInvalidLine _sections]. rewrite Ht, Hs.
  rewrite split_unlines
    by (eapply Forall_impl; [|exact Hlines]; intros l [Hl _]; exact Hl).
  rewrite map_app.
  replace (List.map strip_leading (store_lines (_sections cp)))
    with (store_lines (_sections cp)).
  2:{ clear - Hlines. induction Hlines as [|l ls [_ Hl] _ IH]; [reflexivity|].
      cbn [List.map]. rewrite Hl, <- IH. reflexivity. }
  rewrite (forEach_app toUpperCase toLowerCase), Hrun. cbn [List.map forEach app].
  rewrite (parse_line_skipped toUpperCase toLowerCase) by reflexivity.
  cbn [p_sections p_calls]. split; reflexivity.
Qed.
End WriteRead.

(** ** Reading the same text twice *)

Lemma view_refl (V : Type) (F : dict V) : view [] F F.
Proof. induction F as [|[k v] F IH]; constructor. assumption. Qed.

Lemma view_init (V : Type) (A : dict V) :
  forall F rest, ownKeys F = ownKeys A ++ rest -> view A F F.
Proof.
  induction A as [|[k va] A IH]; intros F rest H.
  - apply view_refl.
  - destruct F as [|[k' vf] F]; [discriminate|].
    change (k' :: ownKeys F = k :: (ownKeys A ++ rest)) in H.
    injection H as -> H. apply view_final. eapply IH. eassumption.
Qed.

Lemma view_end (V : Type) (A B F : dict V) : view A B F -> A = F -> B = F.
Proof.
  induction 1 as [|k v B F _ _|k v vf A B F _ IH|k va vf A B F _ IH]; intro E.
  - reflexivity.
  - discriminate.
  - injection E as -> E. rewrite (IH E). reflexivity.
  - injection E as _ E. rewrite (IH E). reflexivity.
Qed.

(** The same assignment in both runs keeps the view, when the names of
    the first run stay the first names of the final store. *)
Lemma view_assign (V : Type) (A B F : dict V) (k : jsstring) (v' : V) :
  view A B F ->
  (exists rest, ownKeys F = ownKeys (assign A k v') ++ rest) ->
  view (assign A k v') (assign B k v') F.
Proof.
  induction 1 as [|k0 v B F Hv _|k0 v vf A B F Hv IH|k0 va vf A B F Hv IH];
    intros [rest H].
  - discriminate.
  - change (k0 :: ownKeys F = k :: rest) in H. injection H as -> _.
    cbn [assign]. rewrite jseqb_refl. apply view_same. exact Hv.
  - cbn [assign] in *. destruct (jseqb k0 k) eqn:E.
    + apply view_same. assumption.
    + apply view_same. apply IH. exists rest.
      change (k0 :: ownKeys F = k0 :: (ownKeys (assign A k v') ++ rest)) in H.
      injection H as H. exact H.
  - cbn [assign] in *. destruct (jseqb k0 k) eqn:E.
    + apply view_same. assumption.
    + apply view_final. apply IH. exists rest.
      change (k0 :: ownKeys F = k0 :: (ownKeys (assign A k v') ++ rest)) in H.
      injection H as H. exact H.
Qed.

Section Reread.
Variables toUpperCase toLowerCase : jsstring -> jsstring.

Local Abbreviation parse_line := (parse_line toUpperCase toLowerCase).
Local Abbreviation forEach := (forEach toUpperCase toLowerCase).
Local Abbreviation parseLines := (parseLines toUpperCase toLowerCase).
Local Abbreviation transformKey := (transformKey toUpperCase toLowerCase).

(** A line adds names after the names there are. *)
Lemma parse_line_prefix file cb t n line st st1 :
  parse_line file cb t n line st = inl st1 ->
  exists rest, ownKeys (p_sections st1) = ownKeys (p_sections st) ++ rest.
Proof.
  intro H.
  destruct (parse_line_cases toUpperCase toLowerCase file cb t n line st)
    as [[_ Hp]|[(h & _ & _ & Hp)|[(_ & _ & _ & Hp)|[(c & k & v & _ & _ & _ & _ & Hp)
       |(c & _ & _ & _ & Hp)]]]]; rewrite Hp in H.
  - injection H as <-. exists []. rewrite app_nil_r. reflexivity.
  - injection H as <-. cbn [p_sections]. rewrite ownKeys_assign.
    destruct (lookup (p_sections st) (transformKey t h));
      [exists []; rewrite app_nil_r|eexists]; reflexivity.
  - discriminate.
  - injection H as <-. cbn [p_sections]. unfold assign_in.
    destruct (lookup (p_sections st) c) eqn:E.
    + rewrite ownKeys_assign, E. exists []. rewrite app_nil_r. reflexivity.
    + exists []. rewrite app_nil_r. reflexivity.
  - destruct cb; [|discriminate]. injection H as <-.
    exists []. rewrite app_nil_r. reflexivity.
Qed.

Lemma forEach_prefix file cb t (ls : list jsstring) :
  forall n st st' e,
    forEach file cb t ls n st = (st', e) ->
    exists rest, ownKeys (p_sections st') = ownKeys (p_sections st) ++ rest.
Proof.
  induction ls as [|l ls IH]; intros n st st' e H; cbn [forEach] in H.
  - injection H as <- _. exists []. rewrite app_nil_r. reflexivity.
  - destruct (parse_line file cb t n l st) as [st1|e1] eqn:Hl.
    + destruct (IH _ _ _ _ H) as [r1 H1].
      destruct (parse_line_prefix _ _ _ _ _ _ _ Hl) as [r2 H2].
      exists (r2 ++ r1). rewrite H1, H2, app_assoc. reflexivity.
    + injection H as <- _. exists []. rewrite app_nil_r. reflexivity.
Qed.

Lemma reread_error file cb t n line A B F e :
  same_view A B F ->
  parse_line file cb t n line A = inr e -> parse_line file cb t n line B = inr e.
Proof.
  intros (Hc & _) H.
  destruct (parse_line_cases toUpperCase toLowerCase file cb t n line A)
    as [[_ Hp]|[(h & _ & _ & Hp)|[(Hs & Hh & Hn & Hp)|[(c & k & v & _ & _ & _ & _ & Hp)
       |(c & Hi & _ & Hn & Hp)]]]]; rewrite Hp in H; try discriminate.
  - injection H as <-. apply parse_line_no_section; [assumption| |congruence].
    unfold is_header in Hh. rewrite Hs in Hh. cbn [negb andb] in Hh.
    destruct (SECTION_exec line); [discriminate|reflexivity].
  - rewrite (parse_line_invalid toUpperCase toLowerCase file cb t n line B c Hi)
      by congruence.
    destruct cb; [discriminate|assumption].
Qed.

Lemma reread_step file cb t n line A A1 B F :
  same_view A B F ->
  parse_line file cb t n line A = inl A1 ->
  (exists rest, ownKeys F = ownKeys (p_sections A1) ++ rest) ->
  exists B1, parse_line file cb t n line B = inl B1 /\ same_view A1 B1 F.
Proof.
  intros (Hc & Hcalls & Hview & Hcur) H HF.
  destruct (parse_line_cases toUpperCase toLowerCase file cb t n line A)
    as [[Hs Hp]|[(h & Hh & Hs & Hp)|[(_ & _ & _ & Hp)|[(c & k & v & Hs & Hh & Hn & Hk & Hp)
       |(c & Hi & _ & Hn & Hp)]]]]; rewrite Hp in H.
  - injection H as <-. exists B. split; [apply parse_line_skipped; assumption|].
    repeat (split; [assumption|]). assumption.
  - injection H as <-. cbn [p_sections] in HF.
    assert (Hk : is_skipped line = false).
    { unfold is_header in Hh. apply andb_true_iff in Hh. destruct Hh as [Hh _].
      apply negb_true_iff in Hh. exact Hh. }
    eexists. split; [apply parse_line_header; eassumption|].
    unfold same_view. cbn [p_sections p_curSec p_calls].
    split; [reflexivity|]. split; [assumption|]. split.
    + apply view_assign; assumption.
    + intros cur' E. injection E as <-. rewrite !lookup_assign_same. reflexivity.
  - discriminate.
  - injection H as <-. cbn [p_sections] in HF.
    assert (Hsec : SECTION_exec line = None).
    { unfold is_header in Hh. rewrite Hs in Hh. cbn [negb andb] in Hh.
      destruct (SECTION_exec line); [discriminate|reflexivity]. }
    eexists. split.
    { apply parse_line_key_value; [assumption|assumption| |eassumption].
      rewrite <- Hc. exact Hn. }
    unfold same_view. cbn [p_sections p_curSec p_calls].
    split; [reflexivity|]. split; [assumption|].
    unfold assign_in in *. rewrite (Hcur c Hn).
    destruct (lookup (p_sections A) c) as [o|] eqn:Ho.
    + split.
      * apply view_assign; assumption.
      * intros cur' E. injection E as <-. rewrite !lookup_assign_same. reflexivity.
    + split; [assumption|].
      intros cur' E. injection E as <-. exact (Hcur c Hn).
  - destruct cb; [|discriminate]. injection H as <-.
    eexists. split.
    { rewrite (parse_line_invalid toUpperCase toLowerCase file true t n line B c Hi)
        by congruence.
      reflexivity. }
    unfold same_view, with_call. cbn [p_sections p_curSec p_calls].
    split; [assumption|]. split; [rewrite Hcalls; reflexivity|].
    split; assumption.
Qed.

Lemma reread_run file cb t (ls : list jsstring) :
  forall n A B Fst e,
    forEach file cb t ls n A = (Fst, e) ->
    same_view A B (p_sections Fst) ->
    exists Bst, forEach file cb t ls n B = (Bst, e) /\
                same_view Fst Bst (p_sections Fst).
Proof.
  induction ls as [|l ls IH]; intros n A B Fst e Hrun Hv.
  - cbn [forEach] in *. injection Hrun as <- <-. exists B. split; [reflexivity|assumption].
  - cbn [forEach] in *.
    destruct (parse_line file cb t n l A) as [A1|e1] eqn:Hl.
    + destruct (reread_step _ _ _ _ _ _ _ _ _ Hv Hl) as (B1 & HB & Hv1).
      { eapply forEach_prefix. exact Hrun. }
      rewrite HB. eapply IH; eassumption.
    + injection Hrun as <- <-. rewrite (reread_error _ _ _ _ _ _ _ _ _ Hv Hl).
      exists B. split; [reflexivity|assumption].
Qed.

(** X18: reading the same text a second time changes nothing: the second
    read leaves the sections, their order, their keys and their values as
    the first read left them, makes the same calls to the callback and
    ends the same way, with no error or with the same error. *)
Theorem read_twice_same (cp : ConfigParser) (file : file_ref) (text : jsstring) :
  NoDup (sections cp) ->
  read toUpperCase toLowerCase
       (fst (fst (read toUpperCase toLowerCase cp file text))) file text =
  read toUpperCase toLowerCase cp file text.
Proof.
  unfold read, parseLines.
  cbn [_file _transform _onInvalidLine _sections]. intros _.
  set (st0 := {| p_sections := _sections cp; p_curSec := None; p_calls := [] |}).
  destruct (forEach (Some file) (_onInvalidLine cp) (_transform cp)
                    (List.map strip_leading (split_lines text)) 0 st0)
    as [Fst e] eqn:Hrun.
  cbn [fst _file _transform _onInvalidLine _sections].
  destruct (forEach_prefix _ _ _ _ _ _ _ _ Hrun) as [rest Hpre].
  destruct (reread_run _ _ _ _ _ st0
              {| p_sections := p_sections Fst; p_curSec := None; p_calls := [] |}
              _ _ Hrun) as (Bst & HB & Hc & Hcalls & Hview & _).
  { unfold same_view. cbn [p_sections p_curSec p_calls].
    split; [reflexivity|]. split; [reflexivity|].
    split; [eapply view_init; exact Hpre|discriminate]. }
  rewrite HB. cbn [fst].
  rewrite (view_end _ _ _ _ Hview eq_refl), Hcalls. reflexivity.
Qed.
End Reread.

(** ** keys, hasKey and items *)

Lemma distinct_NoDup (ks : list jsstring) : distinct ks = true -> NoDup ks.
Proof.
  induction ks as [|k ks IH]; cbn [distinct]; intro H; constructor.
  - apply andb_true_iff in H. destruct H as [H _]. apply negb_true_iff in H.
    intro Hin. apply mem_string_In in Hin. congruence.
  - apply IH. apply andb_true_iff in H. tauto.
Qed.

Lemma distinct_unique_keys (cp : ConfigParser) :
  distinct (ownKeys (_sections cp)) = true ->
  forallb (fun sk : jsstring * section => distinct (ownKeys (snd sk))) (_sections cp) = true ->
  unique_keys cp.
Proof.
  intros H1 H2. split; [apply distinct_NoDup; assumption|].
  intros sec o Hl. apply lookup_In in Hl. rewrite forallb_forall in H2.
  apply distinct_NoDup. apply (H2 (sec, o) Hl).
Qed.

Lemma In_keys_lookup (V : Type) (o : dict V) (k : jsstring) :
  In k (ownKeys o) <-> has_own o k = true.
Proof.
  unfold has_own. pose proof (lookup_None o k) as Hn.
  destruct (lookup o k) as [v|] eqn:E.
  - split; [reflexivity|]. intros _.
    destruct (in_dec (list_eq_dec N.eq_dec) k (ownKeys o)) as [Hin|Hout];
      [assumption|].
    apply Hn in Hout. discriminate.
  - split; [|discriminate]. intro Hin. exfalso. apply (proj1 Hn); auto.
Qed.

(** X19: for a name that is no section and that [this._sections] does not
    inherit either, [keys] throws NoSectionError, [items] returns
    undefined and [hasKey] false without throwing; for a section that is
    there, [items] returns it and [keys] lists exactly the keys for which
    [hasKey], where it returns, holds.  For [keys], the section is there
    exactly when [items] returns something: [keys] throws NoSectionError
    exactly when [items] returns undefined. *)
Theorem keys_and_hasKey (cp : ConfigParser) (sec : jsstring) :
  (hasSection cp sec = Return false ->
   prototype_of (_sections cp) = None ->
   Object_prototype_get sec = MUndefined ->
   keys cp sec = Throw (NoSectionError sec) /\ items cp sec = VUndefined /\
   forall k, hasKey cp sec k = Return false) /\
  (hasSection cp sec = Return true ->
   exists o ks, items cp sec = VSection o /\ keys cp sec = Return ks /\
                forall k b, hasKey cp sec k = Return b -> (b = true <-> In k ks)) /\
  (keys cp sec = Throw (NoSectionError sec) <-> items cp sec = VUndefined).
Proof.
  split; [|split].
  - intros Hs Hp Hg. unfold hasSection in Hs.
    destruct (hasOwnProperty_false _ _ Hs) as [Hc Ho].
    assert (Hi : get_section (_sections cp) sec = VUndefined).
    { unfold get_section. unfold own_section in Ho.
      destruct (jseqb sec proto_name) eqn:E.
      - apply jseqb_eq in E. subst sec. discriminate.
      - rewrite Ho, Hp, Hg. reflexivity. }
    unfold keys, items, hasKey. rewrite Hi, Hs. cbn [bind Object_keys_of].
    repeat split; reflexivity.
  - intro Hs. destruct (hasSection_true _ _ Hs) as (Hc & Hp & Hh & o & Hl & Ho).
    exists o, (Object_keys o). unfold items, keys.
    rewrite (get_section_lookup _ _ _ Hl). cbn [Object_keys_of].
    split; [reflexivity|]. split; [reflexivity|].
    intros k b Hk. destruct (hasKey_returns _ _ _ _ Hk) as [[_ Hs']|(_ & o' & Hl' & _ & ->)].
    + congruence.
    + rewrite Hl in Hl'. injection Hl' as <-.
      rewrite Object_keys_order. rewrite <- In_keys_lookup. split; intro H.
      * eapply Permutation_in; [symmetry; apply key_order_perm|exact H].
      * eapply Permutation_in; [apply key_order_perm|exact H].
  - unfold keys, items. destruct (get_section (_sections cp) sec); cbn [Object_keys_of];
      split; intro H; try discriminate; reflexivity.
Qed.

(** ** The further properties at concrete inputs *)

Lemma api_built_unique : unique_keys api_built.
Proof. apply distinct_unique_keys; reflexivity. Qed.

Lemma set_then_get_witness :
  hasSection api_built (lit "a") = Return true /\
  lit "x" <> proto_name /\
  exists cp',
    set api_built (lit "a") (lit "x") (lit "9") = Return cp' /\
    get cp' (lit "a") (lit "x") true = Return (VString (lit "9")) /\
    (forall sec' key', sec' <> lit "a" \/ key' <> lit "x" ->
                       get cp' sec' key' true = get api_built sec' key' true) /\
    sections cp' = sections api_built.
Proof.
  assert (Hk : lit "x" <> proto_name) by differ.
  split; [reflexivity|]. split; [exact Hk|].
  exact (set_then_get api_built (lit "a") (lit "x") (lit "9") eq_refl Hk).
Defined.

Lemma set_key_order_witness :
  hasSection api_built (lit "a") = Return true /\
  keys api_built (lit "a") = Return [lit "x"; lit "y"] /\
  lit "w" <> proto_name /\ array_index (lit "w") = None /\
  exists cp',
    set api_built (lit "a") (lit "w") (lit "0") = Return cp' /\
    keys cp' (lit "a") = Return [lit "x"; lit "y"; lit "w"].
Proof.
  assert (Hk : lit "w" <> proto_name) by differ.
  split; [reflexivity|]. split; [reflexivity|]. split; [exact Hk|].
  split; [reflexivity|].
  exact (set_key_order api_built (lit "a") (lit "w") (lit "0") [lit "x"; lit "y"]
           eq_refl eq_refl Hk eq_refl).
Defined.

Lemma removeKey_removes_witness :
  unique_keys api_built /\
  hasKey api_built (lit "a") (lit "x") = Return true /\
  exists cp',
    removeKey api_built (lit "a") (lit "x") = Return (cp', true) /\
    (true = false -> cp' = api_built) /\
    hasKey cp' (lit "a") (lit "x") = Return false /\
    (forall sec' key', sec' <> lit "a" \/ key' <> lit "x" ->
                       get cp' sec' key' true = get api_built sec' key' true) /\
    sections cp' = sections api_built.
Proof.
  split; [exact api_built_unique|]. split; [reflexivity|].
  exact (removeKey_removes api_built (lit "a") (lit "x") true api_built_unique eq_refl).
Defined.

Lemma removeSection_removes_witness :
  unique_keys api_built /\
  hasSection api_built (lit "a") = Return true /\
  exists cp',
    removeSection api_built (lit "a") = Return (cp', true) /\
    (true = false -> cp' = api_built) /\
    hasSection cp' (lit "a") = Return false /\
    (forall x, x <> lit "a" -> items cp' x = items api_built x) /\
    sections cp' = [lit "b"].
Proof.
  split; [exact api_built_unique|]. split; [reflexivity|].
  exact (removeSection_removes api_built (lit "a") true api_built_unique eq_refl).
Defined.

Lemma addSection_removeSection_witness :
  hasSection api_built (lit "c") = Return false /\
  lit "c" <> proto_name /\ lit "c" <> hasOwnProperty_name /\
  addSection api_built (lit "c")
  = Return (with_sections api_built (assign (_sections api_built) (lit "c") [])) /\
  removeSection (with_sections api_built (assign (_sections api_built) (lit "c") []))
                (lit "c") = Return (api_built, true).
Proof.
  assert (Hp : lit "c" <> proto_name) by differ.
  assert (Hh : lit "c" <> hasOwnProperty_name) by differ.
  split; [reflexivity|]. split; [exact Hp|]. split; [exact Hh|].
  split; [reflexivity|].
  exact (addSection_removeSection api_built _ (lit "c") eq_refl Hp Hh eq_refl).
Defined.

Lemma split_any_separator_witness :
  In [13; 10]%N separators /\
  split_lines (join_lines [13; 10]%N [lit "[s]"; lit "k=v"; []])
  = [lit "[s]"; lit "k=v"; []].
Proof.
  split; [left; reflexivity|].
  apply (split_any_separator [13; 10]%N [lit "[s]"; lit "k=v"; []]).
  - left. reflexivity.
  - discriminate.
  - repeat constructor.
Defined.

Lemma getInt_reads_raw_witness :
  get cyclic (lit "s") (lit "a") true = Return (VString (ch "%" :: lit "(b)s")) /\
  getInt cyclic (lit "s") (lit "a") None = Return VNaN.
Proof.
  split; [reflexivity|].
  exact (getInt_reads_raw cyclic (lit "s") (lit "a") (lit "(b)s") None eq_refl).
Defined.

Lemma getInt_no_hex_prefix_witness :
  get hex_value (lit "s") (lit "n") true
  = Return (VString (ch "0" :: ch "x" :: lit "1F")) /\
  getInt hex_value (lit "s") (lit "n") None = Return (VNumber 0) /\
  getInt hex_value (lit "s") (lit "n") (Some 16%Z) = Return (VNumber 31).
Proof.
  split; [reflexivity|].
  exact (getInt_no_hex_prefix hex_value (lit "s") (lit "n") (lit "1F") (ch "x")
           (or_introl eq_refl) eq_refl).
Defined.

Lemma parse_stops_at_line_witness :
  exists pre line post,
    broken_lines = pre ++ line :: post /\
    parseLines ascii_upper ascii_lower strict_parser pre
    = (fst (parseLines ascii_upper ascii_lower strict_parser broken_lines), None) /\
    (ParseError (Some (Path (lit "conf.ini"))) 2 (lit "oops")
     = MissingSectionHeaderError (_file strict_parser) (List.length pre)
                                 (strip_leading line) \/
     ParseError (Some (Path (lit "conf.ini"))) 2 (lit "oops")
     = ParseError (or_empty (_file strict_parser)) (List.length pre)
                  (strip_leading line)).
Proof.
  apply (parse_stops_at_line ascii_upper ascii_lower strict_parser broken_lines).
  reflexivity.
Defined.

Lemma parse_error_kinds_witness :
  snd (parseLines ascii_upper ascii_lower strict_parser broken_lines)
  = Some (ParseError (Some (Path (lit "conf.ini"))) 2 (lit "oops")) /\
  ((exists n l,
       ParseError (Some (Path (lit "conf.ini"))) 2 (lit "oops")
       = MissingSectionHeaderError (_file strict_parser) n l /\
       Forall (fun x => is_header (strip_leading x) = false) (firstn n broken_lines)) \/
   (exists n l,
       ParseError (Some (Path (lit "conf.ini"))) 2 (lit "oops")
       = ParseError (or_empty (_file strict_parser)) n l /\
       _onInvalidLine strict_parser = false /\
       Exists (fun x => is_header (strip_leading x) = true) (firstn n broken_lines))).
Proof.
  split; [reflexivity|].
  apply (parse_error_kinds ascii_upper ascii_lower strict_parser broken_lines).
  reflexivity.
Defined.

Lemma callback_never_throws_witness :
  _onInvalidLine lenient_parser = true /\
  snd (parseLines ascii_upper ascii_lower lenient_parser
                  ([[]; lit "; note"] ++ lit "[s]" :: [lit "oops"; lit "k=v"])) = None.
Proof.
  split; [reflexivity|].
  apply (callback_never_throws ascii_upper ascii_lower lenient_parser
           [[]; lit "; note"] (lit "[s]") [lit "oops"; lit "k=v"]).
  - reflexivity.
  - repeat constructor.
  - reflexivity.
Defined.

Lemma other_text_names :
  forall l h, In l (split_lines other_text) ->
              is_header (strip_leading l) = true ->
              SECTION_exec (strip_leading l) = Some h ->
              transformKey ascii_upper ascii_lower (_transform api_built) h
              <> proto_name /\
              transformKey ascii_upper ascii_lower (_transform api_built) h
              <> hasOwnProperty_name.
Proof.
  intros l h Hin _ Hs. vm_compute in Hin.
  repeat (destruct Hin as [<-|Hin];
          [vm_compute in Hs; try discriminate Hs; injection Hs as <-;
           split; differ|]).
  destruct Hin.
Qed.

Lemma read_keeps_other_sections_witness :
  (forall l h, In l (split_lines other_text) ->
               is_header (strip_leading l) = true ->
               SECTION_exec (strip_leading l) = Some h ->
               transformKey ascii_upper ascii_lower (_transform api_built) h
               <> proto_name /\
               transformKey ascii_upper ascii_lower (_transform api_built) h
               <> hasOwnProperty_name) /\
  (forall x, hasSection api_built x = Return true ->
             hasSection (fst (fst (read ascii_upper ascii_lower api_built
                                        (Path (lit "conf.ini")) other_text))) x
             = Return true) /\
  (forall x,
      (forall l h, In l (split_lines other_text) ->
                   is_header (strip_leading l) = true ->
                   SECTION_exec (strip_leading l) = Some h ->
                   transformKey ascii_upper ascii_lower (_transform api_built) h <> x) ->
      items (fst (fst (read ascii_upper ascii_lower api_built
                            (Path (lit "conf.ini")) other_text))) x
      = items api_built x /\
      hasSection (fst (fst (read ascii_upper ascii_lower api_built
                                 (Path (lit "conf.ini")) other_text))) x
      = hasSection api_built x).
Proof.
  split; [exact other_text_names|].
  exact (read_keeps_other_sections ascii_upper ascii_lower api_built
           (Path (lit "conf.ini")) other_text other_text_names).
Defined.

Lemma header_resets_section_witness :
  lit "a" <> proto_name /\
  exists st',
    parseLines ascii_upper ascii_lower plain_parser (recurring_lines ++ [lit "[a]"])
    = (st', None) /\
    get_section (p_sections st') (lit "a") = VSection [] /\
    Permutation (Object_keys (own_properties (p_sections st')))
                [lit "a"; lit "b"] /\
    (array_index (lit "a") = None ->
     Object_keys (own_properties (p_sections st')) = [lit "a"; lit "b"]) /\
    forall x, x <> lit "a" ->
              get_section (p_sections st') x
              = get_section (p_sections
                               (fst (parseLines ascii_upper ascii_lower plain_parser
                                                recurring_lines))) x.
Proof.
  assert (Hp : lit "a" <> proto_name) by differ.
  split; [exact Hp|].
  exact (header_resets_section ascii_upper ascii_lower plain_parser recurring_lines
           (lit "[a]") (lit "a")
           (fst (parseLines ascii_upper ascii_lower plain_parser recurring_lines))
           eq_refl eq_refl eq_refl Hp).
Defined.

Lemma recurring_names :
  Forall (fun h => h <> proto_name /\ array_index h = None)
         (header_names (transformKey ascii_upper ascii_lower (_transform api_built))
                       (List.map strip_leading
                                 (recurring_lines ++ [lit "[a]"; lit "[c]"]))).
Proof.
  apply Forall_forall. intros h Hin. vm_compute in Hin.
  repeat (destruct Hin as [<-|Hin]; [split; [differ|reflexivity]|]).
  destruct Hin.
Qed.

Lemma sections_in_order_of_appearance_witness :
  parseLines ascii_upper ascii_lower api_built (recurring_lines ++ [lit "[a]"; lit "[c]"])
  = (fst (parseLines ascii_upper ascii_lower api_built
                     (recurring_lines ++ [lit "[a]"; lit "[c]"])), None) /\
  Forall (fun h => h <> proto_name /\ array_index h = None)
         (header_names (transformKey ascii_upper ascii_lower (_transform api_built))
                       (List.map strip_leading
                                 (recurring_lines ++ [lit "[a]"; lit "[c]"]))) /\
  Object_keys (own_properties
                 (p_sections (fst (parseLines ascii_upper ascii_lower api_built
                                              (recurring_lines ++ [lit "[a]"; lit "[c]"])))))
  = [lit "a"; lit "b"; lit "c"].
Proof.
  split; [reflexivity|]. split; [exact recurring_names|].
  exact (sections_in_order_of_appearance ascii_upper ascii_lower api_built
           (recurring_lines ++ [lit "[a]"; lit "[c]"]) _ eq_refl recurring_names).
Defined.

Lemma api_built_writable :
  store_writable (transformKey ascii_upper ascii_lower TNone) (_sections api_built).
Proof.
  split; [apply distinct_NoDup; reflexivity|].
  repeat first
         [ apply Forall_nil
         | apply Forall_cons
         | apply distinct_NoDup; reflexivity
         | split
         | differ
         | reflexivity ].
Qed.

Lemma write_then_read_trims_witness :
  store_writable (transformKey ascii_upper ascii_lower (_transform api_built))
                 (_sections api_built) /\
  exists out cp',
    getSectionsAsString api_built = Return out /\
    read ascii_upper ascii_lower plain_parser (Path (lit "copy.ini")) out
    = (cp', [], None) /\
    _sections cp' = [(lit "a", [(lit "x", lit "1"); (lit "y", lit "2")]);
                     (lit "b", [(lit "z", lit "3")])].
Proof.
  split; [exact api_built_writable|].
  exact (write_then_read_trims ascii_upper ascii_lower api_built plain_parser
           (Path (lit "copy.ini")) api_built_writable eq_refl eq_refl).
Defined.

Lemma api_built_sections : NoDup (sections api_built).
Proof. apply distinct_NoDup. reflexivity. Qed.

Lemma read_twice_same_witness :
  NoDup (sections api_built) /\
  read ascii_upper ascii_lower
       (fst (fst (read ascii_upper ascii_lower api_built (Path (lit "conf.ini")) mixed_text)))
       (Path (lit "conf.ini")) mixed_text
  = read ascii_upper ascii_lower api_built (Path (lit "conf.ini")) mixed_text.
Proof.
  split; [exact api_built_sections|].
  exact (read_twice_same ascii_upper ascii_lower api_built (Path (lit "conf.ini")) mixed_text
           api_built_sections).
Defined.
